(** * pycorels: the Cython binding layer [libcorels.pyx]

    A shallow embedding of the rule-list evaluator [predict_wrap] and of
    the training session entry points [fit_wrap_begin] / [fit_wrap_end],
    together with the properties of the binding layer that its
    natural-language specification states.

    Conventions.
    - A C [int] is a [Z]; where the source can leave the 32-bit range the
      wrap-around is written out ([c_int]), and the conversion of a Python
      integer to a C [int] raises [OverflowError] outside that range.
    - A Python exception is a value of [exn]; the specification's
      [ValidationError] and [EncodingError] are both Python [ValueError]s
      in the source, told apart here by their message ([message]); its
      [MiningError], [BoundError] and [AllocationError] are [MemoryError]s.
    - Behaviour that C leaves undefined (a read outside a buffer, a free of
      a block that is not live) is the outcome [Undefined]. *)

From stdpp Require Import gmap strings list pretty.
From Stdlib Require Import ZArith Lia Ascii.

Local Open Scope Z_scope.

(** ** Outcomes of a call *)

(** The text of the [ValueError]s of the source, with the numbers that the
    source formats into them. *)
Inductive message : Type :=
  | PredictFeatureMismatch (nfeatures expected : Z)   (* lines 47-48 *)
  | CouldNotLoadSamples                               (* line 120 *)
  | FitFeatureMismatch (nfeatures names : Z)          (* lines 175-176 *)
  | SampleCountMismatch (nsamples_chk nsamples : Z).  (* lines 223-224 *)

Inductive exn : Type :=
  | ValueError (m : message)
  | MemoryError
  | OverflowError
  | UnicodeEncodeError
  | IndexError.

Inductive outcome (A : Type) : Type :=
  | Returned (a : A)
  | Raised (e : exn)
  | Undefined.

Arguments Returned {A} a.
Arguments Raised {A} e.
Arguments Undefined {A}.

#[global] Instance message_eq_dec : EqDecision message.
Proof. solve_decision. Defined.

#[global] Instance exn_eq_dec : EqDecision exn.
Proof. solve_decision. Defined.

#[global] Instance outcome_ret : MRet outcome := @Returned.

#[global] Instance outcome_bind : MBind outcome := fun A B f m =>
  match m with
  | Returned a => f a
  | Raised e => Raised e
  | Undefined => Undefined
  end.

Definition is_returned {A} (o : outcome A) : bool :=
  match o with Returned _ => true | _ => false end.


(** ** C integers *)

Definition INT_MIN : Z := - 2 ^ 31.
Definition INT_MAX : Z := 2 ^ 31 - 1.

(** The value a 32-bit signed [int] holds after an operation whose exact
    result is [z]. *)
Definition c_int (z : Z) : Z := (z + 2 ^ 31) mod 2 ^ 32 - 2 ^ 31.

(** Assigning a Python integer to a [cdef int]. *)
Definition to_c_int (z : Z) : outcome Z :=
  if bool_decide (INT_MIN <= z <= INT_MAX) then Returned z
  else Raised OverflowError.

(** Storing a Python integer in a cell of a [np.uint8] array (a C cast). *)
Definition to_uint8 (z : Z) : Z := z mod 256.

(** ** NumPy matrices *)

(** A two-dimensional [np.uint8] array: its shape and its rows. *)
Record ndarray : Type := mk_ndarray {
  shape0 : nat;
  shape1 : nat;
  cells : list (list Z)
}.

Definition wf_ndarray (X : ndarray) : Prop :=
  length (cells X) = shape0 X /\
  Forall (fun row => length row = shape1 X /\
                     Forall (fun v => 0 <= v < 256) row) (cells X).

(** [X[s, idx]] under [boundscheck(False)] and [wraparound(False)]: an
    index outside the buffer is not checked. *)
Definition read2 (X : ndarray) (s : nat) (idx : Z) : outcome Z :=
  if idx <? 0 then Undefined
  else match cells X !! s ≫= (fun row => row !! Z.to_nat idx) with
       | Some v => Returned v
       | None => Undefined
       end.

(** * The rule-list evaluator *)

Module Predict.

(** One entry of the rule list: the dict
    [{'antecedents': [...], 'prediction': c}]. *)
Record rule : Type := mk_rule {
  antecedents : list Z;
  prediction : Z
}.

#[global] Instance rule_eq_dec : EqDecision rule.
Proof. solve_decision. Defined.

(** Lines 62-67: the rules before the last are copied into C arrays, every
    number converted to a C [int]. *)
Definition copy_rule (r : rule) : outcome rule :=
  p ← to_c_int (prediction r);
  ants ← mapM to_c_int (antecedents r);
  mret (mk_rule ants p).

(** Lines 74-83, one antecedent: [true] when [next_rule] is set to 1.
    Only the upper bound of [idx] is tested before [X[s, idx]] is read:
    the literal id 0 gives the index -1. *)
Definition literal_fails (X : ndarray) (nfeatures : Z) (s : nat) (lit : Z)
  : outcome bool :=
  let idx := lit in
  let c := 1 in
  let '(idx, c) := if idx <? 0 then (c_int (- idx), 0) else (idx, c) in
  let idx := c_int (idx - 1) in
  if idx >=? nfeatures then Returned true
  else v ← read2 X s idx; mret (negb (v =? c)).

(** Lines 71-83: [next_rule] after the loop over the antecedents of one
    rule. *)
Fixpoint antecedent_loop (X : ndarray) (nfeatures : Z) (s : nat)
    (ants : list Z) : outcome Z :=
  match ants with
  | [] => Returned 0
  | lit :: rest =>
      b ← literal_fails X nfeatures s lit;
      if b : bool then Returned 1 else antecedent_loop X nfeatures s rest
  end.

(** Lines 70-87: the loop over the rules for sample [s]; the state is
    [next_rule] and the output array. *)
Fixpoint rules_loop (X : ndarray) (nfeatures : Z) (s : nat)
    (rs : list rule) (next_rule : Z) (out : list Z) : outcome (Z * list Z) :=
  match rs with
  | [] => Returned (next_rule, out)
  | r :: rest =>
      next_rule ← antecedent_loop X nfeatures s (antecedents r);
      if next_rule =? 0
      then Returned (next_rule, <[s := to_uint8 (prediction r)]> out)
      else rules_loop X nfeatures s rest next_rule out
  end.

(** Lines 69-90: the loop over the samples. [next_rule] is a C local
    declared at line 55 with no initial value; it is carried from one
    sample to the next. *)
Fixpoint samples_loop (X : ndarray) (nfeatures : Z) (rs : list rule)
    (default : Z) (ss : list nat) (next_rule : Z) (out : list Z)
  : outcome (list Z) :=
  match ss with
  | [] => Returned out
  | s :: rest =>
      '(next_rule, out) ← rules_loop X nfeatures s rs next_rule out;
      let out := if next_rule =? 1 then <[s := to_uint8 default]> out
                 else out in
      samples_loop X nfeatures rs default rest next_rule out
  end.

(** [predict_wrap(X, features, rules)], lines 42-98. [next_rule0] is the
    indeterminate content of the C local [next_rule] when the function is
    entered. The temporary C arrays are assumed to be allocated. *)
Definition predict_wrap (next_rule0 : Z) (X : ndarray)
    (features : list string) (rules : list rule) : outcome (list Z) :=
  let nsamples := shape0 X in
  let nfeatures := Z.of_nat (shape1 X) in
  if negb (nfeatures =? Z.of_nat (length features) - 1)
  then Raised (ValueError (PredictFeatureMismatch nfeatures
                             (Z.of_nat (length features) - 1)))
  else
    let out := replicate nsamples 0 in
    let nrules := Z.of_nat (length rules) - 1 in
    if nrules <? 0 then Returned out
    else
      match rules !! Z.to_nat nrules with
      | None => Undefined
      | Some last =>
          default ← to_c_int (prediction last);
          rs ← mapM copy_rule (take (Z.to_nat nrules) rules);
          samples_loop X nfeatures rs default (seq 0 nsamples) next_rule0 out
      end.

End Predict.

(** ** The evaluator in the specification's words *)

Module PredictSpec.
Import Predict.

(** Feature [j] (0-based) of sample [s], when the matrix has it. *)
Definition feature (X : ndarray) (s : nat) (j : Z) : option Z :=
  if bool_decide (0 <= j < Z.of_nat (shape1 X))
  then cells X !! s ≫= (fun row => row !! Z.to_nat j)
  else None.

(** A positive literal id [k] requires feature [k-1] to equal 1, a negated
    id [-k] requires feature [k-1] to equal 0; a literal whose index
    exceeds the feature count does not hold. *)
Definition literal_holds (X : ndarray) (s : nat) (lit : Z) : bool :=
  if 0 <? lit then bool_decide (feature X s (lit - 1) = Some 1)
  else if lit <? 0 then bool_decide (feature X s (- lit - 1) = Some 0)
  else false.

(** A rule matches iff every literal of its antecedent holds. *)
Definition rule_matches (X : ndarray) (s : nat) (r : rule) : bool :=
  forallb (literal_holds X s) (antecedents r).

(** First match wins; the default rule's class when no rule matches. *)
Definition classify (X : ndarray) (s : nat) (body : list rule) (last : rule)
  : Z :=
  match List.find (rule_matches X s) body with
  | Some r => prediction r
  | None => prediction last
  end.

(** The rule lists the evaluator is meant for: literal ids are non-zero C
    integers, classes are C integers. *)
Definition wf_literal (lit : Z) : Prop :=
  lit <> 0 /\ INT_MIN <= lit <= INT_MAX.

Definition wf_rule (r : rule) : Prop :=
  INT_MIN <= prediction r <= INT_MAX /\
  Forall wf_literal (antecedents r).

End PredictSpec.

(** ** Inputs used in the examples *)

Module PredictInputs.
Import Predict.

(** The four samples over two features of the specification's scenario. *)
Definition X4 : ndarray := mk_ndarray 4 2 [[0;0];[0;1];[1;0];[1;1]].

(** Two feature names and the slot of the default-rule placeholder. *)
Definition names3 : list string := ["f0"; "f1"; "default"]%string.

(** "If feature 1 then class 1, else class 0". *)
Definition rl_feature1 : list rule := [mk_rule [2] 1; mk_rule [0] 0].

(** The default rule alone, with default class 1. *)
Definition rl_default1 : list rule := [mk_rule [0] 1].

End PredictInputs.


(** * The training session: [fit_wrap_begin] and [fit_wrap_end] *)

Module Session.

(** ** C memory *)

(** Addresses of heap blocks; [None] of type [option addr] is [NULL]. *)
Abbreviation addr := nat (only parsing).

(** [struct rule] of [rule.h]. *)
Record rule_t : Type := mk_rule_t {
  truthtable : option addr;   (* VECTOR truthtable *)
  features : option addr;     (* char* features *)
  cardinality : Z;
  ids : option addr;          (* int* ids *)
  support : Z
}.

(** What a live block holds. A slot of a [rule_t] array is [None] until
    it has been written. *)
Inductive block : Type :=
  | BVector (bits : list bool)
  | BChars (text : string)
  | BInts (l : list Z)
  | BStrs (l : list (option addr))
  | BRules (slots : list (option rule_t)).

(** What the native library writes for one rule: the buffers it
    allocates and the scalar fields. *)
Record rule_desc : Type := mk_rule_desc {
  d_truthtable : option (list bool);
  d_features : option string;
  d_cardinality : Z;
  d_ids : option (list Z);
  d_support : Z
}.

(** What [mine_rules] does with its out-parameter [rules_out]. *)
Inductive rules_out : Type :=
  | Untouched
  | SetNull
  | SetPool (pool : list rule_desc).

Section WithDouble.

(** C [double]s are only passed through to the native library. *)
Context {double : Type}.

(** The arguments of [fit_wrap_begin]. *)
Record fit_args : Type := mk_fit_args {
  samples : ndarray;
  labels : ndarray;
  feature_names : list string;   (* the argument [features] *)
  max_card : Z;
  min_support : double;
  verbosity_str : string;
  mverbose : Z;
  c : double;
  policy : Z;
  map_type : Z;
  log_freq : Z;
  ablation : Z;
  calculate_size : Z
}.

Record mine_args : Type := mk_mine_args {
  ma_features : addr;
  ma_samples : option addr;
  ma_nfeatures : Z;
  ma_nsamples : Z;
  ma_max_card : Z;
  ma_min_support : double;
  ma_verbose : Z
}.

Record minority_args : Type := mk_minority_args {
  mi_rules : option addr;
  mi_nrules : Z;
  mi_labels : option addr;
  mi_nsamples : Z;
  mi_minority_out : option addr;
  mi_verbose : Z
}.

Record begin_args : Type := mk_begin_args {
  ba_c : double;
  ba_vstring : string;
  ba_curiosity_policy : Z;
  ba_map_type : Z;
  ba_freq : Z;
  ba_ablation : Z;
  ba_calculate_size : Z;
  ba_nrules : Z;
  ba_nlabels : Z;
  ba_nsamples : Z;
  ba_rules : option addr;
  ba_labels : option addr;
  ba_meta : option addr
}.

(** What [run_corels_end] returns and writes through its three
    out-parameters. *)
Record end_result : Type := mk_end_result {
  er_acc : double;
  er_rulelist : option (list Z);
  er_rulelist_size : Z;
  er_classes : option (list Z)
}.

(** The calls made into the native search library, newest first. *)
Inductive native_call : Type :=
  | CallMine (a : mine_args) (r : Z)
  | CallMinority (a : minority_args) (mr : Z)
  | CallBegin (a : begin_args) (rb : Z)
  | CallLoop (max_num_nodes : Z) (r : Z)
  | CallEnd.

(** The heap, the four module-level variables of lines 153-156, and the
    history of native calls (the native library keeps its session between
    calls). [next] counts the allocation requests; an address is never
    handed out twice. *)
Record state : Type := mk_state {
  heap : gmap addr block;
  next : addr;
  rules : option addr;
  labels_vecs : option addr;
  minor : option addr;
  nrules : Z;
  calls : list native_call
}.

(** The state when the module is loaded. *)
Definition initial : state := mk_state ∅ 0 None None None 0 [].

(** The functions that are declared [extern] in the source and defined in
    the native library, and the allocator: [malloc_fails] tells which
    allocation requests of the binding layer fail. A native function reads
    memory through the pointers it is given and keeps its own state
    between calls; both are covered by passing it the whole state, the
    history of native calls included. *)
Record natives : Type := mk_natives {
  malloc_fails : addr -> bool;
  (* line, len, *ncount on entry; [Some (ncount, nones, truthtable)] on
     return 0, [None] on any other return *)
  ascii_to_vector : string -> Z -> Z -> option (Z * Z * list bool);
  mine_rules : state -> mine_args -> Z * rules_out;
  minority : state -> minority_args -> Z * option rule_desc;
  run_corels_begin : state -> begin_args -> Z;
  run_corels_loop : state -> Z -> Z;
  run_corels_end : state -> end_result
}.

Variable N : natives.

(** ** The monad of the binding layer: state, exceptions, undefined
    behaviour *)

Definition M (A : Type) : Type := state -> outcome A * state.

#[global] Instance M_ret : MRet M := fun A a s => (Returned a, s).

#[global] Instance M_bind : MBind M := fun A B f m s =>
  match m s with
  | (Returned a, s') => f a s'
  | (Raised e, s') => (Raised e, s')
  | (Undefined, s') => (Undefined, s')
  end.

Definition raise {A} (e : exn) : M A := fun s => (Raised e, s).

Definition undefined {A} : M A := fun s => (Undefined, s).

(** [try: m  except: h; raise]. *)
Definition try_except_reraise {A} (m : M A) (h : M unit) : M A := fun s =>
  match m s with
  | (Raised e, s') =>
      match h s' with
      | (Returned _, s'') => (Raised e, s'')
      | (Raised e', s'') => (Raised e', s'')
      | (Undefined, s'') => (Undefined, s'')
      end
  | r => r
  end.

Definition set_heap (h : gmap addr block) (s : state) : state :=
  mk_state h (next s) (rules s) (labels_vecs s) (minor s) (nrules s) (calls s).

Definition set_next (n : addr) (s : state) : state :=
  mk_state (heap s) n (rules s) (labels_vecs s) (minor s) (nrules s) (calls s).

Definition set_rules (p : option addr) : M unit := fun s =>
  (Returned (),
   mk_state (heap s) (next s) p (labels_vecs s) (minor s) (nrules s) (calls s)).

Definition set_labels_vecs (p : option addr) : M unit := fun s =>
  (Returned (),
   mk_state (heap s) (next s) (rules s) p (minor s) (nrules s) (calls s)).

Definition set_minor (p : option addr) : M unit := fun s =>
  (Returned (),
   mk_state (heap s) (next s) (rules s) (labels_vecs s) p (nrules s) (calls s)).

Definition set_nrules (n : Z) : M unit := fun s =>
  (Returned (),
   mk_state (heap s) (next s) (rules s) (labels_vecs s) (minor s) n (calls s)).

Definition log_call (e : native_call) (s : state) : state :=
  mk_state (heap s) (next s) (rules s) (labels_vecs s) (minor s) (nrules s)
           (e :: calls s).

Definition get_rules : M (option addr) := fun s => (Returned (rules s), s).
Definition get_labels_vecs : M (option addr) :=
  fun s => (Returned (labels_vecs s), s).
Definition get_minor : M (option addr) := fun s => (Returned (minor s), s).
Definition get_nrules : M Z := fun s => (Returned (nrules s), s).

(** An allocation inside the native library (its failures are reported
    through the return codes of the native functions). *)
Definition alloc (b : block) : M addr := fun s =>
  (Returned (next s), set_next (S (next s)) (set_heap (<[next s := b]> (heap s)) s)).

(** [malloc] called from the binding layer: [None] is [NULL]. *)
Definition malloc (b : block) : M (option addr) := fun s =>
  if malloc_fails N (next s)
  then (Returned None, set_next (S (next s)) s)
  else (Returned (Some (next s)),
        set_next (S (next s)) (set_heap (<[next s := b]> (heap s)) s)).

(** [free(p)] for a non-null [p]: undefined unless the block is live. *)
Definition free (a : addr) : M unit := fun s =>
  match heap s !! a with
  | Some _ => (Returned (), set_heap (delete a (heap s)) s)
  | None => (Undefined, s)
  end.

(** [free(p)]: a no-op on [NULL]. *)
Definition free_opt (p : option addr) : M unit :=
  match p with
  | Some a => free a
  | None => mret ()
  end.

Definition load (a : addr) : M block := fun s =>
  match heap s !! a with
  | Some b => (Returned b, s)
  | None => (Undefined, s)
  end.

Definition store (a : addr) (b : block) : M unit := fun s =>
  match heap s !! a with
  | Some _ => (Returned (), set_heap (<[a := b]> (heap s)) s)
  | None => (Undefined, s)
  end.

(** [vs[i]], read as a whole record; a slot outside the array or not yet
    written has no defined content. *)
Definition load_slot (vs : addr) (i : nat) : M rule_t :=
  b ← load vs;
  match b with
  | BRules slots =>
      match slots !! i with
      | Some (Some r) => mret r
      | _ => undefined
      end
  | _ => undefined
  end.

(** [vs[i] = r]. *)
Definition store_slot (vs : addr) (i : nat) (r : rule_t) : M unit :=
  b ← load vs;
  match b with
  | BRules slots =>
      if bool_decide (i < length slots)%nat
      then store vs (BRules (<[i := Some r]> slots))
      else undefined
  | _ => undefined
  end.

(** [p[i]] for an [int*]. *)
Definition load_int (p : option addr) (i : nat) : M Z :=
  match p with
  | None => undefined
  | Some a =>
      b ← load a;
      match b with
      | BInts l => match l !! i with Some z => mret z | None => undefined end
      | _ => undefined
      end
  end.

(** Modelled from the spec: [rule_vfree] of [rule.h] is not part of the
    binding layer; a record's truth vector is freed exactly once, so the
    call frees the buffer when the field is not [NULL] and clears the
    field. *)
Definition rule_vfree (vs : addr) (i : nat) : M unit :=
  r ← load_slot vs i;
  match truthtable r with
  | Some t =>
      free t;;
      store_slot vs i (mk_rule_t None (features r) (cardinality r) (ids r)
                         (support r))
  | None => mret ()
  end.

(** ** [_to_vector], lines 100-127 *)

(** Lines 110-112: the row [X[i]] written as a string of decimal
    numbers. *)
Definition row_text (X : ndarray) (i : nat) : string :=
  let row := default [] (cells X !! i) in
  foldl (fun arrstr j => arrstr +:+ pretty (default 0 (row !! j)))
        EmptyString (seq 0 (shape1 X)).

(** Lines 116-117. *)
Fixpoint vfree_range (vs : addr) (js : list nat) : M unit :=
  match js with
  | [] => mret ()
  | j :: rest => rule_vfree vs j;; vfree_range vs rest
  end.

(** Lines 109-125, for the rows [idxs]. *)
Fixpoint to_vector_rows (vectors : addr) (X : ndarray) (idxs : list nat)
    (ncount : Z) : M Z :=
  match idxs with
  | [] => mret ncount
  | i :: rest =>
      let arrstr := row_text X i in
      match ascii_to_vector N arrstr (Z.of_nat (String.length arrstr)) ncount
      with
      | None =>
          vfree_range vectors (seq 0 i);;
          free vectors;;
          raise (ValueError CouldNotLoadSamples)
      | Some (ncount, nones, bits) =>
          t ← alloc (BVector bits);
          store_slot vectors i (mk_rule_t (Some t) None 1 None nones);;
          to_vector_rows vectors X rest ncount
      end
  end.

(** [_to_vector(X, ncount)]: the new array and the value left in
    [*ncount]. *)
Definition _to_vector (X : ndarray) (ncount : Z) : M (addr * Z) :=
  let d0 := shape0 X in
  vectors ← malloc (BRules (replicate d0 None));
  match vectors with
  | None => raise MemoryError
  | Some vectors =>
      ncount ← to_vector_rows vectors X (seq 0 d0) ncount;
      mret (vectors, ncount)
  end.

(** The count that [_to_vector] leaves in [*ncount], as a function of the
    matrix alone: [None] when a row is rejected. *)
Fixpoint scan_rows (X : ndarray) (idxs : list nat) (ncount : Z) : option Z :=
  match idxs with
  | [] => Some ncount
  | i :: rest =>
      let arrstr := row_text X i in
      match ascii_to_vector N arrstr (Z.of_nat (String.length arrstr)) ncount
      with
      | None => None
      | Some (ncount, _, _) => scan_rows X rest ncount
      end
  end.

Definition encoded_count (X : ndarray) : option Z :=
  scan_rows X (seq 0 (shape0 X)) 0.

(** ** [_free_vector], lines 129-141 *)

(** Lines 133-139. *)
Fixpoint free_slots (vs : addr) (idxs : list nat) : M unit :=
  match idxs with
  | [] => mret ()
  | i :: rest =>
      rule_vfree vs i;;
      r ← load_slot vs i;
      free_opt (ids r);;
      free_opt (features r);;
      free_slots vs rest
  end.

Definition _free_vector (vs : option addr) (count : Z) : M unit :=
  match vs with
  | None => mret ()
  | Some vs => free_slots vs (seq 0 (Z.to_nat count));; free vs
  end.

(** ** The native calls *)

(** The native library allocates the buffers of one record. *)
Definition install_rule (d : rule_desc) : M rule_t :=
  t ← match d_truthtable d with
      | Some bits => a ← alloc (BVector bits); mret (Some a)
      | None => mret None
      end;
  f ← match d_features d with
      | Some text => a ← alloc (BChars text); mret (Some a)
      | None => mret None
      end;
  i ← match d_ids d with
      | Some l => a ← alloc (BInts l); mret (Some a)
      | None => mret None
      end;
  mret (mk_rule_t t f (d_cardinality d) i (d_support d)).

Definition install_int_array (l : option (list Z)) : M (option addr) :=
  match l with
  | Some l => a ← alloc (BInts l); mret (Some a)
  | None => mret None
  end.

(** [mine_rules(features_vec, samples_vecs, ..., &rules, mverbose)]. *)
Definition call_mine_rules (a : mine_args) : M Z := fun s =>
  let '(r, out) := mine_rules N s a in
  let s := log_call (CallMine a r) s in
  match out with
  | Untouched => (Returned r, s)
  | SetNull => (set_rules None;; mret r) s
  | SetPool pool =>
      (rs ← mapM install_rule pool;
       p ← alloc (BRules (Some <$> rs));
       set_rules (Some p);;
       mret r) s
  end.

(** [minority(rules, nrules, labels_vecs, nsamples, minor, mverbose)]. *)
Definition call_minority (a : minority_args) : M Z := fun s =>
  let '(mr, out) := minority N s a in
  let s := log_call (CallMinority a mr) s in
  match out with
  | None => (Returned mr, s)
  | Some d =>
      match mi_minority_out a with
      | None => (Undefined, s)
      | Some m => (r ← install_rule d; store_slot m 0 r;; mret mr) s
      end
  end.

Definition call_run_corels_begin (a : begin_args) : M Z := fun s =>
  let rb := run_corels_begin N s a in
  (Returned rb, log_call (CallBegin a rb) s).

Definition call_run_corels_loop (max_num_nodes : Z) : M Z := fun s =>
  let r := run_corels_loop N s max_num_nodes in
  (Returned r, log_call (CallLoop max_num_nodes r) s).

(** [run_corels_end(&rulelist, &rulelist_size, &classes)]. *)
Definition call_run_corels_end : M (double * option addr * Z * option addr) :=
  fun s =>
  let er := run_corels_end N s in
  (rulelist ← install_int_array (er_rulelist er);
   classes ← install_int_array (er_classes er);
   mret (er_acc er, rulelist, er_rulelist_size er, classes))
    (log_call CallEnd s).

(** ** [fit_wrap_begin], lines 158-256 *)

(** [text.encode('ascii')]. *)
Definition is_ascii (text : string) : bool :=
  forallb (fun ch => (Ascii.nat_of_ascii ch <? 128)%nat) (String.list_ascii_of_string text).

Definition encode_ascii (text : string) : M string :=
  if is_ascii text then mret text else raise UnicodeEncodeError.

(** [p[i] = q] for a [char**]. *)
Definition store_str (p : addr) (i : nat) (q : option addr) : M unit :=
  b ← load p;
  match b with
  | BStrs l =>
      if bool_decide (i < length l)%nat then store p (BStrs (<[i := q]> l))
      else undefined
  | _ => undefined
  end.

(** Lines 183-185. [strdup] allocates the copy and returns [NULL] when it
    cannot. *)
Fixpoint dup_features (features_vec : addr) (names : list string)
    (idxs : list nat) : M unit :=
  match idxs with
  | [] => mret ()
  | i :: rest =>
      match names !! i with
      | None => raise IndexError
      | Some name =>
          bytestr ← encode_ascii name;
          q ← malloc (BChars bytestr);
          store_str features_vec i q;;
          dup_features features_vec names rest
      end
  end.

(** Lines 195-196. *)
Fixpoint free_features (features_vec : addr) (idxs : list nat) : M unit :=
  match idxs with
  | [] => mret ()
  | i :: rest =>
      b ← load features_vec;
      match b with
      | BStrs l =>
          match l !! i with
          | Some q => free_opt q;; free_features features_vec rest
          | None => undefined
          end
      | _ => undefined
      end
  end.

(** [vs[i].features = q]. *)
Definition set_features (vs : option addr) (i : nat) (q : option addr)
  : M unit :=
  match vs with
  | None => undefined
  | Some vs =>
      r ← load_slot vs i;
      store_slot vs i (mk_rule_t (truthtable r) q (cardinality r) (ids r)
                         (support r))
  end.

(** [strcpy(dst, text)]. *)
Definition strcpy (dst : option addr) (text : string) : M unit :=
  match dst with
  | None => undefined
  | Some a => store a (BChars text)
  end.

(** Lines 187-190: a pool left by an earlier call is released. *)
Definition discard_stale_pool : M unit :=
  old_rules ← get_rules;
  old_nrules ← get_nrules;
  if bool_decide (old_rules <> None) && negb (old_nrules =? 0) then
    _free_vector old_rules old_nrules;;
    set_rules None;;
    set_nrules 0
  else mret ().

(** Lines 192-211: the pool is mined, the feature names and the sample
    records are released, and the label records left by an earlier call
    are released. Returns the locals [nsamples] and [verbosity]. *)
Definition mine_pool (A : fit_args) (features_vec samples_vecs : addr)
    (nfeatures nsamples : Z) : M (Z * string) :=
  r ← call_mine_rules
        (mk_mine_args features_vec (Some samples_vecs) nfeatures
           nsamples (max_card A) (min_support A) (mverbose A));
  free_features features_vec (seq 0 (Z.to_nat nfeatures));;
  free features_vec;;
  _free_vector (Some samples_vecs) nsamples;;
  new_rules ← get_rules;
  if (r =? -1) || bool_decide (new_rules = None) then raise MemoryError
  else
    set_nrules r;;
    verbosity ← encode_ascii (verbosity_str A);
    old_labels ← get_labels_vecs;
    (if bool_decide (old_labels <> None) then
       _free_vector old_labels 2;;
       set_labels_vecs None
     else mret ());;
    mret (nsamples, verbosity).

(** Lines 168-211: the samples are encoded and checked against the
    feature names, the names are copied, and the pool is mined. *)
Definition fit_begin_pool (A : fit_args) : M (Z * string) :=
  '(samples_vecs, nfeatures) ← _to_vector (samples A) 0;
  let nsamples := Z.of_nat (shape0 (samples A)) in
  if nfeatures >? Z.of_nat (length (feature_names A)) then
    _free_vector (Some samples_vecs) nsamples;;
    raise (ValueError (FitFeatureMismatch nfeatures
                         (Z.of_nat (length (feature_names A)))))
  else
    features_vec ← malloc (BStrs (replicate (Z.to_nat nfeatures) None));
    match features_vec with
    | None =>
        _free_vector (Some samples_vecs) nsamples;;
        raise MemoryError
    | Some features_vec =>
        dup_features features_vec (feature_names A)
                     (seq 0 (Z.to_nat nfeatures));;
        discard_stale_pool;;
        mine_pool A features_vec samples_vecs nfeatures nsamples
    end.

(** Lines 213-229: the labels are encoded and checked against the number
    of samples, and the two label records are named. *)
Definition fit_begin_labels (A : fit_args) (nsamples : Z) : M unit :=
  '(lv, nsamples_chk) ←
      try_except_reraise (_to_vector (labels A) 0)
        (rs ← get_rules; n ← get_nrules; _free_vector rs n);
  set_labels_vecs (Some lv);;
  if negb (nsamples_chk =? nsamples) then
    lvs ← get_labels_vecs; _free_vector lvs 2;;
    rs ← get_rules; n ← get_nrules; _free_vector rs n;;
    raise (ValueError (SampleCountMismatch nsamples_chk nsamples))
  else
    lvs ← get_labels_vecs;
    f0 ← malloc (BChars EmptyString);
    set_features lvs 0 f0;;
    f1 ← malloc (BChars EmptyString);
    set_features lvs 1 f1;;
    strcpy f0 "label=0";;
    strcpy f1 "label=1".

(** Lines 231-238: the minority record is computed; the result is the
    code [mr] of the native call. *)
Definition fit_begin_minority (A : fit_args) (nsamples : Z) : M Z :=
  old_minor ← get_minor;
  (if bool_decide (old_minor <> None) then
     _free_vector old_minor 1;;
     set_minor None
   else mret ());;
  m ← malloc (BRules [None]);
  set_minor m;;
  rs ← get_rules; n ← get_nrules; lvs ← get_labels_vecs;
  call_minority (mk_minority_args rs n lvs nsamples m (mverbose A)).

(** Lines 239-256: the code of the minority call is checked and the
    native session started. *)
Definition fit_begin_start (A : fit_args) (nsamples : Z)
    (verbosity : string) (mr : Z) : M bool :=
  rs ← get_rules; n ← get_nrules; lvs ← get_labels_vecs; m ← get_minor;
  if negb (mr =? 0) then
    _free_vector lvs 2;;
    _free_vector rs n;;
    raise MemoryError
  else
    rb ← call_run_corels_begin
           (mk_begin_args (c A) verbosity (policy A) (map_type A)
              (log_freq A) (ablation A) (calculate_size A) n 2 nsamples
              rs lvs m);
    if rb =? -1 then
      _free_vector lvs 2;;
      set_labels_vecs None;;
      _free_vector m 1;;
      set_minor None;;
      _free_vector rs n;;
      set_rules None;;
      set_nrules 0;;
      mret false
    else mret true.

(** Lines 231-256. *)
Definition fit_begin_session (A : fit_args) (nsamples : Z)
    (verbosity : string) : M bool :=
  mr ← fit_begin_minority A nsamples;
  fit_begin_start A nsamples verbosity mr.

Definition fit_wrap_begin (A : fit_args) : M bool :=
  '(nsamples, verbosity) ← fit_begin_pool A;
  fit_begin_labels A nsamples;;
  fit_begin_session A nsamples verbosity.

(** ** [fit_wrap_loop], lines 258-260 *)

Definition fit_wrap_loop (max_nodes : Z) : M bool :=
  let max_num_nodes := max_nodes in
  r ← call_run_corels_loop max_num_nodes;
  mret (negb (r =? -1)).

(** ** [fit_wrap_end], lines 262-296 *)

(** Lines 275-281: the rules of the optimal list. *)
Fixpoint extract_rules (rulelist classes : option addr) (idxs : list nat)
  : M (list Predict.rule) :=
  match idxs with
  | [] => mret []
  | i :: rest =>
      idx ← load_int rulelist i;
      rs ← get_rules;
      match rs with
      | None => undefined
      | Some pool =>
          if idx <? 0 then undefined
          else
            r ← load_slot pool (Z.to_nat idx);
            ants ← mapM (load_int (ids r))
                        (seq 0 (Z.to_nat (cardinality r)));
            cls ← load_int classes i;
            tail ← extract_rules rulelist classes rest;
            mret (Predict.mk_rule ants cls :: tail)
      end
  end.

Definition fit_wrap_end : M (double * list Predict.rule) :=
  '(acc, rulelist, rulelist_size, classes) ← call_run_corels_end;
  r_out ←
    match classes with
    | None => mret []
    | Some _ =>
        body ← extract_rules rulelist classes
                 (seq 0 (Z.to_nat rulelist_size));
        default ←
          (if rulelist_size <? 0 then undefined
           else load_int classes (Z.to_nat rulelist_size));
        free_opt rulelist;;
        free_opt classes;;
        mret (body ++ [Predict.mk_rule [0] default])
    end;
  lvs ← get_labels_vecs; _free_vector lvs 2;;
  set_labels_vecs None;;
  m ← get_minor; _free_vector m 1;;
  set_minor None;;
  rs ← get_rules; n ← get_nrules; _free_vector rs n;;
  set_rules None;;
  set_nrules 0;;
  mret (acc, r_out).

(** ** The states of the module *)

(** The states that calls of the three entry points lead to from the
    state in which the module is loaded; after a call with undefined
    behaviour there is nothing to say. *)
Inductive reachable : state -> Prop :=
  | reachable_initial : reachable initial
  | reachable_begin A s r s' :
      reachable s -> fit_wrap_begin A s = (r, s') -> r <> Undefined ->
      reachable s'
  | reachable_loop max_nodes s r s' :
      reachable s -> fit_wrap_loop max_nodes s = (r, s') -> r <> Undefined ->
      reachable s'
  | reachable_end s r s' :
      reachable s -> fit_wrap_end s = (r, s') -> r <> Undefined ->
      reachable s'.

(** ** The result extractor in the specification's words *)

(** [p[i]] of an [int] buffer, read from the heap of [s]. *)
Definition int_at (s : state) (p : option addr) (i : nat) : option Z :=
  a ← p;
  match heap s !! a with
  | Some (BInts l) => l !! i
  | _ => None
  end.

(** Record [i] of the [rule_t] array at [v]. *)
Definition slot_at (s : state) (v : addr) (i : nat) : option rule_t :=
  match heap s !! v with
  | Some (BRules slots) => mjoin (slots !! i)
  | _ => None
  end.

(** Step [i] of the optimal path: its pool index is resolved to the
    literal ids of that pool entry, and paired with the class predicted at
    that step. *)
Definition path_rule (s : state) (rulelist classes : option addr) (i : nat)
  : option Predict.rule :=
  idx ← int_at s rulelist i;
  pool ← rules s;
  if idx <? 0 then None
  else
    r ← slot_at s pool (Z.to_nat idx);
    ants ← mapM (int_at s (ids r)) (seq 0 (Z.to_nat (cardinality r)));
    cls ← int_at s classes i;
    Some (Predict.mk_rule ants cls).

End WithDouble.

End Session.

(** ** A stand-in for the native library, to run the binding layer on
    concrete inputs *)

Module SessionInputs.
Import Session.

(** The return codes and results that the stand-in gives, fixed for a
    whole run; [sc_mine_again] is what the miner gives once it has been
    called before. *)
Record scenario : Type := mk_scenario {
  sc_malloc_fails : nat -> bool;
  sc_mine : Z * rules_out;
  sc_mine_again : Z * rules_out;
  sc_minority : Z * option rule_desc;
  sc_begin : Z;
  sc_end : @end_result Z
}.

Definition is_binary_digit (ch : Ascii.ascii) : bool :=
  bool_decide (ch = "0"%char) || bool_decide (ch = "1"%char).

(** Modelled from the spec: [ascii_to_vector] of [rule.h] is not part of
    the binding layer. It packs a row of 0/1 characters into a bit vector,
    fails on a row that cannot be packed losslessly (a non-binary value, or
    a length other than the count already discovered), and reports the
    count discovered and the number of ones. *)
Definition ascii_to_vector_bits (line : string) (len ncount : Z)
  : option (Z * Z * list bool) :=
  let chars := String.list_ascii_of_string line in
  if forallb is_binary_digit chars
     && ((ncount =? 0) || (ncount =? len))
  then
    let bits := map (fun ch => bool_decide (ch = "1"%char)) chars in
    Some (len, Z.of_nat (length (filter (fun b => b = true) bits)), bits)
  else None.

Definition mined_before (s : @state Z) : bool :=
  existsb (fun e => match e with CallMine _ _ => true | _ => false end)
          (calls s).

Definition stub (sc : scenario) : @natives Z :=
  mk_natives (sc_malloc_fails sc) ascii_to_vector_bits
    (fun s _ => if mined_before s then sc_mine_again sc else sc_mine sc)
    (fun _ _ => sc_minority sc)
    (fun _ _ => sc_begin sc)
    (fun _ _ => 0)
    (fun _ => sc_end sc).

(** The pool of the specification's scenario: the rule "feature 1". *)
Definition pool_feature1 : list rule_desc :=
  [mk_rule_desc (Some [false; true; false; true]) (Some "{f1}"%string) 1
     (Some [2]) 2].

Definition minority_none : rule_desc :=
  mk_rule_desc (Some [false; false; false; false]) None 1 None 0.

(** Everything succeeds; the optimal list is "if feature 1 then 1 else
    0". *)
Definition sc_ok : scenario :=
  mk_scenario (fun _ => false) (1, SetPool pool_feature1)
    (1, SetPool pool_feature1) (0, Some minority_none) 0
    (mk_end_result 0 (Some [0]) 1 (Some [1; 0])).



(** The arguments of the specification's scenario: four samples over two
    features, labels equal to feature 1 (one row per class). *)
Definition labels4 : ndarray := mk_ndarray 2 4 [[1;0;1;0];[0;1;0;1]].

Definition args_ok : @fit_args Z :=
  mk_fit_args PredictInputs.X4 labels4 ["f0"; "f1"]%string 1 10 "" 0 1 2 1 0 0 0.

(** Labels for three samples against four samples. *)
Definition labels3 : ndarray := mk_ndarray 2 3 [[1;0;1];[0;1;0]].

Definition args_labels3 : @fit_args Z :=
  mk_fit_args PredictInputs.X4 labels3 ["f0"; "f1"]%string 1 10 "" 0 1 2 1 0 0 0.


(** The state after a successful [fit_wrap_begin] on the scenario. *)
Definition active_ok : @state Z :=
  (fit_wrap_begin (stub sc_ok) args_ok initial).2.








End SessionInputs.

(** ** Predicates on states and on operations, used in the proofs *)

Module SessionInvariants.
Import Session.

Section WithDouble.

Context {double : Type}.

Implicit Types (s : @state double) (e : exn).

(** The module-level variables and the history of native calls. *)
Definition same_globals s s' : Prop :=
  rules s' = rules s /\ labels_vecs s' = labels_vecs s /\
  minor s' = minor s /\ nrules s' = nrules s /\ calls s' = calls s.

(** [obeys P m]: [m] works on the heap only, and raises no exception
    other than those of [P]. *)
Definition obeys {A} (P : exn -> Prop) (m : M A) : Prop :=
  forall s r s', m s = (r, s') ->
    same_globals s s' /\ forall e, r = Raised e -> P e.

Definition quiet {A} (m : M A) : Prop := obeys (fun _ => False) m.

Definition encoding_error e : Prop :=
  e = MemoryError \/ e = ValueError CouldNotLoadSamples.

Definition cleared (r : rule_t) : rule_t :=
  mk_rule_t None (features r) (cardinality r) (ids r) (support r).

(** No block lives at an address that has not been handed out yet. *)
Definition heap_fresh s : Prop :=
  forall a, (next s <= a)%nat -> heap s !! a = None.

(** The records of a matrix while it is encoded and released: the array
    is the block [v], the truth table of row [j] the block [v + 1 + j];
    the rows below [lo] have been released, those from [lo] below [hi] are
    encoded, and nothing else has changed since [s0]. *)
Record arr_inv (s0 : @state double) (v : nat) (d0 lo hi : nat)
    (s : @state double) : Prop := mk_arr_inv {
  ai_globals : same_globals s0 s;
  ai_below : forall a, (a < v)%nat -> heap s !! a = heap s0 !! a;
  ai_above : forall a, (v + 1 + hi <= a)%nat -> heap s !! a = None;
  ai_array : exists slots,
    heap s !! v = Some (BRules slots) /\ length slots = d0 /\
    (forall j, (lo <= j < hi)%nat -> exists n,
       slots !! j = Some (Some (mk_rule_t (Some (v + 1 + j)%nat) None 1 None n))) /\
    (forall j, (j < lo)%nat -> exists n,
       slots !! j = Some (Some (mk_rule_t None None 1 None n)));
  ai_live : forall j, (lo <= j < hi)%nat -> is_Some (heap s !! (v + 1 + j)%nat);
  ai_dead : forall j, (j < lo)%nat -> heap s !! (v + 1 + j)%nat = None
}.

(** The buffers of a record, in the order in which [_free_vector] frees
    them. *)
Definition pointers_of (r : rule_t) : list nat :=
  omap id [truthtable r; ids r; features r].

Definition all_pointers (recs : list rule_t) : list nat :=
  recs ≫= pointers_of.

(** An array of records that owns its buffers: the array and the buffers
    are live blocks, all distinct. *)
Record owned (h : gmap nat block) (v : nat) (recs : list rule_t)
  : Prop := mk_owned {
  ow_array : h !! v = Some (BRules (Some <$> recs));
  ow_nodup : NoDup (v :: all_pointers recs);
  ow_live : forall a, a ∈ all_pointers recs -> is_Some (h !! a)
}.


(** The blocks of an array of records: the array and the buffers. *)
Definition blocks_of (v : nat) (recs : list rule_t) : list nat :=
  v :: all_pointers recs.

(** The blocks that an array pointer of the state leads to. *)
Definition blocks_at (h : gmap nat block) (v : option nat) : list nat :=
  match v with
  | Some v =>
      match h !! v with
      | Some (BRules slots) => blocks_of v (omap id slots)
      | _ => []
      end
  | None => []
  end.

(** The blocks of the three structures of a session. *)
Definition session_blocks s : list nat :=
  blocks_at (heap s) (labels_vecs s) ++ blocks_at (heap s) (minor s)
  ++ blocks_at (heap s) (rules s).

(** The state of a started session: [labels_vecs] is an array of two
    records, [minor] one record and [rules] an array of [nrules] records,
    each owning its buffers, and no block belongs to two of them. *)
Definition session_owned s : Prop :=
  exists lv lrecs m mrecs p recs,
    labels_vecs s = Some lv /\ minor s = Some m /\ rules s = Some p
    /\ length lrecs = 2%nat /\ length mrecs = 1%nat
    /\ nrules s = Z.of_nat (length recs)
    /\ owned (heap s) lv lrecs /\ owned (heap s) m mrecs
    /\ owned (heap s) p recs
    /\ NoDup (blocks_of lv lrecs ++ blocks_of m mrecs ++ blocks_of p recs).

(** Nothing is left of the matrix: the heap is as in [s0]. *)
Definition released (s0 s' : @state double) : Prop :=
  same_globals s0 s' /\ heap s' = heap s0.

(** [keeps_calls P m]: [m] makes no native call, and raises no exception
    other than those of [P]. *)
Definition keeps_calls {A} (P : exn -> Prop) (m : M A) : Prop :=
  forall s r s', m s = (r, s') ->
    calls s' = calls s /\ forall e, r = Raised e -> P e.

(** The buffers that the native library allocates are always there: its
    failures show in its return codes only. *)
Definition installs {A} (m : M A) : Prop :=
  forall s, exists a s', m s = (Returned a, s') /\ same_globals s s'.

Definition label_error e : Prop :=
  encoding_error e \/ exists k n, e = ValueError (SampleCountMismatch k n).

(** [keeps_fresh m]: [m] keeps every live block below the allocation
    counter. *)
Definition keeps_fresh {A} (m : M A) : Prop :=
  forall s r s', heap_fresh s -> m s = (r, s') -> heap_fresh s'.

End WithDouble.

End SessionInvariants.
(** * Further notions for the evaluator *)

Module PredictRanges.
Import Predict.

(** A number that a C [int] holds. *)
Definition fits_int (z : Z) : bool := bool_decide (INT_MIN <= z <= INT_MAX).

(** The numbers of a rule that lines 63-67 convert to C [int]s all fit. *)
Definition rule_fits (r : rule) : bool :=
  fits_int (prediction r) && forallb fits_int (antecedents r).




End PredictRanges.

(** * Further notions for the training session *)

Module SessionShapes.
Import Session SessionInvariants.

Section WithDouble.

Context {double : Type}.

Implicit Types (s : @state double).

(** The module holds no session. *)
Definition idle s : Prop :=
  rules s = None /\ labels_vecs s = None /\ minor s = None.





End WithDouble.

End SessionShapes.


(** ** Further inputs for the session *)

Module SessionFactsInputs.
Import Session SessionInputs.

(** A matrix whose second row is not binary: the parser rejects it after
    the first row has been encoded. *)
Definition X_row_rejected : ndarray := mk_ndarray 2 2 [[0;1];[2;0]].

(** The pool of the scenario, as it lies in the heap of a started
    session. *)
Definition pool_record : rule_t :=
  mk_rule_t (Some 8%nat) (Some 9%nat) 1 (Some 10%nat) 2.





(** The run of [fit_wrap_begin] on the scenario. *)
Definition started : outcome bool * @state Z :=
  fit_wrap_begin (stub sc_ok) args_ok initial.

End SessionFactsInputs.

(** * Properties of the rule-list evaluator *)

Module PredictProofs.
Import Predict PredictSpec PredictInputs.

(** The example scenario of the specification. *)
Example predict_scenario :
  forall nr0, predict_wrap nr0 X4 names3 rl_feature1 = Returned [0;1;0;1].
Proof. intros nr0. reflexivity. Qed.

(** ** Conversions succeed on well-formed rule lists *)

Lemma to_c_int_in_range z :
  INT_MIN <= z <= INT_MAX -> to_c_int z = Returned z.
Proof. intros H. unfold to_c_int. by rewrite bool_decide_eq_true_2. Qed.

Lemma mapM_to_c_int (l : list Z) :
  Forall (fun z => INT_MIN <= z <= INT_MAX) l -> mapM to_c_int l = Returned l.
Proof.
  induction 1 as [|z l Hz _ IH]; [reflexivity|].
  cbn. rewrite (to_c_int_in_range z Hz). cbn. by rewrite IH.
Qed.

Lemma copy_rule_wf r : wf_rule r -> copy_rule r = Returned r.
Proof.
  intros [Hp Ha]. unfold copy_rule. rewrite (to_c_int_in_range _ Hp). cbn.
  rewrite mapM_to_c_int; [by destruct r|].
  eapply Forall_impl; [exact Ha|]. by intros z [_ ?].
Qed.

Lemma mapM_copy_rule (rs : list rule) :
  Forall wf_rule rs -> mapM copy_rule rs = Returned rs.
Proof.
  induction 1 as [|r rs Hr _ IH]; [reflexivity|].
  cbn. rewrite (copy_rule_wf r Hr). cbn. by rewrite IH.
Qed.

(** ** One literal *)

Lemma c_int_id z : INT_MIN <= z <= INT_MAX -> c_int z = z.
Proof.
  unfold c_int, INT_MIN, INT_MAX. intros H.
  rewrite Z.mod_small; lia.
Qed.

Lemma c_int_int_min_pred : c_int (c_int (- INT_MIN) - 1) = INT_MAX.
Proof. reflexivity. Qed.

Lemma read2_wf X s j :
  wf_ndarray X -> (s < shape0 X)%nat -> 0 <= j < Z.of_nat (shape1 X) ->
  exists v, feature X s j = Some v /\ read2 X s j = Returned v.
Proof.
  intros [Hlen Hrows] Hs Hj. unfold feature, read2.
  rewrite bool_decide_eq_true_2 by done.
  destruct (Z.ltb_spec j 0) as [?|_]; [lia|].
  destruct (lookup_lt_is_Some_2 (cells X) s) as [row Hrow]; [lia|].
  rewrite Hrow. cbn.
  rewrite Forall_lookup in Hrows. destruct (Hrows _ _ Hrow) as [Hl _].
  destruct (lookup_lt_is_Some_2 row (Z.to_nat j)) as [v Hv]; [lia|].
  rewrite Hv. eauto.
Qed.

(** A literal id other than 0 makes the rule fail exactly when the
    literal does not hold, also when its index is past the last feature. *)
Lemma literal_fails_spec X s lit :
  wf_ndarray X -> (s < shape0 X)%nat ->
  lit <> 0 -> INT_MIN <= lit <= INT_MAX ->
  literal_fails X (Z.of_nat (shape1 X)) s lit
  = Returned (negb (literal_holds X s lit)).
Proof.
  intros HX Hs Hnz Hr. unfold literal_fails, literal_holds.
  assert (Hnf : Z.of_nat (shape1 X) <= INT_MAX + 1 \/
                INT_MAX + 1 < Z.of_nat (shape1 X)) by lia.
  destruct (Z.ltb_spec lit 0) as [Hneg|Hpos].
  - destruct (Z.ltb_spec 0 lit) as [?|_]; [lia|].
    destruct (decide (lit = INT_MIN)) as [->|Hmin].
    + rewrite c_int_int_min_pred.
      destruct (Z.geb_spec INT_MAX (Z.of_nat (shape1 X))) as [Hge|Hlt].
      * f_equal. symmetry. apply negb_true_iff, bool_decide_eq_false_2.
        unfold feature. rewrite bool_decide_eq_false_2; [done|].
        unfold INT_MIN, INT_MAX in *. lia.
      * destruct (read2_wf X s INT_MAX HX Hs) as (v & Hf & ->);
          [unfold INT_MAX in *; lia|].
        cbn. f_equal. f_equal.
        replace (- INT_MIN - 1) with INT_MAX by reflexivity.
        rewrite Hf. destruct (Z.eqb_spec v 0) as [->|Hv].
        -- by rewrite bool_decide_eq_true_2.
        -- rewrite bool_decide_eq_false_2; [done|congruence].
    + rewrite (c_int_id (- lit)) by (unfold INT_MIN, INT_MAX in *; lia).
      rewrite (c_int_id (- lit - 1)) by (unfold INT_MIN, INT_MAX in *; lia).
      destruct (Z.geb_spec (- lit - 1) (Z.of_nat (shape1 X))) as [Hge|Hlt].
      * f_equal. symmetry. apply negb_true_iff, bool_decide_eq_false_2.
        unfold feature. rewrite bool_decide_eq_false_2; [done|lia].
      * destruct (read2_wf X s (- lit - 1) HX Hs) as (v & Hf & ->); [lia|].
        cbn. f_equal. f_equal. rewrite Hf.
        destruct (Z.eqb_spec v 0) as [->|Hv].
        -- by rewrite bool_decide_eq_true_2.
        -- rewrite bool_decide_eq_false_2; [done|congruence].
  - destruct (Z.ltb_spec 0 lit) as [_|?]; [|lia].
    rewrite (c_int_id (lit - 1)) by (unfold INT_MIN, INT_MAX in *; lia).
    destruct (Z.geb_spec (lit - 1) (Z.of_nat (shape1 X))) as [Hge|Hlt].
    + f_equal. symmetry. apply negb_true_iff, bool_decide_eq_false_2.
      unfold feature. rewrite bool_decide_eq_false_2; [done|lia].
    + destruct (read2_wf X s (lit - 1) HX Hs) as (v & Hf & ->); [lia|].
      cbn. f_equal. f_equal. rewrite Hf.
      destruct (Z.eqb_spec v 1) as [->|Hv].
      * by rewrite bool_decide_eq_true_2.
      * rewrite bool_decide_eq_false_2; [done|congruence].
Qed.

(** ** The loops *)

Lemma antecedent_loop_spec X s (ants : list Z) :
  wf_ndarray X -> (s < shape0 X)%nat -> Forall wf_literal ants ->
  antecedent_loop X (Z.of_nat (shape1 X)) s ants
  = Returned (if forallb (literal_holds X s) ants then 0 else 1).
Proof.
  intros HX Hs. induction 1 as [|lit ants [Hnz Hr] _ IH]; [reflexivity|].
  cbn [antecedent_loop forallb].
  rewrite (literal_fails_spec X s lit HX Hs Hnz Hr). cbn.
  destruct (literal_holds X s lit); [exact IH|reflexivity].
Qed.

(** The loop over the rules stops at the first rule that matches; when
    there is at least one rule and none matches, [next_rule] is 1 at its
    end; when there is no rule at all, [next_rule] is left as it was. *)
Lemma rules_loop_spec X s (rs : list rule) nr out :
  wf_ndarray X -> (s < shape0 X)%nat -> Forall wf_rule rs ->
  rules_loop X (Z.of_nat (shape1 X)) s rs nr out
  = Returned
      match List.find (rule_matches X s) rs with
      | Some r => (0, <[s := to_uint8 (prediction r)]> out)
      | None => (match rs with [] => nr | _ => 1 end, out)
      end.
Proof.
  intros HX Hs Hrs. revert nr.
  induction Hrs as [|r rs [_ Hr] Hrs IH]; intros nr; [reflexivity|].
  cbn [rules_loop List.find].
  rewrite (antecedent_loop_spec X s _ HX Hs Hr). cbn.
  fold (rule_matches X s r).
  destruct (rule_matches X s r); cbn; [reflexivity|].
  rewrite IH. destruct (List.find _ rs); [reflexivity|].
  by destruct rs.
Qed.

Lemma samples_loop_spec X (body : list rule) default nr n i (pre : list Z) :
  wf_ndarray X -> Forall wf_rule body -> body <> [] ->
  (i + n = shape0 X)%nat -> length pre = i ->
  samples_loop X (Z.of_nat (shape1 X)) body default (seq i n) nr
    (pre ++ replicate n 0)
  = Returned (pre ++ map (fun s => to_uint8
       match List.find (rule_matches X s) body with
       | Some r => prediction r
       | None => default
       end) (seq i n)).
Proof.
  intros HX Hb Hne. revert i pre nr.
  induction n as [|n IH]; intros i pre nr Hin Hpre; [reflexivity|].
  cbn [samples_loop seq map replicate].
  rewrite (rules_loop_spec X i body nr _ HX) by (done || lia).
  assert (Hins : forall v, <[i := v]> (pre ++ 0 :: replicate n 0)
                           = (pre ++ [v]) ++ replicate n 0).
  { intros v. rewrite <- Hpre.
    rewrite (insert_app_r_alt pre _ (length pre)) by lia.
    rewrite Nat.sub_diag. cbn. by rewrite <- app_assoc. }
  destruct (List.find (rule_matches X i) body) as [r|] eqn:Hfind; cbn.
  - rewrite Hins.
    rewrite (IH (S i) (pre ++ [to_uint8 (prediction r)]));
      [|lia|rewrite length_app; cbn; lia].
    by rewrite <- app_assoc.
  - destruct body as [|r0 body]; [done|]. cbn. rewrite Hins.
    rewrite (IH (S i) (pre ++ [to_uint8 default]));
      [|lia|rewrite length_app; cbn; lia].
    by rewrite <- app_assoc.
Qed.

(** ** First match wins, when the list has a rule before the default *)

(** On a rule list with at least one rule before the default rule, the
    evaluator returns, for every sample, the class of the first rule all
    of whose literals hold, and the class of the default rule when there
    is none. The value of [next_rule] on entry plays no part. *)
Theorem predict_wrap_first_match nr0 X features (body : list rule) last :
  wf_ndarray X ->
  Z.of_nat (shape1 X) = Z.of_nat (length features) - 1 ->
  body <> [] -> Forall wf_rule body ->
  INT_MIN <= prediction last <= INT_MAX ->
  predict_wrap nr0 X features (body ++ [last])
  = Returned (map (fun s => to_uint8 (classify X s body last))
                  (seq 0 (shape0 X))).
Proof.
  intros HX Hf Hne Hb Hl. unfold predict_wrap.
  rewrite Hf, Z.eqb_refl. cbn [negb].
  rewrite length_app. cbn [length].
  destruct (Z.ltb_spec (Z.of_nat (length body + 1) - 1) 0) as [?|_]; [lia|].
  replace (Z.to_nat (Z.of_nat (length body + 1) - 1)) with (length body)
    by lia.
  rewrite lookup_app_r, Nat.sub_diag by lia. cbn [lookup list_lookup].
  rewrite (to_c_int_in_range _ Hl). cbn.
  rewrite take_app_length, (mapM_copy_rule body Hb). cbn.
  rewrite <- Hf.
  apply (samples_loop_spec X body (prediction last) nr0 (shape0 X) 0 []);
    done.
Qed.

(** With a rule before the default rule, the predictions do not depend
    on what [next_rule] holds on entry. *)
Corollary predict_wrap_next_rule_irrelevant nr0 nr0' X features
    (body : list rule) last :
  wf_ndarray X ->
  Z.of_nat (shape1 X) = Z.of_nat (length features) - 1 ->
  body <> [] -> Forall wf_rule body ->
  INT_MIN <= prediction last <= INT_MAX ->
  predict_wrap nr0 X features (body ++ [last])
  = predict_wrap nr0' X features (body ++ [last]).
Proof.
  intros HX Hf Hne Hb Hl.
  by rewrite !(predict_wrap_first_match _ X features body last).
Qed.

(** ** A rule list that holds the default rule only *)

Lemma samples_loop_no_rules X nf default (ss : list nat) nr (out : list Z) :
  samples_loop X nf [] default ss nr out
  = Returned (if nr =? 1
              then foldl (fun o s => <[s := to_uint8 default]> o) out ss
              else out).
Proof.
  revert out. induction ss as [|s ss IH]; intros out; cbn.
  - by destruct (nr =? 1).
  - rewrite IH. by destruct (nr =? 1).
Qed.

Lemma foldl_insert_replicate (v : Z) i n (pre : list Z) :
  length pre = i ->
  foldl (fun o s => <[s := v]> o) (pre ++ replicate n 0) (seq i n)
  = pre ++ replicate n v.
Proof.
  revert i pre. induction n as [|n IH]; intros i pre Hpre; [reflexivity|].
  cbn [seq foldl replicate].
  rewrite <- Hpre at 1.
  rewrite (insert_app_r_alt pre _ (length pre)) by lia.
  rewrite Nat.sub_diag. cbn [insert list_insert].
  rewrite (cons_middle v pre), app_assoc.
  rewrite (IH (S i)) by (rewrite length_app; cbn; lia).
  by rewrite <- app_assoc.
Qed.

(** With the default rule alone the loop over the rules has no iteration,
    [next_rule] is never assigned, and the test of line 89 reads the value
    it had on entry: the default class is written only if that value
    happens to be 1, and the zeros of line 50 are returned otherwise. *)
Lemma predict_wrap_default_only nr0 X features (d : rule) :
  Z.of_nat (shape1 X) = Z.of_nat (length features) - 1 ->
  INT_MIN <= prediction d <= INT_MAX ->
  predict_wrap nr0 X features [d]
  = Returned (replicate (shape0 X)
                (if nr0 =? 1 then to_uint8 (prediction d) else 0)).
Proof.
  intros Hf Hd. unfold predict_wrap. rewrite Hf, Z.eqb_refl.
  change (Z.of_nat (length [d]) - 1) with 0.
  change (Z.to_nat 0) with 0%nat.
  cbn -[to_c_int samples_loop].
  rewrite (to_c_int_in_range _ Hd). cbn -[samples_loop].
  rewrite samples_loop_no_rules.
  destruct (nr0 =? 1); [|reflexivity].
  f_equal. apply (foldl_insert_replicate _ 0 _ []). reflexivity.
Qed.

(** ** Which errors the evaluator raises *)












(** ** The default rule alone, with default class 1 *)

(** C4, at the rule list [[default]] with default class 1 on the four
    samples of [X4]: the predictions are the default class only if the
    unassigned local [next_rule] happens to hold 1 on entry; for every
    other content the evaluator returns class 0 for every sample. *)
Theorem predict_wrap_default_only_X4 :
  forall nr0, predict_wrap nr0 X4 names3 rl_default1
              = Returned (if nr0 =? 1 then [1;1;1;1] else [0;0;0;0]).
Proof.
  intros nr0. unfold rl_default1.
  rewrite (predict_wrap_default_only nr0 X4 names3 (mk_rule [0] 1));
    [by destruct (nr0 =? 1)|reflexivity|done].
Qed.

(** C1, at the same input: no rule precedes the default rule, so no rule
    matches sample 0 and the class to emit is the default class 1; the
    evaluator emits 1 only if [next_rule] holds 1 on entry, and 0
    otherwise. *)
Theorem predict_wrap_no_match_not_default :
  forall nr0, exists out,
    predict_wrap nr0 X4 names3 rl_default1 = Returned out
    /\ out !! 0%nat = Some (if nr0 =? 1 then 1 else 0)
    /\ classify X4 0 [] (mk_rule [0] 1) = 1.
Proof.
  intros nr0. eexists. split; [|split].
  - apply (predict_wrap_default_only nr0 X4 names3 (mk_rule [0] 1));
      [reflexivity|done].
  - cbn. by destruct (nr0 =? 1).
  - reflexivity.
Qed.

(** C5, at the same input: two calls with the same matrix, feature list
    and rule list return different predictions when the content of
    [next_rule] on entry differs between them. *)
Theorem predict_wrap_depends_on_next_rule :
  predict_wrap 0 X4 names3 rl_default1 <> predict_wrap 1 X4 names3 rl_default1.
Proof. vm_compute. discriminate. Qed.

End PredictProofs.

(** * Properties of the training session *)

Module SessionProofs.
Import Session SessionInputs SessionInvariants.

Section WithNatives.

Context {double : Type} (N : @natives double).

Implicit Types (s : @state double) (e : exn).

Local Abbreviation M := (@Session.M double).

(** ** What an operation leaves alone *)

Lemma same_globals_refl s : same_globals s s.
Proof. by repeat split. Qed.

Lemma same_globals_trans s1 s2 s3 :
  same_globals s1 s2 -> same_globals s2 s3 -> same_globals s1 s3.
Proof. unfold same_globals. intuition congruence. Qed.

Lemma obeys_mono {A} (P Q : exn -> Prop) (m : M A) :
  (forall e, P e -> Q e) -> obeys P m -> obeys Q m.
Proof.
  intros HPQ Hm s r s' Hrun. destruct (Hm s r s' Hrun) as [Hg He].
  split; [done|]. eauto.
Qed.

Lemma quiet_obeys {A} (P : exn -> Prop) (m : M A) : quiet m -> obeys P m.
Proof. apply obeys_mono. done. Qed.

Lemma obeys_ret {A} (P : exn -> Prop) (a : A) : obeys P (mret a : M A).
Proof. intros s r s' [= <- <-]. split; [apply same_globals_refl|done]. Qed.

Lemma obeys_undefined {A} (P : exn -> Prop) : obeys P (undefined : M A).
Proof. intros s r s' [= <- <-]. split; [apply same_globals_refl|done]. Qed.

Lemma obeys_raise {A} (P : exn -> Prop) e : P e -> obeys P (raise e : M A).
Proof.
  intros HP s r s' [= <- <-]. split; [apply same_globals_refl|].
  by intros e' [= <-].
Qed.

Lemma obeys_bind {A B} (P : exn -> Prop) (m : M A) (f : A -> M B) :
  obeys P m -> (forall a, obeys P (f a)) -> obeys P (m ≫= f).
Proof.
  intros Hm Hf s r s'. unfold mbind, M_bind.
  destruct (m s) as [[a|e|] s1] eqn:Hms.
  - intros Hfa. destruct (Hm _ _ _ Hms) as [Hg1 _].
    destruct (Hf a _ _ _ Hfa) as [Hg2 He]. split; [|done].
    eapply same_globals_trans; eauto.
  - intros [= <- <-]. destruct (Hm _ _ _ Hms) as [Hg He].
    split; [done|]. intros e0 [= <-]. by apply He.
  - intros [= <- <-]. destruct (Hm _ _ _ Hms) as [Hg _]. by split.
Qed.

Lemma quiet_alloc b : quiet (alloc b : M _).
Proof. intros s r s' [= <- <-]. by repeat split. Qed.

Lemma quiet_malloc b : quiet (malloc N b).
Proof.
  intros s r s'. unfold malloc.
  destruct (malloc_fails N (next s)); intros [= <- <-]; by repeat split.
Qed.

Lemma quiet_free a : quiet (free a : M _).
Proof.
  intros s r s'. unfold free.
  destruct (heap s !! a); intros [= <- <-]; by repeat split.
Qed.

Lemma quiet_free_opt p : quiet (free_opt p : M _).
Proof. destruct p; [apply quiet_free|apply obeys_ret]. Qed.

Lemma quiet_load a : quiet (load a : M _).
Proof.
  intros s r s'. unfold load.
  destruct (heap s !! a); intros [= <- <-]; by repeat split.
Qed.

Lemma quiet_store a b : quiet (store a b : M _).
Proof.
  intros s r s'. unfold store.
  destruct (heap s !! a); intros [= <- <-]; by repeat split.
Qed.

(** Compositional proofs of [obeys]. *)
Ltac obeys_step :=
  first
    [ apply obeys_ret
    | apply obeys_undefined
    | apply quiet_obeys, quiet_alloc
    | apply quiet_obeys, quiet_malloc
    | apply quiet_obeys, quiet_free
    | apply quiet_obeys, quiet_free_opt
    | apply quiet_obeys, quiet_load
    | apply quiet_obeys, quiet_store
    | apply obeys_bind; [|intros ?]
    | progress case_match ].

Lemma quiet_load_slot vs i : quiet (load_slot vs i : M _).
Proof. unfold quiet, load_slot. repeat obeys_step. Qed.

Lemma quiet_store_slot vs i r : quiet (store_slot vs i r : M _).
Proof. unfold quiet, store_slot. repeat obeys_step. Qed.

Lemma quiet_load_int p i : quiet (load_int p i : M _).
Proof. unfold quiet, load_int. repeat obeys_step. Qed.

Lemma quiet_rule_vfree vs i : quiet (rule_vfree vs i : M _).
Proof.
  unfold quiet, rule_vfree.
  apply obeys_bind; [apply quiet_load_slot|intros r].
  destruct (truthtable r); [|apply obeys_ret].
  apply obeys_bind; [apply quiet_free|intros _]. apply quiet_store_slot.
Qed.

Lemma quiet_vfree_range vs (js : list nat) : quiet (vfree_range vs js : M _).
Proof.
  induction js as [|j js IH]; cbn; [apply obeys_ret|].
  apply obeys_bind; [apply quiet_rule_vfree|by intros _].
Qed.

Lemma quiet_free_slots vs (js : list nat) : quiet (free_slots vs js : M _).
Proof.
  induction js as [|j js IH]; cbn; [apply obeys_ret|].
  apply obeys_bind; [apply quiet_rule_vfree|intros _].
  apply obeys_bind; [apply quiet_load_slot|intros r].
  apply obeys_bind; [apply quiet_free_opt|intros _].
  apply obeys_bind; [apply quiet_free_opt|by intros _].
Qed.

Lemma quiet_free_vector vs count : quiet (_free_vector vs count : M _).
Proof.
  destruct vs as [v|]; cbn; [|apply obeys_ret].
  apply obeys_bind; [apply quiet_free_slots|intros _; apply quiet_free].
Qed.

Lemma obeys_to_vector_rows v X (idxs : list nat) ncount :
  obeys encoding_error (to_vector_rows N v X idxs ncount).
Proof.
  revert ncount. induction idxs as [|i idxs IH]; intros ncount; cbn.
  - apply obeys_ret.
  - destruct (ascii_to_vector N _ _ _) as [[[nc nones] bits]|].
    + apply obeys_bind; [apply quiet_obeys, quiet_alloc|intros t].
      apply obeys_bind; [apply quiet_obeys, quiet_store_slot|by intros _].
    + apply obeys_bind; [apply quiet_obeys, quiet_vfree_range|intros _].
      apply obeys_bind; [apply quiet_obeys, quiet_free|intros _].
      apply obeys_raise. by right.
Qed.

Lemma obeys_to_vector X ncount :
  obeys encoding_error (_to_vector N X ncount).
Proof.
  unfold _to_vector.
  apply obeys_bind; [apply quiet_obeys, quiet_malloc|intros [v|]].
  - apply obeys_bind; [apply obeys_to_vector_rows|intros nc].
    apply obeys_ret.
  - apply obeys_raise. by left.
Qed.

(** ** Running the primitive operations *)

Lemma bind_returned {A B} (m : M A) (f : A -> M B) s a s1 :
  m s = (Returned a, s1) -> (m ≫= f) s = f a s1.
Proof. intros H. unfold mbind, M_bind. by rewrite H. Qed.

Lemma bind_raised {A B} (m : M A) (f : A -> M B) s e s1 :
  m s = (Raised e, s1) -> (m ≫= f) s = (Raised e, s1).
Proof. intros H. unfold mbind, M_bind. by rewrite H. Qed.

Lemma bind_undefined {A B} (m : M A) (f : A -> M B) s s1 :
  m s = (Undefined, s1) -> (m ≫= f) s = (Undefined, s1).
Proof. intros H. unfold mbind, M_bind. by rewrite H. Qed.

Lemma load_live s a b :
  heap s !! a = Some b -> load a s = (Returned b, s).
Proof. intros H. unfold load. by rewrite H. Qed.

Lemma free_live s a b :
  heap s !! a = Some b ->
  free a s = (Returned (), set_heap (delete a (heap s)) s).
Proof. intros H. unfold free. by rewrite H. Qed.

Lemma store_live s a b b' :
  heap s !! a = Some b ->
  store a b' s = (Returned (), set_heap (<[a := b']> (heap s)) s).
Proof. intros H. unfold store. by rewrite H. Qed.

Lemma load_slot_written s v i (slots : list (option rule_t)) r :
  heap s !! v = Some (BRules slots) -> slots !! i = Some (Some r) ->
  load_slot v i s = (Returned r, s).
Proof.
  intros Hv Hi. unfold load_slot.
  rewrite (bind_returned _ _ _ _ _ (load_live _ _ _ Hv)). by rewrite Hi.
Qed.

Lemma store_slot_in_range s v i (slots : list (option rule_t)) r :
  heap s !! v = Some (BRules slots) -> (i < length slots)%nat ->
  store_slot v i r s
  = (Returned (),
     set_heap (<[v := BRules (<[i := Some r]> slots)]> (heap s)) s).
Proof.
  intros Hv Hi. unfold store_slot.
  rewrite (bind_returned _ _ _ _ _ (load_live _ _ _ Hv)).
  rewrite bool_decide_eq_true_2 by done. by eapply store_live.
Qed.

Lemma rule_vfree_live s v i (slots : list (option rule_t)) r t b :
  heap s !! v = Some (BRules slots) -> slots !! i = Some (Some r) ->
  truthtable r = Some t -> t <> v -> heap s !! t = Some b ->
  rule_vfree v i s
  = (Returned (),
     set_heap (<[v := BRules (<[i := Some (cleared r)]> slots)]>
                 (delete t (heap s))) s).
Proof.
  intros Hv Hi Ht Hne Hlive. unfold rule_vfree.
  rewrite (bind_returned _ _ _ _ _ (load_slot_written _ _ _ _ _ Hv Hi)).
  rewrite Ht.
  rewrite (bind_returned _ _ _ _ _ (free_live _ _ _ Hlive)).
  erewrite store_slot_in_range; [done| |by eapply lookup_lt_Some].
  cbn. by rewrite lookup_delete_ne.
Qed.

(** ** Encoding a matrix and releasing it again *)

Lemma arr_inv_vfree s0 v d0 lo hi s :
  arr_inv s0 v d0 lo hi s -> (lo < hi)%nat -> (hi <= d0)%nat ->
  exists s', rule_vfree v lo s = (Returned (), s')
             /\ arr_inv s0 v d0 (S lo) hi s' /\ next s' = next s.
Proof.
  intros [Hg Hb Ha (slots & Hv & Hlen & Hmid & Hlow) Hl Hd] Hlo Hhi.
  destruct (Hmid lo) as [n Hslot]; [lia|].
  destruct (Hl lo) as [b Hb']; [lia|].
  eexists. split; [|split].
  - eapply rule_vfree_live; [exact Hv|exact Hslot|reflexivity|lia|exact Hb'].
  - constructor; cbn.
    + done.
    + intros a Hlt. rewrite lookup_insert_ne, lookup_delete_ne by lia. eauto.
    + intros a Hge. rewrite lookup_insert_ne, lookup_delete_ne by lia. eauto.
    + eexists. split; [apply lookup_insert_eq|]. split; [by rewrite length_insert|].
      split.
      * intros j Hj. destruct (Hmid j) as [n' Hn']; [lia|]. exists n'.
        by rewrite list_lookup_insert_ne by lia.
      * intros j Hj. destruct (decide (j = lo)) as [->|Hne].
        -- exists n. rewrite list_lookup_insert_eq by lia. done.
        -- destruct (Hlow j) as [n' Hn']; [lia|]. exists n'.
           by rewrite list_lookup_insert_ne by lia.
    + intros j Hj. rewrite lookup_insert_ne, lookup_delete_ne by lia.
      apply Hl. lia.
    + intros j Hj. rewrite lookup_insert_ne by lia.
      destruct (decide (j = lo)) as [->|Hne].
      * apply lookup_delete_eq.
      * rewrite lookup_delete_ne by lia. apply Hd. lia.
  - reflexivity.
Qed.

Lemma arr_inv_vfree_range s0 v d0 n lo hi s :
  arr_inv s0 v d0 lo hi s -> (lo + n = hi)%nat -> (hi <= d0)%nat ->
  exists s', vfree_range v (seq lo n) s = (Returned (), s')
             /\ arr_inv s0 v d0 hi hi s' /\ next s' = next s.
Proof.
  revert lo s. induction n as [|n IH]; intros lo s Hinv Hn Hhi; cbn.
  - exists s. replace hi with lo by lia. replace hi with lo in Hinv by lia.
    done.
  - destruct (arr_inv_vfree _ _ _ _ _ _ Hinv) as (s1 & Hrun & Hinv1 & Hn1);
      [lia|done|].
    rewrite (bind_returned _ _ _ _ _ Hrun).
    destruct (IH (S lo) s1 Hinv1) as (s' & Hrun' & Hinv' & Hn'); [lia|done|].
    exists s'. rewrite Hn', Hn1. done.
Qed.

Lemma arr_inv_free_slots s0 v d0 n lo hi s :
  arr_inv s0 v d0 lo hi s -> (lo + n = hi)%nat -> (hi <= d0)%nat ->
  exists s', free_slots v (seq lo n) s = (Returned (), s')
             /\ arr_inv s0 v d0 hi hi s' /\ next s' = next s.
Proof.
  revert lo s. induction n as [|n IH]; intros lo s Hinv Hn Hhi; cbn.
  - exists s. replace hi with lo by lia. replace hi with lo in Hinv by lia.
    done.
  - destruct (arr_inv_vfree _ _ _ _ _ _ Hinv) as (s1 & Hrun & Hinv1 & Hn1);
      [lia|done|].
    rewrite (bind_returned _ _ _ _ _ Hrun).
    destruct Hinv1 as [? ? ? (slots & Hv & Hlen & Hmid & Hlow) ? ?] eqn:Hi1.
    destruct (Hlow lo) as [n0 Hslot]; [lia|].
    rewrite (bind_returned _ _ _ _ _ (load_slot_written _ _ _ _ _ Hv Hslot)).
    cbn.
    destruct (IH (S lo) s1) as (s' & Hrun' & Hinv' & Hn'); [done|lia|done|].
    exists s'. rewrite Hn', Hn1. done.
Qed.

Lemma arr_inv_free_array s0 v d0 hi s :
  heap_fresh s0 -> next s0 = v ->
  arr_inv s0 v d0 hi hi s ->
  exists s', free v s = (Returned (), s') /\ released s0 s'.
Proof.
  intros Hfresh Hv0 [Hg Hb Ha (slots & Hv & _) _ Hd].
  eexists. split; [by eapply free_live|]. split; [done|]. cbn.
  apply map_eq. intros a.
  destruct (decide (a = v)) as [->|Hne].
  - rewrite lookup_delete_eq. symmetry. apply Hfresh. lia.
  - rewrite lookup_delete_ne by done.
    destruct (decide (a < v)%nat) as [Hlt|Hge]; [by apply Hb|].
    rewrite (Hfresh a) by lia.
    destruct (decide (a < v + 1 + hi)%nat) as [Hin|Hout].
    + replace a with (v + 1 + (a - v - 1))%nat by lia. apply Hd. lia.
    + apply Ha. lia.
Qed.

(** Releasing all the records of an encoded matrix gives back the heap
    as it was before the matrix was encoded. *)
Lemma free_vector_encoded s0 v d0 s :
  heap_fresh s0 -> next s0 = v ->
  arr_inv s0 v d0 0 d0 s ->
  exists s', _free_vector (Some v) (Z.of_nat d0) s = (Returned (), s')
             /\ released s0 s'.
Proof.
  intros Hfresh Hv0 Hinv. cbn. rewrite Nat2Z.id.
  destruct (arr_inv_free_slots _ _ _ d0 _ _ _ Hinv) as (s1 & Hrun & Hinv1 & _);
    [lia|done|].
  rewrite (bind_returned _ _ _ _ _ Hrun).
  by eapply arr_inv_free_array.
Qed.

Lemma arr_inv_row s0 v d0 i s bits nones :
  arr_inv s0 v d0 0 i s -> next s = (v + 1 + i)%nat -> (i < d0)%nat ->
  exists s',
    store_slot v i (mk_rule_t (Some (next s)) None 1 None nones)
      (set_next (S (next s)) (set_heap (<[next s := BVector bits]> (heap s)) s))
    = (Returned (), s')
    /\ arr_inv s0 v d0 0 (S i) s' /\ next s' = (v + 1 + S i)%nat.
Proof.
  intros [Hg Hb Ha (slots & Hv & Hlen & Hmid & Hlow) Hl Hd] Hn Hi.
  eexists. split; [|split].
  - eapply store_slot_in_range; [|by rewrite Hlen].
    cbn. rewrite lookup_insert_ne by lia. exact Hv.
  - rewrite Hn. constructor; cbn.
    + done.
    + intros a Hlt. rewrite !lookup_insert_ne by lia. eauto.
    + intros a Hge. rewrite !lookup_insert_ne by lia. apply Ha. lia.
    + eexists. split; [apply lookup_insert_eq|].
      split; [by rewrite length_insert|]. split.
      * intros j Hj. destruct (decide (j = i)) as [->|Hne].
        -- exists nones. by rewrite list_lookup_insert_eq by lia.
        -- destruct (Hmid j) as [n' Hn']; [lia|]. exists n'.
           by rewrite list_lookup_insert_ne by lia.
      * intros j Hj. lia.
    + intros j Hj. rewrite lookup_insert_ne by lia.
      destruct (decide (j = i)) as [->|Hne].
      * rewrite lookup_insert_eq. by eexists.
      * rewrite lookup_insert_ne by lia. apply Hl. lia.
    + intros j Hj. lia.
  - cbn. lia.
Qed.

(** Every way [to_vector_rows] can end: all the rows encoded, or the
    records released and [ValueError] raised. *)
Lemma to_vector_rows_inv X s0 v d0 n i nc s r s' :
  heap_fresh s0 -> next s0 = v ->
  arr_inv s0 v d0 0 i s -> next s = (v + 1 + i)%nat -> (i + n = d0)%nat ->
  to_vector_rows N v X (seq i n) nc s = (r, s') ->
  match r with
  | Returned _ => arr_inv s0 v d0 0 d0 s' /\ next s' = (v + 1 + d0)%nat
  | Raised e => e = ValueError CouldNotLoadSamples /\ released s0 s'
  | Undefined => False
  end.
Proof.
  intros Hfresh Hv0. revert i nc s.
  induction n as [|n IH]; intros i nc s Hinv Hn Hin; cbn.
  - intros [= <- <-]. rewrite Nat.add_0_r in Hin. by subst d0.
  - destruct (ascii_to_vector N _ _ _) as [[[nc' nones] bits]|].
    + destruct (arr_inv_row _ _ _ _ _ bits nones Hinv Hn)
        as (s1 & Hrun & Hinv1 & Hn1); [lia|].
      rewrite (bind_returned (alloc (BVector bits)) _ s (next s) _ eq_refl).
      rewrite (bind_returned _ _ _ _ _ Hrun).
      apply (IH (S i)); [done|done|lia].
    + destruct (arr_inv_vfree_range _ _ _ i 0 i _ Hinv)
        as (s1 & Hrun & Hinv1 & _); [lia|lia|].
      rewrite (bind_returned _ _ _ _ _ Hrun).
      destruct (arr_inv_free_array _ _ _ _ _ Hfresh Hv0 Hinv1)
        as (s2 & Hrun2 & Hrel).
      rewrite (bind_returned _ _ _ _ _ Hrun2).
      intros [= <- <-]. done.
Qed.

(** Every way [_to_vector] can end: the matrix encoded in fresh blocks;
    or an error raised with the heap as it was. *)
Lemma to_vector_inv X nc s0 r s' :
  heap_fresh s0 ->
  _to_vector N X nc s0 = (r, s') ->
  match r with
  | Returned (v, _) =>
      v = next s0 /\ arr_inv s0 v (shape0 X) 0 (shape0 X) s'
      /\ next s' = (v + 1 + shape0 X)%nat
  | Raised e => encoding_error e /\ released s0 s'
  | Undefined => False
  end.
Proof.
  intros Hfresh. unfold _to_vector, mbind at 1, M_bind at 1, malloc.
  destruct (malloc_fails N (next s0)).
  - intros [= <- <-]. split; [by left|]. by split.
  - set (s1 := set_next _ _).
    assert (Hinv : arr_inv s0 (next s0) (shape0 X) 0 0 s1).
    { constructor; cbn.
      - by repeat split.
      - intros a Hlt. by rewrite lookup_insert_ne by lia.
      - intros a Hge. rewrite lookup_insert_ne by lia. apply Hfresh. lia.
      - eexists. split; [apply lookup_insert_eq|].
        split; [apply length_replicate|]. split; intros j Hj; lia.
      - intros j Hj. lia.
      - intros j Hj. lia. }
    unfold mbind, M_bind.
    destruct (to_vector_rows N (next s0) X (seq 0 (shape0 X)) nc s1)
      as [[nc'|e|] s2] eqn:Hrows;
      eapply (to_vector_rows_inv X s0 (next s0) (shape0 X) (shape0 X) 0)
        in Hrows; [|done|done|exact Hinv|cbn; lia|lia| |done|done|exact Hinv|cbn; lia|lia| |done|done|exact Hinv|cbn; lia|lia];
      cbn in Hrows.
    + intros [= <- <-]. by destruct Hrows.
    + intros [= <- <-]. destruct Hrows as [-> Hrel]. split; [by right|done].
    + done.
Qed.

(** ** Releasing an array that owns its buffers *)

Lemma set_heap_same s : set_heap (heap s) s = s.
Proof. by destruct s. Qed.

Lemma free_opt_live s p :
  (forall a, p = Some a -> is_Some (heap s !! a)) ->
  free_opt p s
  = (Returned (),
     set_heap (match p with Some a => delete a (heap s) | None => heap s end)
       s).
Proof.
  destruct p as [a|]; cbn; intros H.
  - destruct (H a eq_refl) as [b Hb]. by eapply free_live.
  - by rewrite set_heap_same.
Qed.

(** The disequalities that [NoDup] gives, as hypotheses. *)
Ltac nodup_facts H :=
  repeat (apply NoDup_cons in H as [? H]);
  repeat match goal with
         | Hn : _ ∉ _ :: _ |- _ => apply not_elem_of_cons in Hn as [? Hn]
         end.

(** Lookups in a heap after inserts and deletes at other addresses. *)
Ltac heap_lookup :=
  repeat first
    [ rewrite lookup_delete_eq
    | rewrite lookup_insert_eq
    | rewrite lookup_delete_ne by congruence
    | rewrite lookup_insert_ne by congruence ].

(** One iteration of the loop of lines 133-139 on a record whose buffers
    are live and distinct: they are freed, and nothing else changes but
    the cleared field of the record. *)
Lemma free_record s v i (slots : list (option rule_t)) r :
  heap s !! v = Some (BRules slots) -> slots !! i = Some (Some r) ->
  NoDup (v :: pointers_of r) ->
  (forall a, a ∈ pointers_of r -> is_Some (heap s !! a)) ->
  exists s1,
    (forall K : M unit,
       (rule_vfree v i;;
        r' ← load_slot v i;
        free_opt (ids r');;
        free_opt (features r');;
        K) s = K s1)
    /\ same_globals s s1 /\ next s1 = next s
    /\ heap s1 !! v = Some (BRules (<[i := Some (cleared r)]> slots))
    /\ (forall a, a ∈ pointers_of r -> heap s1 !! a = None)
    /\ (forall a, a <> v -> a ∉ pointers_of r -> heap s1 !! a = heap s !! a).
Proof.
  intros Hv Hi Hnd Hlive.
  assert (Hlt : (i < length slots)%nat) by by eapply lookup_lt_Some.
  assert (Hid : <[i := Some r]> slots = slots) by by apply list_insert_id.
  destruct r as [t f c a n]. unfold pointers_of, cleared in *. cbn in *.
  set (r0 := mk_rule_t None f c a n).
  set (h1 := match t with
             | Some t' => <[v := BRules (<[i := Some r0]> slots)]>
                            (delete t' (heap s))
             | None => heap s
             end).
  set (h2 := match a with Some a' => delete a' h1 | None => h1 end).
  set (h3 := match f with Some f' => delete f' h2 | None => h2 end).
  assert (Hfacts :
    h1 !! v = Some (BRules (<[i := Some r0]> slots))
    /\ h3 !! v = Some (BRules (<[i := Some r0]> slots))
    /\ rule_vfree v i s = (Returned (), set_heap h1 s)
    /\ (forall a', a = Some a' -> is_Some (h1 !! a'))
    /\ (forall f', f = Some f' -> is_Some (h2 !! f'))
    /\ (forall x, x ∈ omap id [t; a; f] -> h3 !! x = None)
    /\ (forall x, x <> v -> x ∉ omap id [t; a; f] -> h3 !! x = heap s !! x)).
  { subst h3 h2 h1 r0.
    destruct t as [t'|], a as [a'|], f as [f'|]; cbn in *;
      nodup_facts Hnd;
      repeat match goal with
             | |- _ /\ _ => split
             end;
      try (by heap_lookup);
      try (by heap_lookup; rewrite Hv, Hid);
      try (intros ? [= <-]; heap_lookup; apply Hlive;
           rewrite !elem_of_cons; by auto);
      try (intros x Hx; rewrite ?elem_of_cons, ?elem_of_nil in Hx;
           intuition subst; by heap_lookup);
      try (intros x Hxv Hx; rewrite ?not_elem_of_cons in Hx;
           destruct_and?; by heap_lookup);
      try (destruct (Hlive t') as [b Hb];
           [rewrite !elem_of_cons; by auto|];
           eapply (rule_vfree_live s v i slots
                     (mk_rule_t (Some t') _ c _ n));
           [done|done|done|congruence|done]);
      try (unfold rule_vfree;
           rewrite (bind_returned _ _ _ _ _
                      (load_slot_written _ _ _ _ _ Hv Hi));
           cbn; by rewrite set_heap_same). }
  destruct Hfacts as (Hv1 & Hv3 & Hrun1 & Ha & Hf & Hdead & Hsame).
  assert (Hrun2 : load_slot v i (set_heap h1 s)
                  = (Returned r0, set_heap h1 s)).
  { eapply load_slot_written; [exact Hv1|].
    by apply list_lookup_insert_eq. }
  assert (Hrun3 : free_opt a (set_heap h1 s)
                  = (Returned (), set_heap h2 (set_heap h1 s))).
  { by apply free_opt_live. }
  assert (Hrun4 : free_opt f (set_heap h2 (set_heap h1 s))
                  = (Returned (), set_heap h3 (set_heap h2 (set_heap h1 s)))).
  { by apply free_opt_live. }
  exists (set_heap h3 (set_heap h2 (set_heap h1 s))).
  split; [|split; [by repeat split|split; [done|]]].
  { intros K. rewrite (bind_returned _ _ _ _ _ Hrun1).
    rewrite (bind_returned _ _ _ _ _ Hrun2). cbn [ids features r0].
    rewrite (bind_returned _ _ _ _ _ Hrun3).
    by rewrite (bind_returned _ _ _ _ _ Hrun4). }
  cbn [heap set_heap]. by repeat split.
Qed.

(** The loop of lines 133-139 over the records of an array whose first
    [length pre] slots are behind it. *)
Lemma free_slots_owned (pre : list (option rule_t)) recs s v :
  heap s !! v = Some (BRules (pre ++ (Some <$> recs))) ->
  NoDup (v :: all_pointers recs) ->
  (forall a, a ∈ all_pointers recs -> is_Some (heap s !! a)) ->
  exists s' slots',
    free_slots v (seq (length pre) (length recs)) s = (Returned (), s')
    /\ same_globals s s' /\ next s' = next s
    /\ heap s' !! v = Some (BRules slots')
    /\ (forall a, a ∈ all_pointers recs -> heap s' !! a = None)
    /\ (forall a, a <> v -> a ∉ all_pointers recs ->
                  heap s' !! a = heap s !! a).
Proof.
  revert pre s. induction recs as [|r recs IH]; intros pre s Hv Hnd Hlive.
  - exists s, (pre ++ []). cbn. repeat split; try done.
    intros a Ha. by apply elem_of_nil in Ha.
  - unfold all_pointers in *. cbn [mbind list_bind] in *.
    apply NoDup_cons in Hnd as [Hvn Hnd].
    apply not_elem_of_app in Hvn as [Hvr Hvrest].
    apply NoDup_app in Hnd as (Hndr & Hdisj & Hndrest).
    destruct (free_record s v (length pre)
                (pre ++ (Some <$> r :: recs)) r)
      as (s1 & Hrun & Hg1 & Hn1 & Hv1 & Hdead1 & Hsame1).
    { done. }
    { by rewrite fmap_cons, list_lookup_middle. }
    { by apply NoDup_cons. }
    { intros a Ha. apply Hlive, elem_of_app. by left. }
    destruct (IH (pre ++ [Some (cleared r)]) s1)
      as (s' & slots' & Hrun' & Hg' & Hn' & Hv' & Hdead' & Hsame').
    { rewrite Hv1. do 2 f_equal. rewrite fmap_cons.
      rewrite insert_app_r_alt, Nat.sub_diag by lia. cbn.
      by rewrite <- app_assoc. }
    { by apply NoDup_cons. }
    { intros a Ha. rewrite Hsame1.
      - apply Hlive, elem_of_app. by right.
      - intros ->. done.
      - intros Hin. by apply (Hdisj a). }
    exists s', slots'. cbn [length seq free_slots].
    rewrite Hrun. rewrite length_app, Nat.add_1_r in Hrun'.
    repeat split.
    + exact Hrun'.
    + destruct Hg1 as (?&?&?&?&?), Hg' as (?&?&?&?&?). congruence.
    + destruct Hg1 as (?&?&?&?&?), Hg' as (?&?&?&?&?). congruence.
    + destruct Hg1 as (?&?&?&?&?), Hg' as (?&?&?&?&?). congruence.
    + destruct Hg1 as (?&?&?&?&?), Hg' as (?&?&?&?&?). congruence.
    + destruct Hg1 as (?&?&?&?&?), Hg' as (?&?&?&?&?). congruence.
    + congruence.
    + done.
    + intros a Ha. apply elem_of_app in Ha.
      destruct (decide (a ∈ recs ≫= pointers_of)) as [Hin|Hnin];
        [by apply Hdead'|].
      destruct Ha as [Ha|Ha]; [|done].
      rewrite Hsame'; [by apply Hdead1| |done]. by intros ->.
    + intros a Hav Ha. apply not_elem_of_app in Ha as [Har Harest].
      rewrite Hsame' by done. by apply Hsame1.
Qed.

(** [_free_vector] on an array that owns its buffers frees the array and
    the buffers, and nothing else. *)
Lemma free_vector_owned s v recs :
  owned (heap s) v recs ->
  exists s',
    _free_vector (Some v) (Z.of_nat (length recs)) s = (Returned (), s')
    /\ same_globals s s' /\ next s' = next s
    /\ (forall a, a ∈ v :: all_pointers recs -> heap s' !! a = None)
    /\ (forall a, a ∉ v :: all_pointers recs -> heap s' !! a = heap s !! a).
Proof.
  intros [Hv Hnd Hlive]. unfold _free_vector. rewrite Nat2Z.id.
  destruct (free_slots_owned [] recs s v Hv Hnd Hlive)
    as (s1 & slots' & Hrun & Hg & Hn & Hv1 & Hdead & Hsame).
  cbn [length] in Hrun. rewrite (bind_returned _ _ _ _ _ Hrun).
  eexists. split; [by eapply free_live|]. cbn.
  split; [done|]. split; [done|]. split.
  - intros a Ha. apply elem_of_cons in Ha as [->|Ha].
    + apply lookup_delete_eq.
    + apply NoDup_cons in Hnd as [Hvn _].
      rewrite lookup_delete_ne by (intros <-; done). by apply Hdead.
  - intros a Ha. apply not_elem_of_cons in Ha as [Hav Ha].
    rewrite lookup_delete_ne by done. by apply Hsame.
Qed.

Lemma owned_frame (h h' : gmap nat block) v recs :
  owned h v recs ->
  (forall a, a ∈ v :: all_pointers recs -> h' !! a = h !! a) ->
  owned h' v recs.
Proof.
  intros [Hv Hnd Hlive] Hsame. constructor.
  - rewrite Hsame; [done|]. by left.
  - done.
  - intros a Ha. rewrite Hsame; [by apply Hlive|]. by right.
Qed.

(** ** What an operation does to the history of native calls *)

Lemma obeys_keeps_calls {A} (P Q : exn -> Prop) (m : M A) :
  (forall e, P e -> Q e) -> obeys P m -> keeps_calls Q m.
Proof.
  intros HPQ Hm s r s' Hrun.
  destruct (Hm s r s' Hrun) as [(_ & _ & _ & _ & Hc) He]. split; eauto.
Qed.

Lemma quiet_keeps_calls {A} (P : exn -> Prop) (m : M A) :
  quiet m -> keeps_calls P m.
Proof. apply obeys_keeps_calls. done. Qed.

Lemma keeps_calls_ret {A} (P : exn -> Prop) (a : A) :
  keeps_calls P (mret a : M A).
Proof. by intros s r s' [= <- <-]. Qed.

Lemma keeps_calls_raise {A} (P : exn -> Prop) e :
  P e -> keeps_calls P (raise e : M A).
Proof. intros HP s r s' [= <- <-]. split; [done|]. by intros e' [= <-]. Qed.

Lemma keeps_calls_bind {A B} (P : exn -> Prop) (m : M A) (f : A -> M B) :
  keeps_calls P m -> (forall a, keeps_calls P (f a)) ->
  keeps_calls P (m ≫= f).
Proof.
  intros Hm Hf s r s'. unfold mbind, M_bind.
  destruct (m s) as [[a|e|] s1] eqn:Hms.
  - intros Hfa. destruct (Hm _ _ _ Hms) as [Hc1 _].
    destruct (Hf a _ _ _ Hfa) as [Hc2 He]. split; [congruence|done].
  - intros [= <- <-]. destruct (Hm _ _ _ Hms) as [Hc He].
    split; [done|]. intros e0 [= <-]. by apply He.
  - intros [= <- <-]. destruct (Hm _ _ _ Hms) as [Hc _]. by split.
Qed.

Lemma keeps_calls_try {A} (P : exn -> Prop) (m : M A) (h : M unit) :
  keeps_calls P m -> keeps_calls P h ->
  keeps_calls P (try_except_reraise m h).
Proof.
  intros Hm Hh s r s'. unfold try_except_reraise.
  destruct (m s) as [[a|e|] s1] eqn:Hms.
  - intros [= <- <-]. by apply (Hm _ _ _ Hms).
  - destruct (Hm _ _ _ Hms) as [Hc1 He1].
    destruct (h s1) as [[[]|e'|] s2] eqn:Hhs;
      destruct (Hh _ _ _ Hhs) as [Hc2 He2];
      intros [= <- <-]; (split; [congruence|]); intros e0 [= <-]; eauto.
  - intros [= <- <-]. by apply (Hm _ _ _ Hms).
Qed.

Lemma keeps_calls_setter {A} (P : exn -> Prop) (m : M A) :
  (forall s, exists a s', m s = (Returned a, s') /\ calls s' = calls s) ->
  keeps_calls P m.
Proof.
  intros H s r s' Hrun. destruct (H s) as (a & s1 & Hm & Hc).
  rewrite Hm in Hrun. injection Hrun as <- <-. by split.
Qed.

Ltac keeps_step :=
  first
    [ apply keeps_calls_ret
    | apply quiet_keeps_calls, quiet_free_vector
    | apply quiet_keeps_calls, quiet_malloc
    | apply quiet_keeps_calls, quiet_free
    | apply quiet_keeps_calls, quiet_free_opt
    | apply quiet_keeps_calls, quiet_load_slot
    | apply quiet_keeps_calls, quiet_store_slot
    | apply quiet_keeps_calls, quiet_store
    | apply quiet_keeps_calls, quiet_load
    | apply keeps_calls_setter; intros ?; by do 2 eexists
    | apply keeps_calls_bind; [|intros ?]
    | progress case_match ].

Lemma obeys_encode_ascii text :
  obeys (fun e => e = UnicodeEncodeError) (encode_ascii text : M _).
Proof.
  unfold encode_ascii. destruct (is_ascii text);
    [apply obeys_ret|by apply obeys_raise].
Qed.

Lemma quiet_store_str p i q : quiet (store_str p i q : M _).
Proof. unfold quiet, store_str. repeat obeys_step. Qed.

Lemma obeys_dup_features fv (names : list string) (idxs : list nat) :
  obeys (fun e => e = UnicodeEncodeError \/ e = IndexError)
        (dup_features N fv names idxs).
Proof.
  induction idxs as [|i idxs IH]; cbn; [apply obeys_ret|].
  destruct (names !! i) as [name|]; [|apply obeys_raise; by right].
  apply obeys_bind;
    [eapply obeys_mono, obeys_encode_ascii; by left|intros bytestr].
  apply obeys_bind; [apply quiet_obeys, quiet_malloc|intros q].
  apply obeys_bind; [apply quiet_obeys, quiet_store_str|by intros _].
Qed.

Lemma quiet_free_features fv (idxs : list nat) :
  quiet (free_features fv idxs : M _).
Proof.
  induction idxs as [|i idxs IH]; cbn; [apply obeys_ret|].
  apply obeys_bind; [apply quiet_load|intros b].
  destruct b; try apply obeys_undefined.
  destruct (l !! i); [|apply obeys_undefined].
  apply obeys_bind; [apply quiet_free_opt|by intros _].
Qed.

Lemma quiet_set_features vs i q : quiet (set_features vs i q : M _).
Proof.
  destruct vs as [v|]; cbn; [|apply obeys_undefined].
  apply obeys_bind; [apply quiet_load_slot|intros r; apply quiet_store_slot].
Qed.

Lemma quiet_strcpy dst text : quiet (strcpy dst text : M _).
Proof. destruct dst; [apply quiet_store|apply obeys_undefined]. Qed.

Lemma keeps_calls_discard_stale_pool :
  keeps_calls (fun _ => False) (discard_stale_pool : M _).
Proof. unfold discard_stale_pool. repeat keeps_step. Qed.

(** ** The native calls *)

Lemma installs_ret {A} (a : A) : installs (mret a : M A).
Proof. intros s. exists a, s. split; [done|apply same_globals_refl]. Qed.

Lemma installs_bind {A B} (m : M A) (f : A -> M B) :
  installs m -> (forall a, installs (f a)) -> installs (m ≫= f).
Proof.
  intros Hm Hf s. destruct (Hm s) as (a & s1 & Hrun & Hg).
  destruct (Hf a s1) as (b & s2 & Hrun2 & Hg2).
  exists b, s2. rewrite (bind_returned _ _ _ _ _ Hrun).
  split; [done|]. eapply same_globals_trans; eauto.
Qed.

Lemma installs_alloc b : installs (alloc b : M _).
Proof. intros s. do 2 eexists. split; [reflexivity|by repeat split]. Qed.

Lemma installs_install_rule d : installs (install_rule d : M _).
Proof.
  unfold install_rule.
  repeat first
    [ apply installs_ret | apply installs_alloc
    | apply installs_bind; [|intros ?] | progress case_match ].
Qed.

Lemma installs_mapM {A B} (f : A -> M B) (l : list A) :
  (forall a, installs (f a)) -> installs (mapM f l).
Proof.
  intros Hf. induction l as [|a l IH]; cbn; [apply installs_ret|].
  apply installs_bind; [apply Hf|intros b].
  apply installs_bind; [apply IH|intros k]. apply installs_ret.
Qed.

Lemma installs_install_int_array l : installs (install_int_array l : M _).
Proof.
  destruct l; cbn; [|apply installs_ret].
  apply installs_bind; [apply installs_alloc|intros a; apply installs_ret].
Qed.

(** [mine_rules] always returns; the call is recorded. *)
Lemma call_mine_rules_run a s :
  exists p s',
    call_mine_rules N a s = (Returned (mine_rules N s a).1, s')
    /\ calls s' = CallMine a (mine_rules N s a).1 :: calls s
    /\ labels_vecs s' = labels_vecs s /\ minor s' = minor s
    /\ nrules s' = nrules s
    /\ rules s' = match (mine_rules N s a).2 with
                  | Untouched => rules s
                  | SetNull => None
                  | SetPool _ => Some p
                  end.
Proof.
  unfold call_mine_rules. destruct (mine_rules N s a) as [r [| |pool]]; cbn.
  - exists 0%nat. eexists. by repeat split.
  - exists 0%nat. eexists. by repeat split.
  - set (s0 := log_call _ s).
    destruct (installs_mapM install_rule pool installs_install_rule s0)
      as (rs & s1 & Hrun & (Hg1 & Hg2 & Hg3 & Hg4 & Hg5)).
    rewrite (bind_returned _ _ _ _ _ Hrun). cbn.
    exists (next s1). eexists. split; [reflexivity|]. cbn.
    rewrite Hg2, Hg3, Hg4, Hg5. by repeat split.
Qed.

Lemma call_run_corels_begin_run a s :
  call_run_corels_begin N a s
  = (Returned (run_corels_begin N s a),
     log_call (CallBegin a (run_corels_begin N s a)) s).
Proof. reflexivity. Qed.

(** [minority] either returns its code or, when it writes through a
    pointer it cannot use, has no defined behaviour; the call is
    recorded. *)
Lemma call_minority_run a s r s' :
  call_minority N a s = (r, s') ->
  (r = Returned (minority N s a).1 \/ r = Undefined)
  /\ calls s' = CallMinority a (minority N s a).1 :: calls s
  /\ rules s' = rules s /\ labels_vecs s' = labels_vecs s
  /\ minor s' = minor s /\ nrules s' = nrules s.
Proof.
  unfold call_minority. destruct (minority N s a) as [mr [d|]]; cbn.
  - destruct (mi_minority_out a) as [m|].
    + set (s0 := log_call _ s).
      destruct (installs_install_rule d s0)
        as (rt & s1 & Hrun & (Hg1 & Hg2 & Hg3 & Hg4 & Hg5)).
      rewrite (bind_returned _ _ _ _ _ Hrun).
      destruct (store_slot m 0 rt s1) as [[[]|e|] s2] eqn:Hst;
        destruct (quiet_store_slot _ _ _ _ _ _ Hst)
          as [(Hh1 & Hh2 & Hh3 & Hh4 & Hh5) He].
      * rewrite (bind_returned _ _ _ _ _ Hst). intros [= <- <-].
        split; [by left|]. rewrite Hh1, Hh2, Hh3, Hh4, Hh5.
        rewrite Hg1, Hg2, Hg3, Hg4, Hg5. by repeat split.
      * by destruct (He e).
      * rewrite (bind_undefined _ _ _ _ Hst). intros [= <- <-].
        split; [by right|]. rewrite Hh1, Hh2, Hh3, Hh4, Hh5.
        rewrite Hg1, Hg2, Hg3, Hg4, Hg5. by repeat split.
    + intros [= <- <-]. split; [by right|]. by repeat split.
  - intros [= <- <-]. split; [by left|]. by repeat split.
Qed.

(** ** Taking a run apart *)

Lemma bind_inv {A B} (m : M A) (f : A -> M B) s r s' :
  (m ≫= f) s = (r, s') ->
  (exists a s1, m s = (Returned a, s1) /\ f a s1 = (r, s'))
  \/ (exists e, m s = (Raised e, s') /\ r = Raised e)
  \/ (m s = (Undefined, s') /\ r = Undefined).
Proof.
  unfold mbind, M_bind. destruct (m s) as [[a|e|] s1].
  - intros H. left. eauto.
  - intros [= <- <-]. right. left. eauto.
  - intros [= <- <-]. right. right. eauto.
Qed.

Lemma bind_returned_inv {A B} (m : M A) (f : A -> M B) s b s' :
  (m ≫= f) s = (Returned b, s') ->
  exists a s1, m s = (Returned a, s1) /\ f a s1 = (Returned b, s').
Proof.
  intros H. apply bind_inv in H as [?|[(e & _ & [=])|[_ [=]]]]. done.
Qed.

(** Lines 192-211 make exactly one native call, the call of the miner. *)
Lemma mine_pool_inv A fv sv nf n s r s' :
  mine_pool N A fv sv nf n s = (r, s') ->
  exists a rr,
    calls s' = CallMine a rr :: calls s
    /\ forall e, r = Raised e -> e = MemoryError \/ e = UnicodeEncodeError.
Proof.
  unfold mine_pool. intros Hrun.
  assert (Hk : forall rr,
    keeps_calls (fun e => e = MemoryError \/ e = UnicodeEncodeError)
    ((free_features fv (seq 0 (Z.to_nat nf));;
     free fv;;
     _free_vector (Some sv) n;;
     new_rules ← get_rules;
     if (rr =? -1) || bool_decide (new_rules = None) then raise MemoryError
     else
       set_nrules rr;;
       verbosity ← encode_ascii (verbosity_str A);
       old_labels ← get_labels_vecs;
       (if bool_decide (old_labels <> None) then
          _free_vector old_labels 2;;
          set_labels_vecs None
        else mret ());;
       mret (n, verbosity)) : M (Z * string))); [intros rr|].
  apply keeps_calls_bind;
    [apply quiet_keeps_calls, quiet_free_features|intros _].
  apply keeps_calls_bind; [apply quiet_keeps_calls, quiet_free|intros _].
  apply keeps_calls_bind;
    [apply quiet_keeps_calls, quiet_free_vector|intros _].
  apply keeps_calls_bind; [keeps_step|intros new_rules].
  destruct (_ || _); [apply keeps_calls_raise; by left|].
  apply keeps_calls_bind; [keeps_step|intros _].
  apply keeps_calls_bind;
    [eapply obeys_keeps_calls, obeys_encode_ascii; by right|intros vb].
  repeat keeps_step.
  destruct (call_mine_rules_run
              (mk_mine_args fv (Some sv) nf n (max_card A) (min_support A)
                 (mverbose A)) s) as (p & s1 & Hmine & Hc & _).
  rewrite (bind_returned _ _ _ _ _ Hmine) in Hrun.
  do 2 eexists. rewrite <- Hc. exact (Hk _ _ _ _ Hrun).
Qed.

Lemma arr_inv_set_next s0 v d0 lo hi s n :
  arr_inv s0 v d0 lo hi s -> arr_inv s0 v d0 lo hi (set_next n s).
Proof. intros [? ? ? ? ? ?]. by constructor. Qed.

(** Every way lines 168-211 can end. A failure before the miner is
    called leaves the heap and the module-level variables as they were,
    except for a feature name that cannot be encoded. *)
Lemma fit_begin_pool_inv A s0 r s' :
  heap_fresh s0 ->
  fit_begin_pool N A s0 = (r, s') ->
  match _to_vector N (samples A) 0 s0 with
  | (Raised e, _) => r = Raised e /\ encoding_error e /\ released s0 s'
  | (Undefined, _) => False
  | (Returned (v, nf), _) =>
      if nf >? Z.of_nat (length (feature_names A))
      then r = Raised (ValueError (FitFeatureMismatch nf
                         (Z.of_nat (length (feature_names A)))))
           /\ released s0 s'
      else (r = Raised MemoryError /\ released s0 s')
           \/ (calls s' = calls s0
               /\ (r = Undefined \/ r = Raised UnicodeEncodeError
                   \/ r = Raised IndexError))
           \/ (exists a rr, calls s' = CallMine a rr :: calls s0
               /\ forall e, r = Raised e ->
                    e = MemoryError \/ e = UnicodeEncodeError)
  end.
Proof.
  intros Hfresh. unfold fit_begin_pool.
  destruct (_to_vector N (samples A) 0 s0) as [[[v nf]|e|] s1] eqn:Henc;
    pose proof (to_vector_inv _ _ _ _ _ Hfresh Henc) as Hspec;
    cbn in Hspec.
  - rewrite (bind_returned _ _ _ _ _ Henc). cbn.
    destruct Hspec as (Hv & Hinv & Hnext).
    destruct (nf >? Z.of_nat (length (feature_names A))).
    + destruct (free_vector_encoded _ _ _ _ Hfresh (eq_sym Hv) Hinv)
        as (s2 & Hfree & Hrel).
      rewrite (bind_returned _ _ _ _ _ Hfree). by intros [= <- <-].
    + unfold malloc, mbind at 1, M_bind at 1.
      destruct (malloc_fails N (next s1)).
      * destruct (free_vector_encoded _ _ _ _ Hfresh (eq_sym Hv)
                    (arr_inv_set_next _ _ _ _ _ _ (S (next s1)) Hinv))
          as (s2 & Hfree & Hrel).
        rewrite (bind_returned _ _ _ _ _ Hfree). intros [= <- <-]. by left.
      * set (s2 := set_next _ _).
        assert (Hc2 : calls s2 = calls s0).
        { destruct Hinv as [(_ & _ & _ & _ & Hc) _ _ _ _ _]. by rewrite <- Hc. }
        intros Hrun. right.
        apply bind_inv in Hrun
          as [(? & s3 & Hdup & Hrun)|[(e & Hdup & ->)|[Hdup ->]]];
          destruct (obeys_dup_features _ _ _ _ _ _ Hdup)
            as [(_ & _ & _ & _ & Hc3) He3].
        -- apply bind_inv in Hrun
             as [(? & s4 & Hdis & Hrun)|[(e & Hdis & ->)|[Hdis ->]]];
             destruct (keeps_calls_discard_stale_pool _ _ _ Hdis)
               as [Hc4 He4].
           ++ right. apply mine_pool_inv in Hrun as (a & rr & Hc & He).
              exists a, rr. split; [congruence|done].
           ++ by destruct (He4 e).
           ++ left. split; [congruence|by left].
        -- left. split; [congruence|].
           destruct (He3 e eq_refl) as [-> | ->]; auto.
        -- left. split; [congruence|by left].
  - rewrite (bind_raised _ _ _ _ _ Henc). intros [= <- <-].
    by destruct Hspec.
  - done.
Qed.

(** Lines 213-229 make no native call. *)
Lemma keeps_calls_fit_begin_labels A n :
  keeps_calls label_error (fit_begin_labels N A n).
Proof.
  unfold fit_begin_labels.
  apply keeps_calls_bind.
  - apply keeps_calls_try.
    + eapply obeys_keeps_calls, obeys_to_vector. by left.
    + repeat keeps_step.
  - intros [lv k].
    apply keeps_calls_bind; [keeps_step|intros _].
    destruct (negb (k =? n)).
    + do 5 (apply keeps_calls_bind; [keeps_step|intros ?]).
      apply keeps_calls_raise. right. eauto.
    + apply keeps_calls_bind; [keeps_step|intros ?].
      apply keeps_calls_bind; [keeps_step|intros ?].
      apply keeps_calls_bind;
        [apply quiet_keeps_calls, quiet_set_features|intros ?].
      apply keeps_calls_bind; [keeps_step|intros ?].
      apply keeps_calls_bind;
        [apply quiet_keeps_calls, quiet_set_features|intros ?].
      apply keeps_calls_bind;
        [apply quiet_keeps_calls, quiet_strcpy|intros ?].
      apply quiet_keeps_calls, quiet_strcpy.
Qed.

(** One step of a run through a read or a write of a module-level
    variable. *)
Ltac step_global H :=
  let Hs := fresh "Hs" in
  apply bind_inv in H as [(? & ? & Hs & H)|[(? & Hs & _)|[Hs _]]];
  cbv [set_rules set_labels_vecs set_minor set_nrules
       get_rules get_labels_vecs get_minor get_nrules] in Hs;
  [injection Hs as <- <-|discriminate Hs|discriminate Hs].

(** The release of the three structures of a session, lines 246-252 and
    lines 288-294: unless a free is undefined, all four module-level
    variables are reset. *)
Lemma teardown_inv {A} (x : A) lvs m rs n s r s' :
  (_free_vector lvs 2;;
   set_labels_vecs None;;
   _free_vector m 1;;
   set_minor None;;
   _free_vector rs n;;
   set_rules None;;
   set_nrules 0;;
   mret x) s = (r, s') ->
  calls s' = calls s
  /\ (r = Undefined
      \/ r = Returned x /\ rules s' = None /\ labels_vecs s' = None
         /\ minor s' = None /\ nrules s' = 0).
Proof.
  intros Hrun.
  apply bind_inv in Hrun as [(? & s1 & H1 & Hrun)|[(e & H1 & ->)|[H1 ->]]];
    destruct (quiet_free_vector _ _ _ _ _ H1) as [Hg1 He1];
    unfold same_globals in Hg1;
    [|by destruct (He1 e)|split; [intuition congruence|by left]].
  step_global Hrun.
  apply bind_inv in Hrun as [(? & s2 & H2 & Hrun)|[(e & H2 & ->)|[H2 ->]]];
    destruct (quiet_free_vector _ _ _ _ _ H2) as [Hg2 He2];
    unfold same_globals in Hg2; cbn in Hg2;
    [|by destruct (He2 e)|split; [intuition congruence|by left]].
  step_global Hrun.
  apply bind_inv in Hrun as [(? & s3 & H3 & Hrun)|[(e & H3 & ->)|[H3 ->]]];
    destruct (quiet_free_vector _ _ _ _ _ H3) as [Hg3 He3];
    unfold same_globals in Hg3; cbn in Hg3;
    [|by destruct (He3 e)|split; [intuition congruence|by left]].
  step_global Hrun. step_global Hrun.
  injection Hrun as <- <-. cbn.
  split; [intuition congruence|]. right. repeat split; intuition congruence.
Qed.

(** The three frees of that release on a session that owns its three
    structures: they are defined, and free exactly the blocks of the
    structures. *)
Lemma teardown_steps s lv lrecs m mrecs p recs :
  length lrecs = 2%nat -> length mrecs = 1%nat ->
  owned (heap s) lv lrecs -> owned (heap s) m mrecs ->
  owned (heap s) p recs ->
  NoDup (blocks_of lv lrecs ++ blocks_of m mrecs ++ blocks_of p recs) ->
  exists s1 s2 s3,
    _free_vector (Some lv) 2 s = (Returned (), s1)
    /\ _free_vector (Some m) 1 (set_labels_vecs None s1).2
       = (Returned (), s2)
    /\ _free_vector (Some p) (Z.of_nat (length recs)) (set_minor None s2).2
       = (Returned (), s3)
    /\ same_globals s s1 /\ same_globals (set_labels_vecs None s1).2 s2
    /\ same_globals (set_minor None s2).2 s3
    /\ next s3 = next s
    /\ (forall a,
          a ∈ blocks_of lv lrecs ++ blocks_of m mrecs ++ blocks_of p recs ->
          heap s3 !! a = None)
    /\ (forall a,
          a ∉ blocks_of lv lrecs ++ blocks_of m mrecs ++ blocks_of p recs ->
          heap s3 !! a = heap s !! a).
Proof.
  unfold blocks_of. intros Hl Hm Hlv Hmo Hpo Hnd.
  apply NoDup_app in Hnd as (_ & Hd1 & Hnd).
  apply NoDup_app in Hnd as (_ & Hd2 & _).
  destruct (free_vector_owned s lv lrecs Hlv)
    as (s1 & Hrun1 & Hg1 & Hn1 & Hdead1 & Hsame1).
  rewrite Hl in Hrun1. change (Z.of_nat 2) with 2 in Hrun1.
  destruct (free_vector_owned (set_labels_vecs None s1).2 m mrecs)
    as (s2 & Hrun2 & Hg2 & Hn2 & Hdead2 & Hsame2).
  { eapply owned_frame; [exact Hmo|]. intros a Ha. apply Hsame1.
    intros Hin. apply (Hd1 a Hin), elem_of_app. by left. }
  rewrite Hm in Hrun2. change (Z.of_nat 1) with 1 in Hrun2.
  destruct (free_vector_owned (set_minor None s2).2 p recs)
    as (s3 & Hrun3 & Hg3 & Hn3 & Hdead3 & Hsame3).
  { eapply owned_frame; [exact Hpo|]. intros a Ha.
    change (heap (set_minor None s2).2) with (heap s2).
    rewrite Hsame2; [by apply Hsame1; intros Hin;
                       apply (Hd1 a Hin), elem_of_app; right|].
    intros Hin. by apply (Hd2 a Hin). }
  change (heap (set_labels_vecs None s1).2) with (heap s1) in Hsame2.
  change (heap (set_minor None s2).2) with (heap s2) in Hsame3.
  change (next (set_labels_vecs None s1).2) with (next s1) in Hn2.
  change (next (set_minor None s2).2) with (next s2) in Hn3.
  exists s1, s2, s3. do 6 (split; [done|]). split; [congruence|]. split.
  - intros a Ha.
    destruct (decide (a ∈ p :: all_pointers recs)); [by apply Hdead3|].
    rewrite Hsame3 by done.
    destruct (decide (a ∈ m :: all_pointers mrecs)); [by apply Hdead2|].
    rewrite Hsame2 by done.
    apply Hdead1. apply elem_of_app in Ha as [?|Ha]; [done|].
    apply elem_of_app in Ha as [?|?]; done.
  - intros a Ha. apply not_elem_of_app in Ha as [H1 Ha].
    apply not_elem_of_app in Ha as [H2 H3].
    rewrite Hsame3 by done. rewrite Hsame2 by done. by apply Hsame1.
Qed.


(** The release of lines 288-294, on the module-level variables. *)
Lemma teardown_owned_globals {A} (x : A) s lv lrecs m mrecs p recs :
  labels_vecs s = Some lv -> minor s = Some m -> rules s = Some p ->
  nrules s = Z.of_nat (length recs) ->
  length lrecs = 2%nat -> length mrecs = 1%nat ->
  owned (heap s) lv lrecs -> owned (heap s) m mrecs ->
  owned (heap s) p recs ->
  NoDup (blocks_of lv lrecs ++ blocks_of m mrecs ++ blocks_of p recs) ->
  exists s',
    (lvs ← get_labels_vecs; _free_vector lvs 2;;
     set_labels_vecs None;;
     m ← get_minor; _free_vector m 1;;
     set_minor None;;
     rs ← get_rules; n ← get_nrules; _free_vector rs n;;
     set_rules None;;
     set_nrules 0;;
     mret x) s = (Returned x, s')
    /\ rules s' = None /\ labels_vecs s' = None /\ minor s' = None
    /\ nrules s' = 0 /\ calls s' = calls s /\ next s' = next s
    /\ (forall a,
          a ∈ blocks_of lv lrecs ++ blocks_of m mrecs ++ blocks_of p recs ->
          heap s' !! a = None)
    /\ (forall a,
          a ∉ blocks_of lv lrecs ++ blocks_of m mrecs ++ blocks_of p recs ->
          heap s' !! a = heap s !! a).
Proof.
  intros Hlvs Hmin Hrs Hnr Hl Hm Hlv Hmo Hpo Hnd.
  destruct (teardown_steps s lv lrecs m mrecs p recs Hl Hm Hlv Hmo Hpo Hnd)
    as (s1 & s2 & s3 & Hrun1 & Hrun2 & Hrun3 & Hg1 & Hg2 & Hg3 & Hn3
        & Hdead & Hsame).
  destruct Hg1 as (Hr1&Hl1&Hm1&Hc1&Hk1), Hg2 as (Hr2&Hl2&Hm2&Hc2&Hk2),
    Hg3 as (Hr3&Hl3&Hm3&Hc3&Hk3).
  cbn [rules labels_vecs minor nrules calls next heap
       set_labels_vecs set_minor snd] in Hr2, Hl2, Hm2, Hc2, Hk2,
       Hr3, Hl3, Hm3, Hc3, Hk3.
  eexists. split.
  { rewrite (bind_returned get_labels_vecs _ s _ _ eq_refl), Hlvs.
    rewrite (bind_returned _ _ _ _ _ Hrun1).
    rewrite (bind_returned (set_labels_vecs None) _ s1 ()
               (set_labels_vecs None s1).2 eq_refl).
    rewrite (bind_returned get_minor _ _ _ _ eq_refl).
    change (minor (set_labels_vecs None s1).2) with (minor s1).
    rewrite Hm1, Hmin.
    rewrite (bind_returned _ _ _ _ _ Hrun2).
    rewrite (bind_returned (set_minor None) _ s2 ()
               (set_minor None s2).2 eq_refl).
    rewrite (bind_returned get_rules _ _ _ _ eq_refl).
    rewrite (bind_returned get_nrules _ _ _ _ eq_refl).
    change (rules (set_minor None s2).2) with (rules s2).
    change (nrules (set_minor None s2).2) with (nrules s2).
    rewrite Hr2, Hc2, Hr1, Hc1, Hrs, Hnr.
    rewrite (bind_returned _ _ _ _ _ Hrun3).
    rewrite (bind_returned (set_rules None) _ s3 () _ eq_refl).
    rewrite (bind_returned (set_nrules 0) _ _ () _ eq_refl).
    reflexivity. }
  cbn [rules labels_vecs minor nrules calls next heap].
  repeat split; try done; congruence.
Qed.

(** Every way lines 231-238 can end. *)
Lemma fit_begin_minority_inv A n s r s' :
  fit_begin_minority N A n s = (r, s') ->
  (calls s' = calls s /\ r = Undefined)
  \/ (exists a mr, calls s' = CallMinority a mr :: calls s
      /\ (r = Undefined \/ r = Returned mr)).
Proof.
  unfold fit_begin_minority. intros Hrun.
  step_global Hrun.
  apply bind_inv in Hrun as [(? & s1 & H1 & Hrun)|[(e & H1 & ->)|[H1 ->]]].
  2: { exfalso. revert H1. generalize (minor s). intros om H1.
       assert (Hk : keeps_calls (fun _ => False)
                 ((if bool_decide (om <> None)
                   then _free_vector om 1;; set_minor None
                   else mret ()) : M unit)) by repeat keeps_step.
       by destruct (Hk _ _ _ H1) as [_ He]; destruct (He e). }
  2: { left. split; [|done]. revert H1. generalize (minor s). intros om H1.
       assert (Hk : keeps_calls (fun _ => False)
                 ((if bool_decide (om <> None)
                   then _free_vector om 1;; set_minor None
                   else mret ()) : M unit)) by repeat keeps_step.
       by destruct (Hk _ _ _ H1). }
  assert (Hc1 : calls s1 = calls s).
  { revert H1. generalize (minor s). intros om H1.
    assert (Hk : keeps_calls (fun _ => False)
              ((if bool_decide (om <> None)
                then _free_vector om 1;; set_minor None
                else mret ()) : M unit)) by repeat keeps_step.
    by destruct (Hk _ _ _ H1). }
  apply bind_inv in Hrun as [(m & s2 & H2 & Hrun)|[(e & H2 & ->)|[H2 ->]]];
    destruct (quiet_malloc _ _ _ _ H2) as [(_ & _ & _ & _ & Hc2) He2];
    [|by destruct (He2 e)|left; split; [congruence|done]].
  do 4 step_global Hrun. cbn in Hrun.
  destruct (call_minority_run _ _ _ _ Hrun) as (Hr3 & Hc3 & _).
  right. do 2 eexists.
  split; [rewrite Hc3; apply (f_equal (cons _)); cbn; congruence|].
  destruct Hr3 as [->| ->]; [by right|by left].
Qed.

(** Every way lines 239-256 can end. *)
Lemma fit_begin_start_inv A n vb mr s r s' :
  fit_begin_start N A n vb mr s = (r, s') ->
  if negb (mr =? 0)
  then calls s' = calls s /\ (r = Undefined \/ r = Raised MemoryError)
  else exists a rb,
         calls s' = CallBegin a rb :: calls s
         /\ if rb =? -1
            then r = Undefined
                 \/ r = Returned false /\ rules s' = None
                    /\ labels_vecs s' = None /\ minor s' = None
                    /\ nrules s' = 0
            else r = Returned true.
Proof.
  unfold fit_begin_start. intros Hrun.
  do 4 step_global Hrun.
  destruct (negb (mr =? 0)).
  { apply bind_inv in Hrun as [(? & s4 & H4 & Hrun)|[(e & H4 & ->)|[H4 ->]]];
      destruct (quiet_free_vector _ _ _ _ _ H4) as [(_ & _ & _ & _ & Hc4) He4];
      [|by destruct (He4 e)|split; [done|by left]].
    apply bind_inv in Hrun as [(? & s5 & H5 & Hrun)|[(e & H5 & ->)|[H5 ->]]];
      destruct (quiet_free_vector _ _ _ _ _ H5) as [(_ & _ & _ & _ & Hc5) He5];
      [|by destruct (He5 e)|split; [congruence|by left]].
    injection Hrun as <- <-. split; [congruence|by right]. }
  rewrite (bind_returned _ _ _ _ _ (call_run_corels_begin_run _ _)) in Hrun.
  do 2 eexists.
  destruct (_ =? -1) eqn:Hrb.
  - apply teardown_inv in Hrun as [Hc Hr]. cbn in Hc.
    split; [rewrite Hc; reflexivity|].
    rewrite Hrb. exact Hr.
  - injection Hrun as <- <-. cbn.
    split; [reflexivity|]. by rewrite Hrb.
Qed.

(** Every way lines 231-256 can end. *)
Lemma fit_begin_session_inv A n vb s r s' :
  fit_begin_session N A n vb s = (r, s') ->
  (calls s' = calls s /\ r = Undefined)
  \/ (exists a mr, calls s' = CallMinority a mr :: calls s
      /\ (r = Undefined \/ r = Raised MemoryError))
  \/ (exists a rb b mr,
        calls s' = CallBegin a rb :: CallMinority b mr :: calls s
        /\ if rb =? -1
           then r = Undefined
                \/ r = Returned false /\ rules s' = None
                   /\ labels_vecs s' = None /\ minor s' = None
                   /\ nrules s' = 0
           else r = Returned true).
Proof.
  unfold fit_begin_session. intros Hrun.
  apply bind_inv in Hrun as [(mr & s1 & H1 & Hrun)|[(e & H1 & ->)|[H1 ->]]];
    apply fit_begin_minority_inv in H1
      as [[Hc1 Hr1]|(a & mr' & Hc1 & [Hr1|Hr1])]; try done.
  - injection Hr1 as ->. apply fit_begin_start_inv in Hrun.
    destruct (negb (mr' =? 0)).
    + destruct Hrun as [Hc Hr]. right; left. exists a, mr'.
      split; [congruence|done].
    + destruct Hrun as (b & rb & Hc & Hr). right; right.
      exists b, rb, a, mr'. split; [congruence|done].
  - by left.
  - right; left. exists a, mr'. split; [done|by left].
Qed.

(** Lines 168-211 return only after the miner has been called, and make
    no other native call. *)
Lemma fit_begin_pool_calls A s r s' :
  fit_begin_pool N A s = (r, s') ->
  (calls s' = calls s /\ forall x, r <> Returned x)
  \/ (exists a rr, calls s' = CallMine a rr :: calls s).
Proof.
  unfold fit_begin_pool. intros Hrun.
  apply bind_inv in Hrun
    as [([v nf] & s1 & H1 & Hrun)|[(e & H1 & ->)|[H1 ->]]];
    destruct (obeys_to_vector _ _ _ _ _ H1) as [(_ & _ & _ & _ & Hc1) _];
    [|by left|by left].
  cbv beta iota in Hrun. destruct (nf >? _).
  { left.
    apply bind_inv in Hrun as [(? & s2 & H2 & Hrun)|[(e & H2 & ->)|[H2 ->]]];
      destruct (quiet_free_vector _ _ _ _ _ H2) as [(_ & _ & _ & _ & Hc2) _];
      [injection Hrun as <- <-| |]; split; (congruence || done). }
  apply bind_inv in Hrun as [(fv & s2 & H2 & Hrun)|[(e & H2 & ->)|[H2 ->]]];
    destruct (quiet_malloc _ _ _ _ H2) as [(_ & _ & _ & _ & Hc2) _];
    [|left; split; (congruence || done)..].
  destruct fv as [fv|].
  2: { left.
       apply bind_inv in Hrun as [(? & s3 & H3 & Hrun)|[(e & H3 & ->)|[H3 ->]]];
         destruct (quiet_free_vector _ _ _ _ _ H3) as [(_ & _ & _ & _ & Hc3) _];
         [injection Hrun as <- <-| |]; split; (congruence || done). }
  apply bind_inv in Hrun as [(? & s3 & H3 & Hrun)|[(e & H3 & ->)|[H3 ->]]];
    destruct (obeys_dup_features _ _ _ _ _ _ H3) as [(_ & _ & _ & _ & Hc3) _];
    [|left; split; (congruence || done)..].
  apply bind_inv in Hrun as [(? & s4 & H4 & Hrun)|[(e & H4 & ->)|[H4 ->]]];
    destruct (keeps_calls_discard_stale_pool _ _ _ H4) as [Hc4 _];
    [|left; split; (congruence || done)..].
  right. apply mine_pool_inv in Hrun as (a & rr & Hc & _).
  exists a, rr. congruence.
Qed.

Lemma calls_not_longer (l evs : list (@native_call double)) x :
  l <> x :: evs ++ l.
Proof.
  intros H. apply (f_equal length) in H. cbn in H.
  rewrite length_app in H. lia.
Qed.

(** Whenever the native session start is called and reports failure
    (-1), [fit_wrap_begin] raises nothing: unless a free is undefined, it
    returns [False] with the four module-level variables reset. *)
Lemma fit_wrap_begin_start_failure_outcome A s r s' a evs :
  fit_wrap_begin N A s = (r, s') ->
  calls s' = CallBegin a (-1) :: evs ++ calls s ->
  r <> Undefined ->
  r = Returned false /\ rules s' = None /\ labels_vecs s' = None
  /\ minor s' = None /\ nrules s' = 0.
Proof.
  unfold fit_wrap_begin. intros Hrun Hcalls Hdef.
  apply bind_inv in Hrun
    as [([n vb] & s1 & H1 & Hrun)|[(e & H1 & ->)|[H1 ->]]];
    destruct (fit_begin_pool_calls _ _ _ _ H1)
      as [[Hc1 Hnr]|(a1 & rr & Hc1)];
    try (rewrite Hc1 in Hcalls; by apply calls_not_longer in Hcalls);
    try (rewrite Hc1 in Hcalls; discriminate Hcalls).
  { by destruct (Hnr (n, vb)). }
  apply bind_inv in Hrun as [(? & s2 & H2 & Hrun)|[(e & H2 & ->)|[H2 ->]]];
    destruct (keeps_calls_fit_begin_labels _ _ _ _ _ H2) as [Hc2 _];
    try (rewrite Hc2, Hc1 in Hcalls; discriminate Hcalls).
  apply fit_begin_session_inv in Hrun
    as [[Hc3 ->]|[(a3 & mr & Hc3 & _)|(a3 & rb & b3 & mr & Hc3 & Hr)]];
    [done|rewrite Hc3 in Hcalls; discriminate Hcalls|].
  rewrite Hc3 in Hcalls. injection Hcalls as -> -> _.
  cbn in Hr. by destruct Hr.
Qed.

Lemma blocks_at_owned (h : gmap nat block) v recs :
  owned h v recs -> blocks_at h (Some v) = blocks_of v recs.
Proof.
  intros [Hv _ _]. unfold blocks_at. rewrite Hv.
  replace (omap id (Some <$> recs)) with recs; [done|].
  clear Hv. induction recs as [|r recs IH]; [done|].
  rewrite fmap_cons. cbn [omap list_omap id]. by f_equal.
Qed.










Lemma to_vector_rows_count v X (idxs : list nat) nc s k s' :
  to_vector_rows N v X idxs nc s = (Returned k, s') ->
  scan_rows N X idxs nc = Some k.
Proof.
  revert nc s. induction idxs as [|i idxs IH]; intros nc s; cbn.
  - by intros [= <- _].
  - destruct (ascii_to_vector N _ _ _) as [[[nc' nones] bits]|].
    + intros Hrun.
      apply bind_inv in Hrun as [(? & s1 & _ & Hrun)|[(? & _ & [=])|[_ [=]]]].
      apply bind_inv in Hrun as [(? & s2 & _ & Hrun)|[(? & _ & [=])|[_ [=]]]].
      eauto.
    + intros Hrun.
      apply bind_inv in Hrun as [(? & s1 & _ & Hrun)|[(? & _ & [=])|[_ [=]]]].
      apply bind_inv in Hrun as [(? & s2 & _ & Hrun)|[(? & _ & [=])|[_ [=]]]].
      discriminate Hrun.
Qed.

Lemma to_vector_count X s v k s' :
  _to_vector N X 0 s = (Returned (v, k), s') -> encoded_count N X = Some k.
Proof.
  unfold _to_vector, encoded_count. intros Hrun.
  apply bind_inv in Hrun as [([a|] & s1 & _ & Hrun)|[(? & _ & [=])|[_ [=]]]];
    [|discriminate Hrun].
  apply bind_inv in Hrun as [(k' & s2 & Hrows & Hrun)|[(? & _ & [=])|[_ [=]]]].
  injection Hrun as _ <- _. by eapply to_vector_rows_count.
Qed.

(** Whatever the state and whatever else happens, [fit_wrap_begin] does
    not return (neither [True] nor [False]) on label vectors whose length
    differs from the number of samples: no session is started on
    truncated inputs. *)
Theorem fit_wrap_begin_mismatch_never_returns A s k b s' :
  encoded_count N (labels A) = Some k ->
  k <> Z.of_nat (shape0 (samples A)) ->
  fit_wrap_begin N A s <> (Returned b, s').
Proof.
  intros Hcount Hne Hrun. unfold fit_wrap_begin in Hrun.
  apply bind_returned_inv in Hrun as ([n vb] & s1 & Hpool & Hrun).
  assert (n = Z.of_nat (shape0 (samples A))) as ->.
  { unfold fit_begin_pool in Hpool.
    apply bind_returned_inv in Hpool as ([v nf] & s0 & _ & Hpool).
    cbv beta iota in Hpool. destruct (nf >? _).
    { apply bind_returned_inv in Hpool as (? & ? & _ & [=]). }
    apply bind_returned_inv in Hpool as ([fv|] & ? & _ & Hpool).
    2: { apply bind_returned_inv in Hpool as (? & ? & _ & [=]). }
    apply bind_returned_inv in Hpool as (? & ? & _ & Hpool).
    apply bind_returned_inv in Hpool as (? & ? & _ & Hpool).
    unfold mine_pool in Hpool.
    do 4 (apply bind_returned_inv in Hpool as (? & ? & _ & Hpool)).
    step_global Hpool. destruct (_ || _); [discriminate Hpool|].
    do 4 (apply bind_returned_inv in Hpool as (? & ? & _ & Hpool)).
    by injection Hpool as <- _ _. }
  apply bind_returned_inv in Hrun as ([] & s2 & Hlab & _).
  unfold fit_begin_labels in Hlab.
  apply bind_returned_inv in Hlab as ([lv k'] & s3 & Htry & Hlab).
  assert (Henc : _to_vector N (labels A) 0 s1 = (Returned (lv, k'), s3)).
  { unfold try_except_reraise in Htry.
    destruct (_to_vector N (labels A) 0 s1) as [[x|e|] s4]; [done| |done].
    by destruct ((_ : M unit) s4) as [[[]|?|] ?]. }
  apply to_vector_count in Henc. rewrite Hcount in Henc.
  injection Henc as <-.
  step_global Hlab.
  destruct (Z.eqb_spec k (Z.of_nat (shape0 (samples A)))); [done|].
  cbn [negb] in Hlab. step_global Hlab.
  apply bind_returned_inv in Hlab as (? & ? & _ & Hlab).
  do 2 step_global Hlab.
  apply bind_returned_inv in Hlab as (? & ? & _ & [=]).
Qed.

(** When lines 168-211 return, the miner has left a pool in [rules]. *)
Lemma fit_begin_pool_returned_rules A s x s1 :
  fit_begin_pool N A s = (Returned x, s1) -> rules s1 <> None.
Proof.
  unfold fit_begin_pool. intros Hpool.
  apply bind_returned_inv in Hpool as ([v nf] & s0 & _ & Hpool).
  cbv beta iota in Hpool. destruct (nf >? _).
  { apply bind_returned_inv in Hpool as (? & ? & _ & [=]). }
  apply bind_returned_inv in Hpool as ([fv|] & ? & _ & Hpool).
  2: { apply bind_returned_inv in Hpool as (? & ? & _ & [=]). }
  apply bind_returned_inv in Hpool as (? & ? & _ & Hpool).
  apply bind_returned_inv in Hpool as (? & ? & _ & Hpool).
  unfold mine_pool in Hpool.
  do 4 (apply bind_returned_inv in Hpool as (? & ? & _ & Hpool)).
  step_global Hpool.
  match type of Hpool with
  | context [bool_decide (rules ?s5 = None)] =>
      destruct (_ =? -1); [discriminate Hpool|];
      destruct (decide (rules s5 = None)) as [Hnone|Hrules];
      [by rewrite bool_decide_eq_true_2 in Hpool
      |rewrite bool_decide_eq_false_2 in Hpool by done]
  end.
  cbn [orb] in Hpool. step_global Hpool.
  apply bind_returned_inv in Hpool as (? & s6 & H6 & Hpool).
  destruct (obeys_encode_ascii _ _ _ _ H6) as [(Hr6 & _) _]. cbn in Hr6.
  step_global Hpool.
  apply bind_returned_inv in Hpool as (? & s7 & H7 & Hpool).
  injection Hpool as _ <-.
  assert (Hk : rules s7 = rules s6).
  { revert H7. generalize (labels_vecs s6). intros ol H7.
    destruct (bool_decide (ol <> None)); [|by injection H7 as _ <-].
    apply bind_returned_inv in H7 as (? & s8 & H8 & H7).
    destruct (quiet_free_vector _ _ _ _ _ H8) as [(Hr8 & _) _].
    injection H7 as _ <-. exact Hr8. }
  congruence.
Qed.

(** The defect behind the failure paths of lines 216-224: whenever
    [fit_wrap_begin] raises the sample-count [ValueError], the pool has
    been freed but the module-level [rules] still points to it. *)
Theorem fit_wrap_begin_mismatch_dangling_pool A s k n s' :
  heap_fresh s ->
  fit_wrap_begin N A s = (Raised (ValueError (SampleCountMismatch k n)), s') ->
  exists p, rules s' = Some p /\ heap s' !! p = None.
Proof.
  intros Hfresh Hrun. unfold fit_wrap_begin in Hrun.
  apply bind_inv in Hrun
    as [([n' vb] & s1 & Hpool & Hrun)|[(e & Hpool & Heq)|[_ [=]]]].
  2: { injection Heq as <-.
       pose proof (fit_begin_pool_inv _ _ _ _ Hfresh Hpool) as Hinv.
       destruct (_to_vector N (samples A) 0 s) as [[[v nf]|e0|] s0].
       - destruct (nf >? _); [by destruct Hinv|].
         destruct Hinv as [[? _]|[[_ [?|[?|?]]]|(? & ? & _ & He)]]; try done.
         by destruct (He _ eq_refl).
       - by destruct Hinv as ([= <-] & [?|?] & _).
       - done. }
  pose proof (fit_begin_pool_returned_rules _ _ _ _ Hpool) as Hrules.
  apply bind_inv in Hrun as [(? & s2 & Hlab & Hrun)|[(e & Hlab & Heq)|[_ [=]]]].
  { apply fit_begin_session_inv in Hrun
      as [[_ ?]|[(? & ? & _ & [?|?])|(? & rb & ? & ? & _ & Hr)]]; try done.
    destruct (rb =? -1); [by destruct Hr as [?|[? _]]|done]. }
  injection Heq as <-. unfold fit_begin_labels in Hlab.
  apply bind_inv in Hlab as [([lv k'] & s3 & Htry & Hlab)|[(e & Htry & Heq)|[_ [=]]]].
  2: { injection Heq as <-. exfalso.
       assert (Hk : keeps_calls encoding_error
                 (try_except_reraise (_to_vector N (labels A) 0)
                    (rs ← get_rules; n ← get_nrules; _free_vector rs n))).
       { apply keeps_calls_try.
         - eapply obeys_keeps_calls, obeys_to_vector. done.
         - repeat keeps_step. }
       destruct (Hk _ _ _ Htry) as [_ He]. by destruct (He _ eq_refl). }
  assert (Hr3 : rules s3 = rules s1).
  { unfold try_except_reraise in Htry.
    destruct (_to_vector N (labels A) 0 s1) as [[x|e|] s4] eqn:Henc.
    - injection Htry as _ <-.
      by destruct (obeys_to_vector _ _ _ _ _ Henc) as [(? & _) _].
    - by destruct ((_ : M unit) s4) as [[[]|?|] ?].
    - done. }
  step_global Hlab. destruct (negb _); cycle 1.
  { exfalso. step_global Hlab.
    apply bind_inv in Hlab as [(? & ? & H & Hlab)|[(e & H & [=])|[_ [=]]]];
      [|by destruct (quiet_malloc _ _ _ _ H) as [_ He]; destruct (He e)].
    apply bind_inv in Hlab as [(? & ? & H0 & Hlab)|[(e & H0 & [=])|[_ [=]]]];
      [|by destruct (quiet_set_features _ _ _ _ _ _ H0) as [_ He];
          destruct (He e)].
    apply bind_inv in Hlab as [(? & ? & H1 & Hlab)|[(e & H1 & [=])|[_ [=]]]];
      [|by destruct (quiet_malloc _ _ _ _ H1) as [_ He]; destruct (He e)].
    apply bind_inv in Hlab as [(? & ? & H2 & Hlab)|[(e & H2 & [=])|[_ [=]]]];
      [|by destruct (quiet_set_features _ _ _ _ _ _ H2) as [_ He];
          destruct (He e)].
    apply bind_inv in Hlab as [(? & ? & H3 & Hlab)|[(e & H3 & [=])|[_ [=]]]];
      [|by destruct (quiet_strcpy _ _ _ _ _ H3) as [_ He]; destruct (He e)].
    by destruct (quiet_strcpy _ _ _ _ _ Hlab) as [_ He];
      destruct (He _ eq_refl). }
  step_global Hlab.
  apply bind_inv in Hlab as [(? & s4 & H4 & Hlab)|[(e & H4 & Heq)|[_ [=]]]];
    destruct (quiet_free_vector _ _ _ _ _ H4) as [(Hr4 & _) He4];
    [|by destruct (He4 e)].
  do 2 step_global Hlab. cbn in Hr4.
  destruct (rules s4) as [p|] eqn:Hp; [|congruence].
  apply bind_inv in Hlab as [(? & s5 & H5 & Hlab)|[(e & H5 & Heq)|[_ [=]]]];
    destruct (quiet_free_vector _ _ _ _ _ H5) as [(Hr5 & _) He5];
    [|by destruct (He5 e)].
  injection Hlab as _ <-. exists p. split; [congruence|].
  unfold _free_vector in H5.
  apply bind_returned_inv in H5 as (? & s6 & _ & H5).
  unfold free in H5. destruct (heap s6 !! p); [|done].
  injection H5 as <-. subst. cbn. apply lookup_delete_eq.
Qed.

(** ** The result extractor *)

Lemma load_int_pure p i s :
  load_int p i s
  = match int_at s p i with
    | Some z => (Returned z, s)
    | None => (Undefined, s)
    end.
Proof.
  unfold load_int, int_at. destruct p as [a|]; cbn; [|done].
  unfold mbind, M_bind, load.
  destruct (heap s !! a) as [[]|]; cbn; try done.
  by destruct (l !! i).
Qed.

Lemma load_slot_pure v i s :
  load_slot v i s
  = match slot_at s v i with
    | Some r => (Returned r, s)
    | None => (Undefined, s)
    end.
Proof.
  unfold load_slot, slot_at, mbind, M_bind, load.
  destruct (heap s !! v) as [[]|]; cbn; try done.
  by destruct (slots !! i) as [[r|]|].
Qed.

Lemma mapM_load_int_pure p (js : list nat) s :
  mapM (load_int p) js s
  = match mapM (int_at s p) js with
    | Some l => (Returned l, s)
    | None => (Undefined, s)
    end.
Proof.
  induction js as [|j js IH]; cbn; [done|].
  unfold mbind at 1, M_bind at 1. rewrite load_int_pure.
  destruct (int_at s p j) as [z|]; cbn; [|done].
  unfold mbind at 1, M_bind at 1. rewrite IH.
  by destruct (mapM (int_at s p) js).
Qed.

Lemma extract_rules_cons rulelist classes i (idxs : list nat) s :
  extract_rules rulelist classes (i :: idxs) s
  = match path_rule s rulelist classes i with
    | Some y =>
        (tail ← extract_rules rulelist classes idxs; mret (y :: tail)) s
    | None => (Undefined, s)
    end.
Proof.
  cbn [extract_rules]. unfold path_rule.
  unfold mbind at 1, M_bind at 1. rewrite load_int_pure.
  destruct (int_at s rulelist i) as [idx|]; cbn [mbind option_bind]; [|done].
  unfold mbind at 1, M_bind at 1, get_rules.
  destruct (rules s) as [pool|]; cbn [mbind option_bind]; [|done].
  destruct (idx <? 0); [done|].
  unfold mbind at 1, M_bind at 1. rewrite load_slot_pure.
  destruct (slot_at s pool (Z.to_nat idx)) as [r|];
    cbn [mbind option_bind]; [|done].
  unfold mbind at 1, M_bind at 1. rewrite mapM_load_int_pure.
  destruct (mapM (int_at s (ids r)) _) as [ants|];
    cbn [mbind option_bind]; [|done].
  unfold mbind at 1, M_bind at 1. rewrite load_int_pure.
  by destruct (int_at s classes i) as [cls|].
Qed.

(** The loop of lines 275-281 reads the heap and changes nothing; it
    computes the rules of the path, or runs into an undefined read. *)
Lemma extract_rules_pure rulelist classes (idxs : list nat) s :
  extract_rules rulelist classes idxs s
  = match mapM (path_rule s rulelist classes) idxs with
    | Some body => (Returned body, s)
    | None => (Undefined, s)
    end.
Proof.
  induction idxs as [|i idxs IH]; [done|].
  rewrite extract_rules_cons. cbn [mapM].
  destruct (path_rule s rulelist classes i) as [y|];
    cbn [mbind option_bind]; [|done].
  unfold mbind at 1, M_bind at 1. rewrite IH.
  by destruct (mapM (path_rule s rulelist classes) idxs).
Qed.

(** Whenever [fit_wrap_end] returns, the list it returns is the rules of
    the optimal path in order followed by the default rule with the
    placeholder antecedent, or is empty when no class array is yielded. *)
Lemma fit_wrap_end_returned_list s acc0 rulelist size classes s1 acc r_out s' :
  call_run_corels_end N s = (Returned (acc0, rulelist, size, classes), s1) ->
  fit_wrap_end N s = (Returned (acc, r_out), s') ->
  acc = acc0
  /\ match classes with
     | None => r_out = []
     | Some _ =>
         exists body default,
           mapM (path_rule s1 rulelist classes) (seq 0 (Z.to_nat size))
           = Some body
           /\ 0 <= size
           /\ int_at s1 classes (Z.to_nat size) = Some default
           /\ r_out = body ++ [Predict.mk_rule [0] default]
     end.
Proof.
  intros Hcall Hrun. unfold fit_wrap_end in Hrun.
  rewrite (bind_returned _ _ _ _ _ Hcall) in Hrun. cbv beta iota in Hrun.
  apply bind_returned_inv in Hrun as (r0 & s2 & Hout & Hrun).
  assert (Hret : acc = acc0 /\ r_out = r0).
  { step_global Hrun.
    apply bind_returned_inv in Hrun as (? & s3 & _ & Hrun).
    do 2 step_global Hrun.
    apply bind_returned_inv in Hrun as (? & s4 & _ & Hrun).
    do 3 step_global Hrun.
    apply bind_returned_inv in Hrun as (? & s5 & _ & Hrun).
    do 2 step_global Hrun.
    by injection Hrun as <- <- _. }
  destruct Hret as [-> ->]. split; [done|].
  destruct classes as [cl|]; [|by injection Hout as <- _].
  apply bind_returned_inv in Hout as (body & s3 & Hbody & Hout).
  rewrite extract_rules_pure in Hbody.
  destruct (mapM (path_rule s1 rulelist (Some cl)) _) as [body'|] eqn:Hpath;
    [injection Hbody as -> <-|done].
  apply bind_returned_inv in Hout as (d & s4 & Hd & Hout).
  destruct (Z.ltb_spec size 0) as [?|Hsize]; [done|].
  rewrite load_int_pure in Hd.
  destruct (int_at s1 (Some cl) (Z.to_nat size)) as [d'|] eqn:Hdef;
    [injection Hd as -> <-|done].
  apply bind_returned_inv in Hout as (? & s5 & _ & Hout).
  apply bind_returned_inv in Hout as (? & s6 & _ & Hout).
  injection Hout as <- _. by exists body, d.
Qed.

(** The native end operation leaves the module-level variables and the
    live blocks alone; the arrays it yields are new blocks. *)
Lemma call_run_corels_end_inv s acc rl sz cl s1 :
  call_run_corels_end N s = (Returned (acc, rl, sz, cl), s1) ->
  rules s1 = rules s /\ labels_vecs s1 = labels_vecs s
  /\ minor s1 = minor s /\ nrules s1 = nrules s
  /\ (forall a, (a < next s)%nat -> heap s1 !! a = heap s !! a)
  /\ (forall a, rl = Some a -> (next s <= a)%nat /\ is_Some (heap s1 !! a))
  /\ (forall a, cl = Some a -> (next s <= a)%nat /\ is_Some (heap s1 !! a))
  /\ (forall a, rl = Some a -> cl <> Some a).
Proof.
  unfold call_run_corels_end.
  destruct (run_corels_end N s) as [acc' [l1|] sz' [l2|]]; cbn;
    intros [= <- <- <- <- <-]; cbn.
  all: repeat split; try done.
  all: try (intros a [= <-]); try (intros a Ha).
  all: try match goal with H : Some _ = Some _ |- _ => injection H as <- end.
  all: repeat (rewrite lookup_insert_eq || rewrite lookup_insert_ne by lia).
  all: try done; try lia; try (by eexists).
  intros [= ?]. lia.
Qed.

Lemma owned_live (h : gmap nat block) v recs a :
  owned h v recs -> a ∈ blocks_of v recs -> is_Some (h !! a).
Proof.
  intros [Hv _ Hlive] Ha. apply elem_of_cons in Ha as [->|Ha]; [by eexists|].
  by apply Hlive.
Qed.

Lemma live_below s a :
  heap_fresh s -> is_Some (heap s !! a) -> (a < next s)%nat.
Proof.
  intros Hf [b Hb]. destruct (decide (a < next s)%nat) as [|Hge]; [done|].
  rewrite Hf in Hb by lia. done.
Qed.

(** On a session that owns its three structures, and on an optimal path
    that lies in the pool, [fit_wrap_end] is defined and returns the rules
    of the path followed by the default rule. *)
Lemma fit_wrap_end_returns_list s acc0 rulelist size classes s1 :
  call_run_corels_end N s = (Returned (acc0, rulelist, size, classes), s1) ->
  heap_fresh s -> session_owned s ->
  match classes with
  | None => exists s', fit_wrap_end N s = (Returned (acc0, []), s')
  | Some _ =>
      forall body default,
        mapM (path_rule s1 rulelist classes) (seq 0 (Z.to_nat size))
        = Some body ->
        0 <= size ->
        int_at s1 classes (Z.to_nat size) = Some default ->
        exists s',
          fit_wrap_end N s
          = (Returned (acc0, body ++ [Predict.mk_rule [0] default]), s')
  end.
Proof.
  intros Hcall Hfresh Hown.
  destruct Hown as (lv & lrecs & m & mrecs & p & recs & Hlv & Hm & Hp
                    & Hl2 & Hl1 & Hn & Ho1 & Ho2 & Ho3 & Hnd).
  destruct (call_run_corels_end_inv _ _ _ _ _ _ Hcall)
    as (Hr1 & Hlv1 & Hm1 & Hn1 & Hold & Hrl & Hcl & Hne).
  assert (Hkeep : forall (h : gmap nat block) v rs,
            (forall a, (a < next s)%nat -> h !! a = heap s !! a) ->
            owned (heap s) v rs -> owned h v rs).
  { intros h v rs Hh Ho. eapply owned_frame; [exact Ho|].
    intros a Ha. apply Hh. eapply live_below; [done|].
    by eapply owned_live. }
  assert (Hdown : forall {B} (x : B) s2,
            rules s2 = rules s -> labels_vecs s2 = labels_vecs s ->
            minor s2 = minor s -> nrules s2 = nrules s ->
            (forall a, (a < next s)%nat -> heap s2 !! a = heap s !! a) ->
            exists s',
              (lvs ← get_labels_vecs; _free_vector lvs 2;;
               set_labels_vecs None;;
               m ← get_minor; _free_vector m 1;;
               set_minor None;;
               rs ← get_rules; n ← get_nrules; _free_vector rs n;;
               set_rules None;;
               set_nrules 0;;
               mret x) s2 = (Returned x, s')).
  { intros B x s2 Hr2 Hlv2 Hm2 Hn2 Hh2.
    destruct (teardown_owned_globals x s2 lv lrecs m mrecs p recs)
      as (s' & Hrun & _); try congruence; try done; try by apply Hkeep.
    by exists s'. }
  unfold fit_wrap_end.
  rewrite (bind_returned _ _ _ _ _ Hcall). cbv beta iota.
  destruct classes as [cl|].
  - intros body default Hpath Hsize Hdef.
    destruct (Hcl cl eq_refl) as [Hclge Hcllive].
    set (h1 := match rulelist with
               | Some a => delete a (heap s1)
               | None => heap s1
               end).
    assert (Hh1 : forall a, (a < next s)%nat -> h1 !! a = heap s !! a).
    { intros a Ha. unfold h1. destruct rulelist as [rl|]; [|by apply Hold].
      destruct (Hrl rl eq_refl) as [Hge _].
      rewrite lookup_delete_ne by lia. by apply Hold. }
    assert (Hmid :
      (body0 ← extract_rules rulelist (Some cl) (seq 0 (Z.to_nat size));
       default0 ←
         (if size <? 0 then undefined
          else load_int (Some cl) (Z.to_nat size));
       free_opt rulelist;;
       free_opt (Some cl);;
       mret (body0 ++ [Predict.mk_rule [0] default0])) s1
      = (Returned (body ++ [Predict.mk_rule [0] default]),
         set_heap (delete cl h1) s1)).
    { assert (Hbody : extract_rules rulelist (Some cl)
                        (seq 0 (Z.to_nat size)) s1 = (Returned body, s1))
        by (by rewrite extract_rules_pure, Hpath).
      rewrite (bind_returned _ _ _ _ _ Hbody).
      destruct (Z.ltb_spec size 0) as [?|_]; [lia|].
      assert (Hd : load_int (Some cl) (Z.to_nat size) s1
                   = (Returned default, s1))
        by (by rewrite load_int_pure, Hdef).
      rewrite (bind_returned _ _ _ _ _ Hd).
      assert (Hrlive : forall a, rulelist = Some a -> is_Some (heap s1 !! a)).
      { intros a ->. by destruct (Hrl a eq_refl). }
      rewrite (bind_returned _ _ _ _ _ (free_opt_live s1 rulelist Hrlive)).
      fold h1.
      assert (Hlive : is_Some (h1 !! cl)).
      { unfold h1. destruct rulelist as [rl|]; [|done].
        rewrite lookup_delete_ne; [done|].
        intros ->. by apply (Hne cl). }
      destruct Hlive as [b Hb].
      rewrite (bind_returned _ _ _ _ _
                 (free_live (set_heap h1 s1) cl b Hb)).
      reflexivity. }
    rewrite (bind_returned _ _ _ _ _ Hmid).
    apply Hdown; try done.
    intros a Ha. cbn [heap set_heap].
    rewrite lookup_delete_ne by lia. by apply Hh1.
  - rewrite (bind_returned (mret []) _ s1 [] s1 eq_refl).
    by apply Hdown.
Qed.



(** C3, as the code has it. The list that [fit_wrap_end] returns when the
    native end operation yields a class array is the rules of the optimal
    path in order, each with the literal ids of its pool entry in order
    and the class predicted at that step, followed by one default rule
    whose antecedents are the placeholder [[0]] and whose class is the
    default class; it is empty when no class array is yielded. Every list
    returned is of this form, and on a session that owns its three
    structures, with a path that lies in the pool, this list is
    returned. *)
Theorem fit_wrap_end_rule_list s acc0 rulelist size classes s1 :
  call_run_corels_end N s = (Returned (acc0, rulelist, size, classes), s1) ->
  (forall acc r_out s',
     fit_wrap_end N s = (Returned (acc, r_out), s') ->
     acc = acc0
     /\ match classes with
        | None => r_out = []
        | Some _ =>
            exists body default,
              mapM (path_rule s1 rulelist classes) (seq 0 (Z.to_nat size))
              = Some body
              /\ 0 <= size
              /\ int_at s1 classes (Z.to_nat size) = Some default
              /\ r_out = body ++ [Predict.mk_rule [0] default]
        end)
  /\ (heap_fresh s -> session_owned s ->
      match classes with
      | None => exists s', fit_wrap_end N s = (Returned (acc0, []), s')
      | Some _ =>
          forall body default,
            mapM (path_rule s1 rulelist classes) (seq 0 (Z.to_nat size))
            = Some body ->
            0 <= size ->
            int_at s1 classes (Z.to_nat size) = Some default ->
            exists s',
              fit_wrap_end N s
              = (Returned (acc0, body ++ [Predict.mk_rule [0] default]), s')
      end).
Proof.
  intros Hcall. split.
  - intros acc r_out s'. by apply fit_wrap_end_returned_list.
  - by apply fit_wrap_end_returns_list.
Qed.

(** ** The allocator invariant *)

Lemma keeps_fresh_pure {A} (m : M A) :
  (forall s, exists r, m s = (r, s)) -> keeps_fresh m.
Proof.
  intros H s r s' Hf Hrun. destruct (H s) as [r0 Hm].
  rewrite Hm in Hrun. by injection Hrun as _ <-.
Qed.

Lemma keeps_fresh_global {A} (m : M A) :
  (forall s, exists r s', m s = (r, s')
             /\ heap s' = heap s /\ next s' = next s) ->
  keeps_fresh m.
Proof.
  intros H s r s' Hf Hrun. destruct (H s) as (r0 & s0 & Hm & Hh & Hn).
  rewrite Hm in Hrun. injection Hrun as _ <-.
  intros a Ha. rewrite Hh. apply Hf. lia.
Qed.

Lemma keeps_fresh_bind {A B} (m : M A) (f : A -> M B) :
  keeps_fresh m -> (forall a, keeps_fresh (f a)) -> keeps_fresh (m ≫= f).
Proof.
  intros Hm Hf s r s' Hfresh Hrun.
  apply bind_inv in Hrun as [(a & s1 & H1 & Hrun)|[(e & H1 & _)|[H1 _]]].
  - eapply Hf; [|exact Hrun]. eapply Hm; [exact Hfresh|exact H1].
  - eapply Hm; [exact Hfresh|exact H1].
  - eapply Hm; [exact Hfresh|exact H1].
Qed.

Lemma keeps_fresh_try {A} (m : M A) (h : M unit) :
  keeps_fresh m -> keeps_fresh h -> keeps_fresh (try_except_reraise m h).
Proof.
  intros Hm Hh s r s' Hfresh. unfold try_except_reraise.
  destruct (m s) as [[a|e|] s1] eqn:Hms.
  - intros [= _ <-]. eauto.
  - destruct (h s1) as [[[]|e'|] s2] eqn:Hhs; intros [= _ <-]; eauto.
  - intros [= _ <-]. eauto.
Qed.

Lemma keeps_fresh_alloc b : keeps_fresh (alloc b : M _).
Proof.
  intros s r s' Hf [= _ <-] a Ha. cbn in *.
  rewrite lookup_insert_ne by lia. apply Hf. lia.
Qed.

Lemma keeps_fresh_malloc b : keeps_fresh (malloc N b).
Proof.
  intros s r s' Hf. unfold malloc.
  destruct (malloc_fails N (next s)); intros [= _ <-] a Ha; cbn in *.
  - apply Hf. lia.
  - rewrite lookup_insert_ne by lia. apply Hf. lia.
Qed.

Lemma keeps_fresh_free a : keeps_fresh (free a : M _).
Proof.
  intros s r s' Hf. unfold free.
  destruct (heap s !! a) eqn:Ha; intros [= _ <-]; [|done].
  intros a' Ha'. cbn in *.
  destruct (decide (a = a')) as [->|Hne].
  - apply lookup_delete_eq.
  - rewrite lookup_delete_ne by done. by apply Hf.
Qed.

Lemma keeps_fresh_store a b : keeps_fresh (store a b : M _).
Proof.
  intros s r s' Hf. unfold store.
  destruct (heap s !! a) eqn:Ha; intros [= _ <-]; [|done].
  intros a' Ha'. cbn in *.
  destruct (decide (a = a')) as [->|Hne].
  - rewrite (Hf a' Ha') in Ha. done.
  - rewrite lookup_insert_ne by done. by apply Hf.
Qed.

Lemma keeps_fresh_load a : keeps_fresh (load a : M _).
Proof.
  apply keeps_fresh_pure. intros s. unfold load.
  destruct (heap s !! a); eauto.
Qed.

Ltac fresh_step :=
  first
    [ apply keeps_fresh_alloc
    | apply keeps_fresh_malloc
    | apply keeps_fresh_free
    | apply keeps_fresh_store
    | apply keeps_fresh_load
    | apply keeps_fresh_pure; intros ?; by eexists
    | apply keeps_fresh_global; intros ?; by do 2 eexists
    | apply keeps_fresh_bind; [|intros ?]
    | progress case_match ].

Lemma keeps_fresh_free_opt p : keeps_fresh (free_opt p : M _).
Proof. unfold free_opt. repeat fresh_step. Qed.

Lemma keeps_fresh_load_slot vs i : keeps_fresh (load_slot vs i : M _).
Proof. unfold load_slot. repeat fresh_step. Qed.

Lemma keeps_fresh_store_slot vs i r : keeps_fresh (store_slot vs i r : M _).
Proof. unfold store_slot. repeat fresh_step. Qed.

Lemma keeps_fresh_load_int p i : keeps_fresh (load_int p i : M _).
Proof. unfold load_int. repeat fresh_step. Qed.

Lemma keeps_fresh_rule_vfree vs i : keeps_fresh (rule_vfree vs i : M _).
Proof.
  unfold rule_vfree.
  apply keeps_fresh_bind; [apply keeps_fresh_load_slot|intros r].
  destruct (truthtable r); [|fresh_step].
  apply keeps_fresh_bind; [fresh_step|intros _].
  apply keeps_fresh_store_slot.
Qed.

Lemma keeps_fresh_vfree_range vs (js : list nat) :
  keeps_fresh (vfree_range vs js : M _).
Proof.
  induction js as [|j js IH]; cbn; [fresh_step|].
  apply keeps_fresh_bind; [apply keeps_fresh_rule_vfree|by intros _].
Qed.

Lemma keeps_fresh_free_slots vs (js : list nat) :
  keeps_fresh (free_slots vs js : M _).
Proof.
  induction js as [|j js IH]; cbn; [fresh_step|].
  apply keeps_fresh_bind; [apply keeps_fresh_rule_vfree|intros _].
  apply keeps_fresh_bind; [apply keeps_fresh_load_slot|intros r].
  apply keeps_fresh_bind; [apply keeps_fresh_free_opt|intros _].
  apply keeps_fresh_bind; [apply keeps_fresh_free_opt|by intros _].
Qed.

Lemma keeps_fresh_free_vector vs count :
  keeps_fresh (_free_vector vs count : M _).
Proof.
  destruct vs as [v|]; cbn; [|fresh_step].
  apply keeps_fresh_bind; [apply keeps_fresh_free_slots|intros _].
  fresh_step.
Qed.

Lemma keeps_fresh_to_vector_rows v X (idxs : list nat) ncount :
  keeps_fresh (to_vector_rows N v X idxs ncount).
Proof.
  revert ncount. induction idxs as [|i idxs IH]; intros ncount; cbn.
  - fresh_step.
  - destruct (ascii_to_vector N _ _ _) as [[[nc nones] bits]|].
    + apply keeps_fresh_bind; [fresh_step|intros t].
      apply keeps_fresh_bind; [apply keeps_fresh_store_slot|by intros _].
    + apply keeps_fresh_bind; [apply keeps_fresh_vfree_range|intros _].
      apply keeps_fresh_bind; [fresh_step|intros _; fresh_step].
Qed.

Lemma keeps_fresh_to_vector X ncount : keeps_fresh (_to_vector N X ncount).
Proof.
  unfold _to_vector.
  apply keeps_fresh_bind; [fresh_step|intros [v|]]; [|fresh_step].
  apply keeps_fresh_bind; [apply keeps_fresh_to_vector_rows|intros nc].
  fresh_step.
Qed.

Lemma keeps_fresh_dup_features fv (names : list string) (idxs : list nat) :
  keeps_fresh (dup_features N fv names idxs).
Proof.
  induction idxs as [|i idxs IH]; cbn; [fresh_step|].
  destruct (names !! i) as [name|]; [|fresh_step].
  apply keeps_fresh_bind;
    [unfold encode_ascii; repeat fresh_step|intros bytestr].
  apply keeps_fresh_bind; [fresh_step|intros q].
  apply keeps_fresh_bind; [unfold store_str; repeat fresh_step|by intros _].
Qed.

Lemma keeps_fresh_free_features fv (idxs : list nat) :
  keeps_fresh (free_features fv idxs : M _).
Proof.
  induction idxs as [|i idxs IH]; cbn; [fresh_step|].
  apply keeps_fresh_bind; [fresh_step|intros b].
  destruct b as [| | |l|]; try (apply keeps_fresh_pure; intros ?; by eexists).
  destruct (l !! i); [|fresh_step].
  apply keeps_fresh_bind; [apply keeps_fresh_free_opt|by intros _].
Qed.

Lemma keeps_fresh_install_rule d : keeps_fresh (install_rule d : M _).
Proof. unfold install_rule. repeat fresh_step. Qed.

Lemma keeps_fresh_mapM {A B} (f : A -> M B) (l : list A) :
  (forall a, keeps_fresh (f a)) -> keeps_fresh (mapM f l).
Proof.
  intros Hf. induction l as [|a l IH]; cbn; [fresh_step|].
  apply keeps_fresh_bind; [apply Hf|intros b].
  apply keeps_fresh_bind; [apply IH|intros k]. fresh_step.
Qed.

Lemma heap_fresh_log_call ev s : heap_fresh s -> heap_fresh (log_call ev s).
Proof. done. Qed.

Lemma keeps_fresh_call_mine_rules a : keeps_fresh (call_mine_rules N a).
Proof.
  intros s r s' Hf. unfold call_mine_rules.
  destruct (mine_rules N s a) as [rr [| |pool]]; cbn.
  - by intros [= _ <-].
  - by intros [= _ <-].
  - apply (keeps_fresh_bind (mapM install_rule pool)).
    + apply keeps_fresh_mapM, keeps_fresh_install_rule.
    + intros rs. repeat fresh_step.
    + by apply heap_fresh_log_call.
Qed.

Lemma keeps_fresh_call_minority a : keeps_fresh (call_minority N a).
Proof.
  intros s r s' Hf. unfold call_minority.
  destruct (minority N s a) as [mr [d|]]; cbn.
  - destruct (mi_minority_out a) as [m|]; [|by intros [= _ <-]].
    apply (keeps_fresh_bind (install_rule d)).
    + apply keeps_fresh_install_rule.
    + intros rt.
      apply keeps_fresh_bind; [apply keeps_fresh_store_slot|intros _].
      fresh_step.
    + by apply heap_fresh_log_call.
  - by intros [= _ <-].
Qed.

Lemma keeps_fresh_call_run_corels_end :
  keeps_fresh (call_run_corels_end N).
Proof.
  intros s r s' Hf. unfold call_run_corels_end.
  apply (keeps_fresh_bind (install_int_array _)).
  - unfold install_int_array. repeat fresh_step.
  - intros rl. apply keeps_fresh_bind;
      [unfold install_int_array; repeat fresh_step|intros cl]. fresh_step.
  - by apply heap_fresh_log_call.
Qed.

Ltac fresh_auto :=
  repeat first
    [ apply keeps_fresh_free_vector
    | apply keeps_fresh_to_vector
    | apply keeps_fresh_dup_features
    | apply keeps_fresh_free_features
    | apply keeps_fresh_call_mine_rules
    | apply keeps_fresh_call_minority
    | apply keeps_fresh_call_run_corels_end
    | apply keeps_fresh_load_slot
    | apply keeps_fresh_store_slot
    | apply keeps_fresh_load_int
    | apply keeps_fresh_free_opt
    | apply keeps_fresh_try
    | fresh_step ].

(** Every live block stays below the allocation counter through
    [fit_wrap_begin], however it ends. *)
Theorem fit_wrap_begin_keeps_fresh A : keeps_fresh (fit_wrap_begin N A).
Proof.
  unfold fit_wrap_begin.
  apply keeps_fresh_bind; [|intros [n vb]; apply keeps_fresh_bind].
  - unfold fit_begin_pool.
    apply keeps_fresh_bind; [fresh_auto|intros [v nf]].
    unfold discard_stale_pool, mine_pool, encode_ascii. fresh_auto.
  - unfold fit_begin_labels.
    apply keeps_fresh_bind; [fresh_auto|intros [lv k]].
    unfold set_features, strcpy. fresh_auto.
  - intros _. unfold fit_begin_session, fit_begin_minority, fit_begin_start,
      call_run_corels_begin. fresh_auto.
Qed.

Lemma keeps_fresh_extract_rules rulelist classes (idxs : list nat) :
  keeps_fresh (extract_rules rulelist classes idxs : M _).
Proof.
  apply keeps_fresh_pure. intros s. rewrite extract_rules_pure.
  destruct (mapM _ idxs); by eexists.
Qed.

(** The same through [fit_wrap_end]. *)
Theorem fit_wrap_end_keeps_fresh : keeps_fresh (fit_wrap_end N).
Proof.
  unfold fit_wrap_end.
  apply keeps_fresh_bind;
    [apply keeps_fresh_call_run_corels_end|intros [[[acc rl] size] cl]].
  apply keeps_fresh_bind.
  - destruct cl; [|fresh_step].
    apply keeps_fresh_bind; [apply keeps_fresh_extract_rules|intros body].
    fresh_auto.
  - intros r_out. fresh_auto.
Qed.

Lemma fit_wrap_loop_keeps_fresh max_nodes :
  keeps_fresh (fit_wrap_loop N max_nodes).
Proof.
  unfold fit_wrap_loop, call_run_corels_loop. repeat fresh_step.
Qed.

(** In every state that the module can reach, the live blocks are below
    the allocation counter. *)
Theorem reachable_heap_fresh s : reachable N s -> heap_fresh s.
Proof.
  induction 1 as [|A s r s' _ IH Hrun _|n s r s' _ IH Hrun _
                  |s r s' _ IH Hrun _].
  - intros a _. apply lookup_empty.
  - exact (fit_wrap_begin_keeps_fresh A _ _ _ IH Hrun).
  - exact (fit_wrap_loop_keeps_fresh n _ _ _ IH Hrun).
  - exact (fit_wrap_end_keeps_fresh _ _ _ IH Hrun).
Qed.

(** ** The encoder and the release of its records *)

(** X7. On a heap whose live blocks all lie below the allocation counter,
    the encoder [_to_vector] has a defined outcome, and a failure (the
    array cannot be allocated, or a row is rejected by the parser) is a
    [MemoryError] or the [ValueError] of line 120 that leaves the heap and
    the module-level variables as they were: the rows encoded before the
    failure and the array are freed. *)
Theorem to_vector_failure_rolls_back X nc s r s' :
  heap_fresh s -> _to_vector N X nc s = (r, s') ->
  r <> Undefined
  /\ forall e, r = Raised e ->
       (e = MemoryError \/ e = ValueError CouldNotLoadSamples)
       /\ heap s' = heap s /\ same_globals s s'.
Proof.
  intros Hfresh Hrun.
  pose proof (to_vector_inv _ _ _ _ _ Hfresh Hrun) as Hinv.
  destruct r as [[v k]|e|]; [|destruct Hinv as (He & Hg & Hh)|done].
  - split; [done|]. by intros e [=].
  - split; [done|]. intros e' [= <-]. split; [exact He|by split].
Qed.

(** X8. Encoding a matrix and then releasing the records with
    [_free_vector] on the number of rows gives the heap back as it was
    before the encoding: every block the encoder allocated is freed, and
    the release is defined. *)
Theorem to_vector_free_vector_round_trip X nc s v k s1 :
  heap_fresh s -> _to_vector N X nc s = (Returned (v, k), s1) ->
  exists s2,
    _free_vector (Some v) (Z.of_nat (shape0 X)) s1 = (Returned (), s2)
    /\ heap s2 = heap s /\ same_globals s s2.
Proof.
  intros Hfresh Hrun.
  destruct (to_vector_inv _ _ _ _ _ Hfresh Hrun) as (Hv & Hinv & _).
  destruct (free_vector_encoded _ _ _ _ Hfresh (eq_sym Hv) Hinv)
    as (s2 & Hfree & Hg & Hh).
  by exists s2.
Qed.

(** X9. On an array of records that owns its buffers (the array and the
    truth table, ids and feature name of every record are live blocks, all
    distinct), [_free_vector] on the number of records is defined, frees
    exactly these blocks, and leaves every other block and the
    module-level variables as they were. *)
Theorem free_vector_frees_exactly s v recs :
  owned (heap s) v recs ->
  exists s',
    _free_vector (Some v) (Z.of_nat (length recs)) s = (Returned (), s')
    /\ same_globals s s'
    /\ forall a, heap s' !! a
                 = if bool_decide (a ∈ blocks_of v recs) then None
                   else heap s !! a.
Proof.
  intros Hown.
  destruct (free_vector_owned s v recs Hown)
    as (s' & Hrun & Hg & _ & Hdead & Hsame).
  exists s'. split; [done|]. split; [done|]. intros a.
  case_bool_decide; [by apply Hdead|by apply Hsame].
Qed.

(** ** The end of a session *)

Lemma call_run_corels_end_returns s :
  exists x s1,
    call_run_corels_end N s = (Returned x, s1)
    /\ calls s1 = CallEnd :: calls s.
Proof.
  unfold call_run_corels_end.
  destruct (run_corels_end N s) as [acc [l1|] sz [l2|]]; cbn;
    by do 2 eexists.
Qed.

Lemma keeps_calls_undefined {A} (P : exn -> Prop) :
  keeps_calls P (undefined : M A).
Proof. by intros s r s' [= <- <-]. Qed.

Lemma keeps_calls_extract_rules rl cl (idxs : list nat) :
  keeps_calls (fun _ => False) (extract_rules rl cl idxs : M _).
Proof.
  intros s r s'. rewrite extract_rules_pure.
  destruct (mapM _ idxs); by intros [= <- <-].
Qed.

Lemma keeps_calls_load_int p i :
  keeps_calls (fun _ => False) (load_int p i : M _).
Proof.
  intros s r s'. rewrite load_int_pure.
  destruct (int_at s p i); by intros [= <- <-].
Qed.

(** X10. [fit_wrap_end] raises no exception and makes exactly one native
    call, the end of the native session; whenever it returns, the four
    module-level variables are reset ([rules], [labels_vecs] and [minor]
    to [NULL], [nrules] to 0), whatever the session was. *)
Theorem fit_wrap_end_resets_globals s r s' :
  fit_wrap_end N s = (r, s') ->
  (forall e, r <> Raised e)
  /\ calls s' = CallEnd :: calls s
  /\ (forall x, r = Returned x ->
        rules s' = None /\ labels_vecs s' = None /\ minor s' = None
        /\ nrules s' = 0).
Proof.
  intros Hrun. unfold fit_wrap_end in Hrun.
  destruct (call_run_corels_end_returns s)
    as ([[[acc rl] sz] cl] & s1 & Hcall & Hc1).
  rewrite (bind_returned _ _ _ _ _ Hcall) in Hrun. cbv beta iota in Hrun.
  match type of Hrun with
  | ?K s1 = _ => assert (Hk : keeps_calls (fun _ => False) (K : M _))
  end.
  { apply keeps_calls_bind.
    - destruct cl as [c|]; [|keeps_step].
      apply keeps_calls_bind; [apply keeps_calls_extract_rules|intros body].
      apply keeps_calls_bind.
      + destruct (sz <? 0);
          [apply keeps_calls_undefined|apply keeps_calls_load_int].
      + intros d. repeat keeps_step.
    - intros r_out. repeat keeps_step. }
  destruct (Hk _ _ _ Hrun) as [Hc He].
  split; [intros e ->; by apply (He e)|].
  split; [congruence|].
  intros x ->.
  apply bind_returned_inv in Hrun as (r0 & s2 & _ & Hrun).
  step_global Hrun.
  apply bind_returned_inv in Hrun as (? & s3 & _ & Hrun).
  do 2 step_global Hrun.
  apply bind_returned_inv in Hrun as (? & s4 & H4 & Hrun).
  destruct (quiet_free_vector _ _ _ _ _ H4) as [(_ & Hl4 & _) _].
  do 3 step_global Hrun.
  apply bind_returned_inv in Hrun as (? & s5 & H5 & Hrun).
  destruct (quiet_free_vector _ _ _ _ _ H5) as [(_ & Hl5 & Hm5 & _) _].
  do 2 step_global Hrun.
  injection Hrun as _ <-. cbn in *. repeat split; congruence.
Qed.

(** ** The native calls of [fit_wrap_begin] *)

(** What lines 168-211 leave when they return: the miner has been called
    once, it has not reported failure, and its return value is the new
    [nrules]. *)
Lemma fit_begin_pool_returned A s n vb s1 :
  fit_begin_pool N A s = (Returned (n, vb), s1) ->
  n = Z.of_nat (shape0 (samples A))
  /\ exists a rr,
       calls s1 = CallMine a rr :: calls s
       /\ rr <> -1 /\ nrules s1 = rr /\ rules s1 <> None
       /\ ma_nsamples a = n.
Proof.
  unfold fit_begin_pool. intros Hpool.
  apply bind_returned_inv in Hpool as ([v nf] & s0 & H0 & Hpool).
  destruct (obeys_to_vector _ _ _ _ _ H0) as [(_ & _ & _ & _ & Hc0) _].
  cbv beta iota in Hpool. destruct (nf >? _).
  { apply bind_returned_inv in Hpool as (? & ? & _ & [=]). }
  apply bind_returned_inv in Hpool as ([fv|] & sa & Ha & Hpool).
  2: { apply bind_returned_inv in Hpool as (? & ? & _ & [=]). }
  destruct (quiet_malloc _ _ _ _ Ha) as [(_ & _ & _ & _ & Hca) _].
  apply bind_returned_inv in Hpool as (? & sb & Hb & Hpool).
  destruct (obeys_dup_features _ _ _ _ _ _ Hb) as [(_ & _ & _ & _ & Hcb) _].
  apply bind_returned_inv in Hpool as (? & sc & Hc & Hpool).
  destruct (keeps_calls_discard_stale_pool _ _ _ Hc) as [Hcc _].
  unfold mine_pool in Hpool.
  apply bind_returned_inv in Hpool as (rr & sd & Hd & Hpool).
  destruct (call_mine_rules_run
              (mk_mine_args fv (Some v) nf (Z.of_nat (shape0 (samples A)))
                 (max_card A) (min_support A) (mverbose A)) sc)
    as (p & sd' & Hd' & Hcd & _ & _ & Hnd & _).
  rewrite Hd' in Hd. injection Hd as <- <-.
  apply bind_returned_inv in Hpool as (? & se & He & Hpool).
  destruct (quiet_free_features _ _ _ _ _ He) as [(_ & _ & _ & _ & Hce) _].
  apply bind_returned_inv in Hpool as (? & sf & Hf & Hpool).
  destruct (quiet_free _ _ _ _ Hf) as [(_ & _ & _ & _ & Hcf) _].
  apply bind_returned_inv in Hpool as (? & sg & Hg & Hpool).
  destruct (quiet_free_vector _ _ _ _ _ Hg) as [(_ & _ & _ & _ & Hcg) _].
  step_global Hpool.
  match type of Hpool with
  | context [bool_decide (rules ?s5 = None)] =>
      destruct (Z.eqb_spec (mine_rules N sc
        (mk_mine_args fv (Some v) nf (Z.of_nat (shape0 (samples A)))
           (max_card A) (min_support A) (mverbose A))).1 (-1))
        as [?|Hrr]; [discriminate Hpool|];
      destruct (decide (rules s5 = None)) as [Hnone|Hrules];
      [by rewrite bool_decide_eq_true_2 in Hpool
      |rewrite bool_decide_eq_false_2 in Hpool by done]
  end.
  cbn [orb] in Hpool. step_global Hpool.
  apply bind_returned_inv in Hpool as (? & sh & Hh & Hpool).
  destruct (obeys_encode_ascii _ _ _ _ Hh) as [(Hrh & _ & _ & Hnh & Hch) _].
  cbn in Hrh, Hnh, Hch.
  step_global Hpool.
  apply bind_returned_inv in Hpool as (? & si & Hi & Hpool).
  injection Hpool as <- <- <-.
  assert (Hk : rules si = rules sh /\ nrules si = nrules sh
               /\ calls si = calls sh).
  { revert Hi. generalize (labels_vecs sh). intros ol Hi.
    destruct (bool_decide (ol <> None)); [|by injection Hi as _ <-].
    apply bind_returned_inv in Hi as (? & sj & Hj & Hi).
    destruct (quiet_free_vector _ _ _ _ _ Hj) as [(Hrj & _ & _ & Hnj & Hcj) _].
    by injection Hi as _ <-. }
  destruct Hk as (Hri & Hni & Hci).
  split; [done|]. do 2 eexists.
  split; [rewrite Hci, Hch, Hcg, Hcf, Hce, Hcd, Hcc, Hcb, Hca, Hc0; reflexivity|].
  split; [exact Hrr|]. split; [congruence|]. split; [congruence|done].
Qed.

(** What lines 213-229 leave when they return. *)
Lemma fit_begin_labels_returned A n s1 s2 :
  fit_begin_labels N A n s1 = (Returned (), s2) ->
  calls s2 = calls s1 /\ rules s2 = rules s1 /\ nrules s2 = nrules s1
  /\ minor s2 = minor s1 /\ labels_vecs s2 <> None.
Proof.
  unfold fit_begin_labels. intros Hlab.
  apply bind_returned_inv in Hlab as ([lv k] & s3 & Htry & Hlab).
  assert (Henc : _to_vector N (labels A) 0 s1 = (Returned (lv, k), s3)).
  { unfold try_except_reraise in Htry.
    destruct (_to_vector N (labels A) 0 s1) as [[x|e|] s4]; [done| |done].
    by destruct ((_ : M unit) s4) as [[[]|?|] ?]. }
  destruct (obeys_to_vector _ _ _ _ _ Henc) as [(Hr3 & _ & Hm3 & Hn3 & Hc3) _].
  step_global Hlab. destruct (negb _).
  { step_global Hlab.
    apply bind_returned_inv in Hlab as (? & ? & _ & Hlab).
    do 2 step_global Hlab.
    apply bind_returned_inv in Hlab as (? & ? & _ & [=]). }
  step_global Hlab.
  apply bind_returned_inv in Hlab as (f0 & sa & Ha & Hlab).
  destruct (quiet_malloc _ _ _ _ Ha) as [(Hra & Hla & Hma & Hna & Hca) _].
  apply bind_returned_inv in Hlab as (? & sb & Hb & Hlab).
  destruct (quiet_set_features _ _ _ _ _ _ Hb)
    as [(Hrb & Hlb & Hmb & Hnb & Hcb) _].
  apply bind_returned_inv in Hlab as (f1 & sc & Hc & Hlab).
  destruct (quiet_malloc _ _ _ _ Hc) as [(Hrc & Hlc & Hmc & Hnc & Hcc) _].
  apply bind_returned_inv in Hlab as (? & sd & Hd & Hlab).
  destruct (quiet_set_features _ _ _ _ _ _ Hd)
    as [(Hrd & Hld & Hmd & Hnd & Hcd) _].
  apply bind_returned_inv in Hlab as (? & se & He & Hlab).
  destruct (quiet_strcpy _ _ _ _ _ He) as [(Hre & Hle & Hme & Hne & Hce) _].
  destruct (quiet_strcpy _ _ _ _ _ Hlab) as [(Hrf & Hlf & Hmf & Hnf & Hcf) _].
  cbn in *. repeat split; congruence.
Qed.

(** What lines 231-238 leave when they return. *)
Lemma fit_begin_minority_returned A n s2 mr s3 :
  fit_begin_minority N A n s2 = (Returned mr, s3) ->
  exists bm,
    calls s3 = CallMinority bm mr :: calls s2
    /\ mi_nrules bm = nrules s2 /\ mi_nsamples bm = n
    /\ rules s3 = rules s2 /\ nrules s3 = nrules s2
    /\ labels_vecs s3 = labels_vecs s2.
Proof.
  unfold fit_begin_minority. intros Hrun.
  step_global Hrun.
  apply bind_returned_inv in Hrun as (? & s1 & H1 & Hrun).
  assert (Hk : rules s1 = rules s2 /\ nrules s1 = nrules s2
               /\ labels_vecs s1 = labels_vecs s2 /\ calls s1 = calls s2).
  { revert H1. generalize (minor s2). intros om H1.
    destruct (bool_decide (om <> None)); [|by injection H1 as _ <-].
    apply bind_returned_inv in H1 as (? & sj & Hj & H1).
    destruct (quiet_free_vector _ _ _ _ _ Hj) as [(Hrj & Hlj & _ & Hnj & Hcj) _].
    by injection H1 as _ <-. }
  destruct Hk as (Hr1 & Hn1 & Hl1 & Hc1).
  apply bind_returned_inv in Hrun as (m & sa & Ha & Hrun).
  destruct (quiet_malloc _ _ _ _ Ha) as [(Hra & Hla & _ & Hna & Hca) _].
  do 4 step_global Hrun. cbn in Hrun.
  destruct (call_minority_run _ _ _ _ Hrun)
    as (Hres & Hcm & Hrm & Hlm & _ & Hnm).
  destruct Hres as [[= ->]|[=]].
  eexists. split; [rewrite Hcm; apply (f_equal (cons _)); cbn; congruence|].
  cbn in *. repeat split; congruence.
Qed.

(** X11. The native calls of [fit_wrap_begin], whatever its outcome: the
    miner, then [minority], then the native session start, each at most
    once and none without its predecessor. [minority] is called only
    after the miner has not reported failure; the native start is called
    only after [minority] has returned 0, with the miner's return value as
    the number of rules, 2 as the number of labels and the number of rows
    of the samples matrix as the number of samples. [fit_wrap_begin]
    returns only after the native start, and it returns whether the start
    has not reported failure; when it returns [True] the pool and the
    label records are in place and [nrules] is the miner's return
    value. *)
Theorem fit_wrap_begin_native_calls A s r s' :
  fit_wrap_begin N A s = (r, s') ->
  (calls s' = calls s /\ forall b, r <> Returned b)
  \/ (exists a rr,
        calls s' = CallMine a rr :: calls s /\ forall b, r <> Returned b)
  \/ (exists a rr bm mr,
        calls s' = CallMinority bm mr :: CallMine a rr :: calls s
        /\ rr <> -1 /\ forall b, r <> Returned b)
  \/ (exists a rr bm c rb,
        calls s' = CallBegin c rb :: CallMinority bm 0 :: CallMine a rr
                     :: calls s
        /\ rr <> -1 /\ ba_nrules c = rr /\ ba_nlabels c = 2
        /\ ba_nsamples c = Z.of_nat (shape0 (samples A))
        /\ (r = Undefined \/ r = Returned (negb (rb =? -1)))
        /\ (r = Returned true ->
            rules s' <> None /\ labels_vecs s' <> None /\ nrules s' = rr)).
Proof.
  unfold fit_wrap_begin. intros Hrun.
  apply bind_inv in Hrun
    as [([n vb] & s1 & H1 & Hrun)|[(e & H1 & ->)|[H1 ->]]].
  2,3: destruct (fit_begin_pool_calls _ _ _ _ H1)
         as [[Hc _]|(a & rr & Hc)];
       [by left|right; left; by exists a, rr].
  destruct (fit_begin_pool_returned _ _ _ _ _ H1)
    as (-> & a & rr & Hc1 & Hrr & Hn1 & Hr1 & _).
  apply bind_inv in Hrun as [([] & s2 & H2 & Hrun)|[(e & H2 & ->)|[H2 ->]]].
  2,3: destruct (keeps_calls_fit_begin_labels _ _ _ _ _ H2) as [Hc2 _];
       right; left; exists a, rr; split; [congruence|done].
  destruct (fit_begin_labels_returned _ _ _ _ H2)
    as (Hc2 & Hr2 & Hn2 & _ & Hl2).
  unfold fit_begin_session in Hrun.
  apply bind_inv in Hrun as [(mr & s3 & H3 & Hrun)|[(e & H3 & ->)|[H3 ->]]].
  2: { by apply fit_begin_minority_inv in H3
         as [[_ ?]|(? & ? & _ & [?|?])]. }
  2: { apply fit_begin_minority_inv in H3
         as [[Hc3 _]|(bm & mr & Hc3 & _)].
       - right; left. exists a, rr. split; [congruence|done].
       - right; right; left. exists a, rr, bm, mr.
         split; [congruence|done]. }
  destruct (fit_begin_minority_returned _ _ _ _ _ H3)
    as (bm & Hc3 & _ & _ & Hr3 & Hn3 & Hl3).
  pose proof (fit_begin_start_inv _ _ _ _ _ _ _ Hrun) as Hinv.
  destruct (Z.eqb_spec mr 0) as [->|Hmr]; cbn [negb] in Hinv.
  2: { destruct Hinv as [Hc4 Hr4]. right; right; left.
       exists a, rr, bm, mr. split; [congruence|]. split; [done|].
       by destruct Hr4 as [-> | ->]. }
  clear Hinv. right; right; right.
  unfold fit_begin_start in Hrun. do 4 step_global Hrun.
  change (negb (0 =? 0)) with false in Hrun. cbv iota in Hrun.
  rewrite (bind_returned _ _ _ _ _ (call_run_corels_begin_run _ _)) in Hrun.
  do 5 eexists.
  destruct (_ =? -1) eqn:Hrb.
  - apply teardown_inv in Hrun as [Hc Hr]. cbn in Hc.
    split; [rewrite Hc, Hc3, Hc2, Hc1; reflexivity|].
    split; [done|]. split; [cbn; congruence|]. split; [done|].
    split; [done|]. rewrite Hrb. cbn [negb].
    destruct Hr as [->|[-> _]]; (split; [first [by left|by right]|done]).
  - injection Hrun as <- <-. cbn.
    split; [rewrite Hc3, Hc2, Hc1; reflexivity|].
    split; [done|]. split; [congruence|]. split; [done|].
    split; [done|]. rewrite Hrb. cbn [negb].
    split; [by right|]. intros _. repeat split; congruence.
Qed.

(** ** Blocks that come to live *)

Import SessionShapes.







(** ** The records that the native library installs *)






(** ** The encoder when every row is parsed *)






(** ** The table of feature names *)




(** ** Lines 168-211 on a run on which nothing fails *)




(** ** Blocks that are freed on the way *)








(** ** Lines 213-229 on a run on which nothing fails *)







(** ** The whole of [fit_wrap_begin] when nothing fails *)





(** ** The end of a session *)

(** The buffers that the native end operation hands back. *)
Lemma call_run_corels_end_run s :
  heap_fresh s ->
  exists rl cl s1,
    call_run_corels_end N s
    = (Returned (er_acc (run_corels_end N s), rl,
                 er_rulelist_size (run_corels_end N s), cl), s1)
    /\ (cl = None <-> er_classes (run_corels_end N s) = None)
    /\ (rl = None <-> er_rulelist (run_corels_end N s) = None)
    /\ (forall l, er_rulelist (run_corels_end N s) = Some l ->
          rl = Some (next s) /\ heap s1 !! next s = Some (BInts l))
    /\ (forall a, (next s <= a)%nat -> rl <> Some a -> cl <> Some a ->
          heap s1 !! a = None).
Proof.
  intros Hfresh. unfold call_run_corels_end.
  destruct (run_corels_end N s) as [acc [l1|] sz [l2|]]; cbn.
  all: do 3 eexists; split; [reflexivity|].
  all: cbn; split; [done|]; split; [done|]; split.
  all: try (intros l [= <-]; split; [done|]).
  all: try done.
  all: try (intros a Ha Hrl Hcl).
  all: repeat (rewrite lookup_insert_eq || rewrite lookup_insert_ne
                 by (try lia; congruence)).
  all: try done; by apply Hfresh.
Qed.

(** What is left of the heap when [fit_wrap_end] has returned. *)
Lemma fit_wrap_end_heap s x s' :
  heap_fresh s -> session_owned s ->
  fit_wrap_end N s = (Returned x, s') ->
  idle s'
  /\ (forall a, a ∈ session_blocks s -> heap s' !! a = None)
  /\ (forall a, a ∉ session_blocks s -> (a < next s)%nat ->
        heap s' !! a = heap s !! a)
  /\ (forall a, (next s <= a)%nat ->
        heap s' !! a
        = match er_classes (run_corels_end N s),
                er_rulelist (run_corels_end N s) with
          | None, Some l =>
              if bool_decide (a = next s) then Some (BInts l) else None
          | _, _ => None
          end).
Proof.
  intros Hfresh Hown Hrun.
  destruct (call_run_corels_end_run s Hfresh)
    as (rulelist & classes & s1 & Hcall & Hcn & Hrn & Hrsome & Habove).
  destruct Hown as (lv & lrecs & m & mrecs & p & recs & Hlv & Hm & Hp
                    & Hl2 & Hl1 & Hn & Ho1 & Ho2 & Ho3 & Hnd).
  assert (Hsb : session_blocks s
                = blocks_of lv lrecs ++ blocks_of m mrecs ++ blocks_of p recs).
  { unfold session_blocks. rewrite Hlv, Hm, Hp.
    by rewrite (blocks_at_owned _ _ _ Ho1), (blocks_at_owned _ _ _ Ho2),
      (blocks_at_owned _ _ _ Ho3). }
  assert (Hbelow : forall a, a ∈ session_blocks s -> (a < next s)%nat).
  { intros a Ha. rewrite Hsb in Ha. eapply live_below; [done|].
    apply elem_of_app in Ha as [Ha|Ha]; [by apply (owned_live _ _ _ _ Ho1)|].
    apply elem_of_app in Ha as [Ha|Ha];
      [by apply (owned_live _ _ _ _ Ho2)|by apply (owned_live _ _ _ _ Ho3)]. }
  destruct (call_run_corels_end_inv _ _ _ _ _ _ Hcall)
    as (Hr1 & Hlv1 & Hm1 & Hn1 & Hold & Hrl & Hcl & Hne).
  assert (Hkeep : forall (h : gmap nat block) v rs,
            (forall a, (a < next s)%nat -> h !! a = heap s !! a) ->
            owned (heap s) v rs -> owned h v rs).
  { intros h v rs Hh Ho. eapply owned_frame; [exact Ho|].
    intros a Ha. apply Hh. eapply live_below; [done|].
    by eapply owned_live. }
  assert (Hdown : forall (y : double * list Predict.rule) s2,
            rules s2 = rules s -> labels_vecs s2 = labels_vecs s ->
            minor s2 = minor s -> nrules s2 = nrules s ->
            (forall a, (a < next s)%nat -> heap s2 !! a = heap s !! a) ->
            forall s0,
              (lvs ← get_labels_vecs; _free_vector lvs 2;;
               set_labels_vecs None;;
               m ← get_minor; _free_vector m 1;;
               set_minor None;;
               rs ← get_rules; n ← get_nrules; _free_vector rs n;;
               set_rules None;;
               set_nrules 0;;
               mret y) s2 = (Returned x, s0) ->
              idle s0
              /\ (forall a, a ∈ session_blocks s -> heap s0 !! a = None)
              /\ (forall a, a ∉ session_blocks s ->
                    heap s0 !! a = heap s2 !! a)).
  { intros y s2 Hr2 Hlv2 Hm2 Hn2 Hh2 s0 Hrun0.
    destruct (teardown_owned_globals y s2 lv lrecs m mrecs p recs)
      as (s0' & Hrun' & Hi1 & Hi2 & Hi3 & _ & _ & _ & Hdead & Hsame);
      try congruence; try done; try by apply Hkeep.
    rewrite Hrun' in Hrun0. injection Hrun0 as _ <-. by rewrite Hsb. }
  unfold fit_wrap_end in Hrun.
  rewrite (bind_returned _ _ _ _ _ Hcall) in Hrun. cbv beta iota in Hrun.
  apply bind_returned_inv in Hrun as (r_out & s2 & Hmid & Hrun).
  destruct classes as [cl|].
  - destruct (er_classes (run_corels_end N s)) as [lc|] eqn:Hec;
      [|by pose proof (proj2 Hcn eq_refl)].
    destruct (Hcl cl eq_refl) as [Hclge Hcllive].
    set (h1 := match rulelist with
               | Some a => delete a (heap s1)
               | None => heap s1
               end).
    assert (Hs2 : s2 = set_heap (delete cl h1) s1).
    { apply bind_returned_inv in Hmid as (body & sa & Hb & Hmid).
      rewrite extract_rules_pure in Hb.
      destruct (mapM _ _) as [body'|]; [|done]. injection Hb as _ <-.
      apply bind_returned_inv in Hmid as (dflt & sb & Hd & Hmid).
      destruct (_ <? 0); [done|]. rewrite load_int_pure in Hd.
      destruct (int_at _ _ _) as [z|]; [|done]. injection Hd as _ <-.
      assert (Hrlive : forall a, rulelist = Some a -> is_Some (heap s1 !! a)).
      { intros a ->. by destruct (Hrl a eq_refl). }
      rewrite (bind_returned _ _ _ _ _ (free_opt_live s1 rulelist Hrlive))
        in Hmid.
      fold h1 in Hmid.
      assert (Hlive : is_Some (h1 !! cl)).
      { unfold h1. destruct rulelist as [rl|]; [|done].
        rewrite lookup_delete_ne; [done|].
        intros ->. by apply (Hne cl). }
      destruct Hlive as [b Hb].
      rewrite (bind_returned _ _ _ _ _
                 (free_live (set_heap h1 s1) cl b Hb)) in Hmid.
      by injection Hmid as _ <-. }
    subst s2.
    assert (Hh1 : forall a, (a < next s)%nat -> h1 !! a = heap s !! a).
    { intros a Ha. unfold h1. destruct rulelist as [rl|]; [|by apply Hold].
      destruct (Hrl rl eq_refl) as [Hge _].
      rewrite lookup_delete_ne by lia. by apply Hold. }
    destruct (Hdown (er_acc (run_corels_end N s), r_out)
                (set_heap (delete cl h1) s1)) with (s0 := s')
      as (Hidle & Hdead & Hsame); try done.
    { intros a Ha. cbn [heap set_heap].
      rewrite lookup_delete_ne by lia. by apply Hh1. }
    split; [done|]. split; [done|]. split.
    + intros a Ha Hlt. rewrite Hsame by done. cbn [heap set_heap].
      rewrite lookup_delete_ne by lia. by apply Hh1.
    + intros a Hge. rewrite Hsame by (intros Hin; apply Hbelow in Hin; lia).
      cbn [heap set_heap].
      destruct (decide (a = cl)) as [->|Hacl];
        [by rewrite lookup_delete_eq|].
      rewrite lookup_delete_ne by done. unfold h1.
      destruct rulelist as [rl|].
      * destruct (decide (a = rl)) as [->|Harl];
          [by rewrite lookup_delete_eq|].
        rewrite lookup_delete_ne by done. apply Habove; congruence.
      * apply Habove; congruence.
  - injection Hmid as <- <-.
    rewrite (proj1 Hcn eq_refl).
    destruct (Hdown (er_acc (run_corels_end N s), []) s1) with (s0 := s')
      as (Hidle & Hdead & Hsame); try done.
    split; [done|]. split; [done|]. split.
    + intros a Ha Hlt. rewrite Hsame by done. by apply Hold.
    + intros a Hge. rewrite Hsame by (intros Hin; apply Hbelow in Hin; lia).
      destruct (er_rulelist (run_corels_end N s)) as [l|] eqn:Hel.
      * destruct (Hrsome l eq_refl) as [-> Hl]. case_bool_decide as Ha.
        -- by rewrite Ha.
        -- apply Habove; congruence.
      * rewrite (proj2 Hrn eq_refl) in Habove. by apply Habove.
Qed.

(** X13.  [fit_wrap_end] releases the session.  On a session that owns
    its three structures, once [fit_wrap_end] has returned, every block of
    the label records, the minority record and the pool is freed; when the
    native end operation has handed back a class array (or no rule list),
    the two result arrays are freed as well and the rest of the heap is
    untouched.  When it hands back a rule list without a class array, the
    rule list is never freed (lines 274 and 284-286). *)
Theorem fit_wrap_end_releases_session s x s' :
  heap_fresh s -> session_owned s ->
  fit_wrap_end N s = (Returned x, s') ->
  (forall a, a ∈ session_blocks s -> heap s' !! a = None)
  /\ (er_classes (run_corels_end N s) <> None
      \/ er_rulelist (run_corels_end N s) = None ->
      forall a, a ∉ session_blocks s -> heap s' !! a = heap s !! a)
  /\ (forall l, er_classes (run_corels_end N s) = None ->
        er_rulelist (run_corels_end N s) = Some l ->
        heap s !! next s = None /\ heap s' !! next s = Some (BInts l)).
Proof.
  intros Hfresh Hown Hrun.
  destruct (fit_wrap_end_heap s x s' Hfresh Hown Hrun)
    as (_ & Hdead & Hbelow & Habove).
  split; [done|]. split.
  - intros Hcase a Ha.
    destruct (decide (a < next s)%nat) as [Hlt|Hge]; [by apply Hbelow|].
    rewrite Habove by lia. rewrite (Hfresh a) by lia.
    destruct (er_classes (run_corels_end N s)) as [lc|]; [done|].
    destruct Hcase as [?|Hnone]; [done|by rewrite Hnone].
  - intros l Hc Hl. split; [by apply Hfresh|].
    rewrite Habove by lia. rewrite Hc, Hl. by rewrite bool_decide_true.
Qed.


(** ** [fit_wrap_begin] on a session that has not been ended *)





(** ** Pointers that outlive their blocks *)





(** ** A feature name that cannot be encoded *)



(** ** A miner that hands back no pool *)


End WithNatives.

End SessionProofs.


(** * Runs of the session on concrete inputs *)

Module SessionRuns.
Import Session SessionInputs SessionInvariants SessionProofs.


(** The scenario of the specification: the session is started, and the
    list extracted at its end is "if feature 1 then 1", followed by the
    default rule with the placeholder antecedent 0 and class 0. *)
Example fit_scenario :
  (fit_wrap_begin (stub sc_ok) args_ok initial).1 = Returned true
  /\ (fit_wrap_end (stub sc_ok) active_ok).1
     = Returned (0, PredictInputs.rl_feature1).
Proof. split; vm_compute; reflexivity. Qed.

(** ** Failures of [fit_wrap_begin] *)



(** The label records and the pool are freed when the sample counts
    differ, but the module-level [rules] and [labels_vecs] keep pointing
    to the freed blocks, and [nrules] keeps the size of the freed pool. *)
Example fit_wrap_begin_mismatch_leaves_freed_pointers :
  (fit_wrap_begin (stub sc_ok) args_labels3 initial).1
  = Raised (ValueError (SampleCountMismatch 3 4))
  /\ rules (fit_wrap_begin (stub sc_ok) args_labels3 initial).2
     = Some 11%nat
  /\ heap (fit_wrap_begin (stub sc_ok) args_labels3 initial).2 !! 11%nat
     = None
  /\ nrules (fit_wrap_begin (stub sc_ok) args_labels3 initial).2 = 1
  /\ labels_vecs (fit_wrap_begin (stub sc_ok) args_labels3 initial).2
     = Some 12%nat
  /\ heap (fit_wrap_begin (stub sc_ok) args_labels3 initial).2 !! 12%nat
     = None.
Proof. repeat split; vm_compute; reflexivity. Qed.

(** A check of [heap_fresh] that can be run on a concrete state. *)
Lemma heap_fresh_check {double} (s : @state double) :
  forallb (fun x => (x.1 <? next s)%nat) (map_to_list (heap s)) = true ->
  heap_fresh s.
Proof.
  intros H a Ha. destruct (heap s !! a) as [b|] eqn:E; [|done].
  apply elem_of_map_to_list, list_elem_of_In in E.
  rewrite forallb_forall in H. apply H, Nat.ltb_lt in E. cbn in E. lia.
Qed.

(** Checks of [NoDup] and [owned] that can be run on a concrete heap. *)
Lemma NoDup_check (l : list nat) : bool_decide (NoDup l) = true -> NoDup l.
Proof. apply bool_decide_eq_true_1. Qed.

Lemma owned_check (h : gmap nat block) v recs :
  h !! v = Some (BRules (Some <$> recs)) ->
  bool_decide (NoDup (v :: all_pointers recs)) = true ->
  forallb (fun a => match h !! a with Some _ => true | None => false end)
    (all_pointers recs) = true ->
  owned h v recs.
Proof.
  intros Hv Hnd Hlive. constructor; [done|by apply NoDup_check|].
  intros a Ha. rewrite forallb_forall in Hlive.
  apply list_elem_of_In, Hlive in Ha. by destruct (h !! a).
Qed.








(** ** The list returned by [fit_wrap_end] *)

(** C3 is not what the code does: the antecedents of the default rule
    that closes the returned list are [[0]], not the empty sequence. *)
Lemma fit_wrap_end_default_rule_antecedents :
  exists acc r_out d,
    (fit_wrap_end (stub sc_ok) active_ok).1 = Returned (acc, r_out)
    /\ last r_out = Some d
    /\ Predict.antecedents d = [0]
    /\ Predict.antecedents d <> [].
Proof.
  exists 0, PredictInputs.rl_feature1, (Predict.mk_rule [0] 0).
  repeat split; try (vm_compute; reflexivity). discriminate.
Qed.

(** The session of the scenario owns its three structures. *)
Lemma heap_fresh_active_ok : heap_fresh active_ok.
Proof. apply heap_fresh_check. by vm_compute. Qed.

Lemma session_owned_active_ok : session_owned active_ok.
Proof.
  exists 12%nat,
    [mk_rule_t (Some 13%nat) (Some 15%nat) 1 None 2;
     mk_rule_t (Some 14%nat) (Some 16%nat) 1 None 2],
    17%nat, [mk_rule_t (Some 18%nat) None 1 None 0],
    11%nat, [mk_rule_t (Some 8%nat) (Some 9%nat) 1 (Some 10%nat) 2].
  do 6 (split; [by vm_compute|]).
  do 3 (split; [apply owned_check; by vm_compute|]).
  apply NoDup_check. by vm_compute.
Qed.

Lemma fit_wrap_end_rule_list_witness :
  exists s',
    fit_wrap_end (stub sc_ok) active_ok
    = (Returned (0, PredictInputs.rl_feature1), s').
Proof.
  refine (proj2 (fit_wrap_end_rule_list (stub sc_ok) active_ok 0
                   (Some 19%nat) 1 (Some 20%nat)
                   (call_run_corels_end (stub sc_ok) active_ok).2 _)
            heap_fresh_active_ok session_owned_active_ok
            [Predict.mk_rule [2] 1] 0 _ _ _).
  - vm_compute. reflexivity.
  - vm_compute. reflexivity.
  - lia.
  - vm_compute. reflexivity.
Defined.

End SessionRuns.
(** * Further properties of the rule-list evaluator *)

Module PredictFacts.
Import Predict PredictSpec PredictInputs PredictRanges PredictProofs.

(** ** The conversions of lines 56-67 *)

Lemma to_c_int_outcome z :
  to_c_int z = if fits_int z then Returned z else Raised OverflowError.
Proof. unfold to_c_int, fits_int. by case_bool_decide. Qed.

Lemma mapM_to_c_int_outcome (l : list Z) :
  mapM to_c_int l
  = if forallb fits_int l then Returned l else Raised OverflowError.
Proof.
  induction l as [|z l IH]; [reflexivity|].
  cbn [mapM forallb]. rewrite to_c_int_outcome.
  destruct (fits_int z); cbn; [|reflexivity].
  rewrite IH. by destruct (forallb fits_int l).
Qed.

Lemma copy_rule_outcome r :
  copy_rule r = if rule_fits r then Returned r else Raised OverflowError.
Proof.
  unfold copy_rule, rule_fits. rewrite to_c_int_outcome.
  destruct (fits_int (prediction r)); cbn; [|reflexivity].
  rewrite mapM_to_c_int_outcome.
  destruct (forallb fits_int (antecedents r)); cbn; [by destruct r|done].
Qed.

Lemma mapM_copy_rule_outcome (rs : list rule) :
  mapM copy_rule rs
  = if forallb rule_fits rs then Returned rs else Raised OverflowError.
Proof.
  induction rs as [|r rs IH]; [reflexivity|].
  cbn [mapM forallb]. rewrite copy_rule_outcome.
  destruct (rule_fits r); cbn; [|reflexivity].
  rewrite IH. by destruct (forallb rule_fits rs).
Qed.

(** The evaluator on a list with a last entry: the rules before it are
    copied, the last one gives the default class and nothing else. *)
Lemma predict_wrap_snoc nr0 X features (body : list rule) d :
  predict_wrap nr0 X features (body ++ [d])
  = if negb (Z.of_nat (shape1 X) =? Z.of_nat (length features) - 1)
    then Raised (ValueError (PredictFeatureMismatch (Z.of_nat (shape1 X))
                               (Z.of_nat (length features) - 1)))
    else
      default ← to_c_int (prediction d);
      rs ← mapM copy_rule body;
      samples_loop X (Z.of_nat (shape1 X)) rs default (seq 0 (shape0 X))
        nr0 (replicate (shape0 X) 0).
Proof.
  unfold predict_wrap. destruct (negb _); [reflexivity|].
  rewrite length_app. cbn [length].
  destruct (Z.ltb_spec (Z.of_nat (length body + 1) - 1) 0) as [?|_]; [lia|].
  replace (Z.to_nat (Z.of_nat (length body + 1) - 1)) with (length body)
    by lia.
  rewrite lookup_app_r, Nat.sub_diag by lia. cbn [lookup list_lookup].
  by rewrite take_app_length.
Qed.

Lemma rules_split (rules : list rule) :
  rules = [] \/ exists body d, rules = body ++ [d].
Proof.
  destruct rules as [|r rules] using rev_ind; [by left|right; eauto].
Qed.

(** ** The antecedents of the last rule *)

(** X1. The antecedents of the last entry of the rule list, the default
    rule, are never read: two lists that differ in them only get the same
    outcome. *)
Theorem predict_wrap_default_antecedents_unread nr0 X features
    (body : list rule) ants ants' p :
  predict_wrap nr0 X features (body ++ [mk_rule ants p])
  = predict_wrap nr0 X features (body ++ [mk_rule ants' p]).
Proof. by rewrite !predict_wrap_snoc. Qed.

(** ** Where the content of [next_rule] on entry counts *)

Lemma rules_loop_assigns X nf s (r : rule) (rs : list rule) nr nr' out :
  rules_loop X nf s (r :: rs) nr out = rules_loop X nf s (r :: rs) nr' out.
Proof. reflexivity. Qed.

Lemma samples_loop_assigns X nf (r : rule) (rs : list rule) default
    (ss : list nat) nr nr' out :
  samples_loop X nf (r :: rs) default ss nr out
  = samples_loop X nf (r :: rs) default ss nr' out.
Proof.
  destruct ss as [|s ss]; [reflexivity|].
  cbn [samples_loop]. by rewrite (rules_loop_assigns X nf s r rs nr nr').
Qed.

(** X2. The content of the local [next_rule] on entry plays a part only
    for a list of exactly one entry evaluated on at least one sample: on
    every other input two calls get the same outcome, whatever the local
    held. *)
Theorem predict_wrap_next_rule_read_only_for_default_only nr0 nr0' X features
    (rules : list rule) :
  length rules <> 1%nat \/ shape0 X = 0%nat ->
  predict_wrap nr0 X features rules = predict_wrap nr0' X features rules.
Proof.
  intros Hcase. destruct (rules_split rules) as [->|(body & d & ->)].
  { reflexivity. }
  rewrite !predict_wrap_snoc. destruct (negb _); [reflexivity|].
  destruct (to_c_int (prediction d)) as [default| |]; cbn; try reflexivity.
  rewrite mapM_copy_rule_outcome.
  destruct (forallb rule_fits body); cbn; [|reflexivity].
  destruct Hcase as [Hlen| ->]; [|reflexivity].
  destruct body as [|r body]; [done|]. apply samples_loop_assigns.
Qed.

Lemma predict_wrap_next_rule_read_only_for_default_only_witness :
  predict_wrap 0 X4 names3 rl_feature1 = predict_wrap 1 X4 names3 rl_feature1.
Proof.
  apply (predict_wrap_next_rule_read_only_for_default_only 0 1 X4 names3
           rl_feature1).
  left. cbn. lia.
Defined.

(** ** The shape of the result *)






(** ** A rule with a literal past the last feature *)






(** ** The [OverflowError] of a number that is no C [int] *)


(** ** Reads of the samples matrix *)





End PredictFacts.


(** * The further facts of the session, on the scenario *)

Module SessionFactsRuns.
Import Session SessionInputs SessionInvariants SessionShapes.
Import SessionFactsInputs SessionProofs SessionRuns.




Lemma to_vector_failure_rolls_back_witness :
  (_to_vector (stub sc_ok) X_row_rejected 0 active_ok).1 <> Undefined
  /\ forall e,
       (_to_vector (stub sc_ok) X_row_rejected 0 active_ok).1 = Raised e ->
       (e = MemoryError \/ e = ValueError CouldNotLoadSamples)
       /\ heap (_to_vector (stub sc_ok) X_row_rejected 0 active_ok).2
          = heap active_ok
       /\ same_globals active_ok
            (_to_vector (stub sc_ok) X_row_rejected 0 active_ok).2.
Proof.
  apply (to_vector_failure_rolls_back (stub sc_ok) X_row_rejected 0
           active_ok).
  - exact heap_fresh_active_ok.
  - vm_compute. reflexivity.
Defined.

Lemma to_vector_free_vector_round_trip_witness :
  exists s2,
    _free_vector (Some 19%nat) (Z.of_nat (shape0 PredictInputs.X4))
      (_to_vector (stub sc_ok) PredictInputs.X4 0 active_ok).2
    = (Returned (), s2)
    /\ heap s2 = heap active_ok /\ same_globals active_ok s2.
Proof.
  apply (to_vector_free_vector_round_trip (stub sc_ok) PredictInputs.X4 0
           active_ok 19%nat 2).
  - exact heap_fresh_active_ok.
  - vm_compute. reflexivity.
Defined.

Lemma free_vector_frees_exactly_witness :
  exists s',
    _free_vector (Some 11%nat) (Z.of_nat (length [pool_record])) active_ok
    = (Returned (), s')
    /\ same_globals active_ok s'
    /\ forall a, heap s' !! a
                 = if bool_decide (a ∈ blocks_of 11%nat [pool_record])
                   then None else heap active_ok !! a.
Proof.
  apply (free_vector_frees_exactly active_ok 11%nat [pool_record]).
  apply owned_check; by vm_compute.
Defined.

Lemma fit_wrap_end_resets_globals_witness :
  (forall e, (fit_wrap_end (stub sc_ok) active_ok).1 <> Raised e)
  /\ calls (fit_wrap_end (stub sc_ok) active_ok).2
     = CallEnd :: calls active_ok
  /\ (forall x, (fit_wrap_end (stub sc_ok) active_ok).1 = Returned x ->
        rules (fit_wrap_end (stub sc_ok) active_ok).2 = None
        /\ labels_vecs (fit_wrap_end (stub sc_ok) active_ok).2 = None
        /\ minor (fit_wrap_end (stub sc_ok) active_ok).2 = None
        /\ nrules (fit_wrap_end (stub sc_ok) active_ok).2 = 0).
Proof.
  apply (fit_wrap_end_resets_globals (stub sc_ok) active_ok).
  vm_compute. reflexivity.
Defined.

Lemma fit_wrap_begin_native_calls_witness :
  (calls started.2 = calls (@initial Z) /\ forall b, started.1 <> Returned b)
  \/ (exists a rr,
        calls started.2 = CallMine a rr :: calls (@initial Z)
        /\ forall b, started.1 <> Returned b)
  \/ (exists a rr bm mr,
        calls started.2
        = CallMinority bm mr :: CallMine a rr :: calls (@initial Z)
        /\ rr <> -1 /\ forall b, started.1 <> Returned b)
  \/ (exists a rr bm c rb,
        calls started.2
        = CallBegin c rb :: CallMinority bm 0 :: CallMine a rr
            :: calls (@initial Z)
        /\ rr <> -1 /\ ba_nrules c = rr /\ ba_nlabels c = 2
        /\ ba_nsamples c = Z.of_nat (shape0 (samples args_ok))
        /\ (started.1 = Undefined \/ started.1 = Returned (negb (rb =? -1)))
        /\ (started.1 = Returned true ->
            rules started.2 <> None /\ labels_vecs started.2 <> None
            /\ nrules started.2 = rr)).
Proof.
  apply (fit_wrap_begin_native_calls (stub sc_ok) args_ok initial).
  vm_compute. reflexivity.
Defined.


Lemma fit_wrap_end_releases_session_witness :
  (forall a, a ∈ session_blocks active_ok ->
     heap (fit_wrap_end (stub sc_ok) active_ok).2 !! a = None)
  /\ (er_classes (run_corels_end (stub sc_ok) active_ok) <> None
      \/ er_rulelist (run_corels_end (stub sc_ok) active_ok) = None ->
      forall a, a ∉ session_blocks active_ok ->
        heap (fit_wrap_end (stub sc_ok) active_ok).2 !! a
        = heap active_ok !! a)
  /\ (forall l,
        er_classes (run_corels_end (stub sc_ok) active_ok) = None ->
        er_rulelist (run_corels_end (stub sc_ok) active_ok) = Some l ->
        heap active_ok !! next active_ok = None
        /\ heap (fit_wrap_end (stub sc_ok) active_ok).2 !! next active_ok
           = Some (BInts l)).
Proof.
  apply (fit_wrap_end_releases_session (stub sc_ok) active_ok
           (0, PredictInputs.rl_feature1)).
  - exact heap_fresh_active_ok.
  - exact session_owned_active_ok.
  - vm_compute. reflexivity.
Defined.







End SessionFactsRuns.
